(** * Authentication and resilience core of the Claude Code CLI sources

    A shallow embedding of
      - [auth/tokens.ts]   (token storage, masking, header helpers),
      - [auth/oauth.ts]    (authorization-code flow and refresh exchange),
      - [auth/index.ts]    (the exported [AuthManager] singleton),
      - [auth/manager.ts]  (the event-emitting [AuthManager] state machine),
      - [utils/async.ts]   ([withRetry], [withConcurrency]),
    followed by the properties established about them.

    Conventions.
      - A JavaScript string is a Rocq [string]; every character stands for one
        UTF-16 code unit below 256, so [String.length] is [.length].
      - A JavaScript [number] that the code uses as an integer (timestamps,
        counters, limits) is a [Z].
      - An optional property or an [undefined] value is an [option].
      - [logger.*] calls never influence control flow or data; they are left
        out, except where the logged value is what a property talks about. *)

From Stdlib Require Import ZArith Lia Bool Ascii String QArith Qminmax.
From stdpp Require Import base option list strings gmap pretty.

Local Open Scope Z_scope.

(** ** JavaScript string primitives *)

Module JsString.

(** Code units below 256 for which [String.prototype.trim] strips:
    TAB, LF, VT, FF, CR, SPACE and NBSP (U+00A0). *)
Definition isWhiteSpace (c : ascii) : bool :=
  match nat_of_ascii c with
  | 9%nat | 10%nat | 11%nat | 12%nat | 13%nat | 32%nat | 160%nat => true
  | _ => false
  end.

Fixpoint trimStart (s : string) : string :=
  match s with
  | EmptyString => EmptyString
  | String c s' => if isWhiteSpace c then trimStart s' else s
  end.

Fixpoint trimEnd (s : string) : string :=
  match s with
  | EmptyString => EmptyString
  | String c s' =>
      let t := trimEnd s' in
      if String.eqb t EmptyString && isWhiteSpace c then EmptyString
      else String c t
  end.

(** [s.trim()] *)
Definition trim (s : string) : string := trimEnd (trimStart s).

(** [s.length] *)
Definition len (s : string) : Z := Z.of_nat (String.length s).

(** Index clamping of [substring]: negative becomes 0, beyond the end
    becomes the length. *)
Definition clamp (n i : Z) : Z := Z.max 0 (Z.min i n).

(** [s.substring(start, end)]: both indices are clamped and swapped when
    [start > end]. *)
Definition substring2 (s : string) (start stop : Z) : string :=
  let a := clamp (len s) start in
  let b := clamp (len s) stop in
  let lo := Z.min a b in
  let hi := Z.max a b in
  String.substring (Z.to_nat lo) (Z.to_nat (hi - lo)) s.

(** [s.substring(start)] *)
Definition substring1 (s : string) (start : Z) : string :=
  substring2 s start (len s).

(** [s.startsWith(p)] *)
Definition startsWith (s p : string) : bool := String.prefix p s.

(** [s.includes(p)] *)
Fixpoint includes (s p : string) : bool :=
  String.prefix p s ||
  match s with
  | EmptyString => false
  | String _ s' => includes s' p
  end.

(** Truthiness of a string: only the empty string is falsy. *)
Definition truthy (s : string) : bool := negb (String.eqb s EmptyString).

(** Truthiness of a possibly undefined string. *)
Definition truthyOpt (o : option string) : bool :=
  match o with
  | Some s => truthy s
  | None => false
  end.

(** [a || b] on strings, with [a] possibly undefined. *)
Definition orElse (a : option string) (b : string) : string :=
  match a with
  | Some s => if truthy s then s else b
  | None => b
  end.

(** Interpolation of a possibly undefined string in a template literal. *)
Definition interpolate (o : option string) : string :=
  match o with
  | Some s => s
  | None => "undefined"
  end.

(** The last code unit, when there is one. *)
Fixpoint lastChar (s : string) : option ascii :=
  match s with
  | EmptyString => None
  | String c EmptyString => Some c
  | String _ s' => lastChar s'
  end.

Definition firstChar (s : string) : option ascii :=
  match s with
  | EmptyString => None
  | String c _ => Some c
  end.

(** A string has no leading and no trailing white space when neither its
    first nor its last code unit is a white-space character. *)
Definition noOuterWhiteSpace (s : string) : bool :=
  match firstChar s, lastChar s with
  | Some a, Some b => negb (isWhiteSpace a) && negb (isWhiteSpace b)
  | _, _ => true
  end.

End JsString.

(** ** Error values ([errors/types.ts], [errors/formatter.ts]) *)

Module Errors.

Inductive ErrorCategory : Type :=
| APPLICATION | AUTHENTICATION | NETWORK | FILE_SYSTEM | COMMAND_EXECUTION
| AI_SERVICE | CONFIGURATION | RESOURCE | UNKNOWN | INTERNAL | VALIDATION
| INITIALIZATION | SERVER | API | TIMEOUT | RATE_LIMIT | CONNECTION
| AUTHORIZATION | FILE_NOT_FOUND | FILE_ACCESS | FILE_READ | FILE_WRITE
| COMMAND | COMMAND_NOT_FOUND.

(** Numeric value of the enum member. *)
Definition categoryCode (c : ErrorCategory) : Z :=
  match c with
  | APPLICATION => 0 | AUTHENTICATION => 1 | NETWORK => 2 | FILE_SYSTEM => 3
  | COMMAND_EXECUTION => 4 | AI_SERVICE => 5 | CONFIGURATION => 6
  | RESOURCE => 7 | UNKNOWN => 8 | INTERNAL => 9 | VALIDATION => 10
  | INITIALIZATION => 11 | SERVER => 12 | API => 13 | TIMEOUT => 14
  | RATE_LIMIT => 15 | CONNECTION => 16 | AUTHORIZATION => 17
  | FILE_NOT_FOUND => 18 | FILE_ACCESS => 19 | FILE_READ => 20
  | FILE_WRITE => 21 | COMMAND => 22 | COMMAND_NOT_FOUND => 23
  end.

(** A JavaScript [Error] object.  [category] is present on [UserError]
    instances only; [cause] is the error a [UserError] wraps. *)
#[warnings="-register-all"]
Inductive JsError : Type :=
  MkError {
    name : string;
    message : string;
    category : option ErrorCategory;
    resolution : option string;
    cause : option JsError
  }.

(** [new Error(msg)] *)
Definition newError (msg : string) : JsError :=
  MkError "Error" msg None None None.

Record UserErrorOptions : Type := {
  opt_cause : option JsError;
  opt_category : option ErrorCategory;
  opt_resolution : option string
}.

(** [new UserError(message, options)]: the category falls back to
    [UNKNOWN] when it is absent or falsy (the member numbered 0). *)
Definition newUserError (msg : string) (o : UserErrorOptions) : JsError :=
  let cat :=
    match opt_category o with
    | Some c => if categoryCode c =? 0 then UNKNOWN else c
    | None => UNKNOWN
    end in
  MkError "UserError" msg (Some cat) (opt_resolution o) (opt_cause o).

(** [createUserError(message, options)] *)
Definition createUserError (msg : string) (o : UserErrorOptions) : JsError :=
  newUserError msg o.

(** What a [throw] or a rejected promise carries: an [Error] instance, or
    any other value (kept as its [String(value)] rendering). *)
Inductive Thrown : Type :=
| ThrownError (e : JsError)
| ThrownValue (rendered : string).

(** [error instanceof Error ? error : new Error(String(error))] *)
Definition toError (t : Thrown) : JsError :=
  match t with
  | ThrownError e => e
  | ThrownValue s => newError s
  end.

(** [error instanceof Error ? error.message : String(error)] *)
Definition errorMessage (t : Thrown) : string :=
  match t with
  | ThrownError e => message e
  | ThrownValue s => s
  end.

(** Completion of a call that may throw, or of an awaited promise. *)
Inductive Outcome (A : Type) : Type :=
| Returns (a : A)
| Throws (t : Thrown).
Arguments Returns {A} a.
Arguments Throws {A} t.

End Errors.

(** ** Effects: state passing with exceptions

    An asynchronous function is embedded as a function from the state of the
    world before the call to its completion ([Returns] for a resolved
    promise, [Throws] for a rejected one) and the state afterwards. *)

Module Eff.
Import Errors.

Definition M (S A : Type) : Type := S -> Outcome A * S.

Definition ret {S A} (a : A) : M S A := fun s => (Returns a, s).

Definition throw {S A} (t : Thrown) : M S A := fun s => (Throws t, s).

Definition bind {S A B} (m : M S A) (k : A -> M S B) : M S B :=
  fun s =>
    match m s with
    | (Returns a, s') => k a s'
    | (Throws t, s') => (Throws t, s')
    end.

(** [try { m } catch (error) { h(error) }] *)
Definition tryCatch {S A} (m : M S A) (h : Thrown -> M S A) : M S A :=
  fun s =>
    match m s with
    | (Returns a, s') => (Returns a, s')
    | (Throws t, s') => h t s'
    end.

Definition get {S} : M S S := fun s => (Returns s, s).

Definition modify {S} (f : S -> S) : M S unit := fun s => (Returns tt, f s).

(** Run a computation on a component of a larger state. *)
Definition zoom {S T A} (proj : T -> S) (upd : S -> T -> T) (m : M S A)
    : M T A :=
  fun t => let '(r, s') := m (proj t) in (r, upd s' t).

Definition when {S} (b : bool) (m : M S unit) : M S unit :=
  if b then m else ret tt.

End Eff.

Notation "'let*' x ':=' m 'in' k" :=
  (Eff.bind m (fun x => k))
  (at level 10, x pattern, m at level 100, k at level 200).
Notation "m ';;' k" :=
  (Eff.bind m (fun _ => k))
  (at level 100, k at level 200, right associativity).

(** ** The world outside the process *)

Module World.
Import JsString Errors Eff.

(** A [fetch] request: URL, method and the [URLSearchParams] body as the
    ordered list of its name/value pairs. *)
Record HttpRequest : Type := {
  req_url : string;
  req_method : string;
  req_body : list (string * string)
}.

(** The JSON body of a token-endpoint response ([data] in the source). *)
Record TokenResponse : Type := {
  access_token : option string;
  refresh_token : option string;
  expires_in : option Z;
  token_type : option string;
  scope_ : option string
}.

(** A [Response]: [response.ok], [await response.text()] and
    [await response.json()]. *)
Record HttpResponse : Type := {
  ok : bool;
  text : string;
  json : Outcome TokenResponse
}.

(** What the process does to the outside, in order. *)
Inductive Event : Type :=
| EvOpenBrowser (base : string) (query : list (string * string))
| EvFetch (req : HttpRequest)
| EvSetTimeout (timer : nat) (ms : Z)
| EvClearTimeout (timer : nat)
| EvEmit (event : string)
| EvLogError (msg : string) (e : Thrown).

(** The outside world: oracles for what the process cannot decide
    (randomness, the clock, the browser, the network, URL syntax) and the
    log of what the process did so far (most recent event last). *)
Record World : Type := {
  randomDraws : nat -> nat;
  drawn : nat;
  clock : nat -> Z;
  clockReads : nat;
  validUrl : string -> bool;
  browser : list Event -> option Thrown;
  respond : list Event -> HttpRequest -> Outcome HttpResponse;
  nextTimer : nat;
  trace : list Event
}.

Definition emitEvent (e : Event) (w : World) : World :=
  {| randomDraws := randomDraws w; drawn := drawn w; clock := clock w;
     clockReads := clockReads w; validUrl := validUrl w;
     browser := browser w; respond := respond w;
     nextTimer := nextTimer w; trace := trace w ++ [e] |}.

Definition record (e : Event) : M World unit := modify (emitEvent e).

(** [Math.floor(Math.random() * n)]: the next draw, brought into [0, n). *)
Definition randomIndex (n : nat) : M World nat :=
  fun w =>
    (Returns (randomDraws w (drawn w) mod n)%nat,
     {| randomDraws := randomDraws w; drawn := S (drawn w); clock := clock w;
        clockReads := clockReads w; validUrl := validUrl w;
        browser := browser w; respond := respond w;
        nextTimer := nextTimer w; trace := trace w |}).

(** [Date.now()] *)
Definition dateNow : M World Z :=
  fun w =>
    (Returns (clock w (clockReads w)),
     {| randomDraws := randomDraws w; drawn := drawn w; clock := clock w;
        clockReads := S (clockReads w); validUrl := validUrl w;
        browser := browser w; respond := respond w;
        nextTimer := nextTimer w; trace := trace w |}).

(** [await open(url)] *)
Definition openBrowser (base : string) (query : list (string * string))
    : M World unit :=
  fun w =>
    let w' := emitEvent (EvOpenBrowser base query) w in
    match browser w (trace w) with
    | None => (Returns tt, w')
    | Some t => (Throws t, w')
    end.

(** [await fetch(url, { method, headers, body })] *)
Definition fetch (req : HttpRequest) : M World HttpResponse :=
  fun w => (respond w (trace w) req, emitEvent (EvFetch req) w).

(** [setTimeout(callback, ms)]: a fresh timer handle. *)
Definition setTimeout (ms : Z) : M World nat :=
  fun w =>
    (Returns (nextTimer w),
     {| randomDraws := randomDraws w; drawn := drawn w; clock := clock w;
        clockReads := clockReads w; validUrl := validUrl w;
        browser := browser w; respond := respond w;
        nextTimer := S (nextTimer w);
        trace := trace w ++ [EvSetTimeout (nextTimer w) ms] |}).

(** [clearTimeout(timer)] *)
Definition clearTimeout (timer : nat) : M World unit :=
  record (EvClearTimeout timer).

(** Number of [fetch] calls in a log. *)
Definition isFetch (e : Event) : bool :=
  match e with
  | EvFetch _ => true
  | _ => false
  end.

Definition fetchCount (l : list Event) : nat :=
  length (List.filter isFetch l).

(** A computation that never calls [fetch], whatever the world. *)
Definition NoFetch {A} (m : M World A) : Prop :=
  forall w, fetchCount (trace (m w).2) = fetchCount (trace w).

End World.

(** ** Token helpers ([auth/types.ts], [auth/tokens.ts]) *)

Module Tokens.
Import JsString Errors Eff World.

(** [interface AuthToken].  [accessToken] is optional here because the
    OAuth code copies [data.access_token] from an untyped response. *)
Record AuthToken : Type := {
  accessToken : option string;
  refreshToken : option string;
  expiresAt : Z;
  tokenType : string;
  scope : string;
  id : option string
}.

Inductive AuthMethod : Type := API_KEY | OAUTH.

Inductive AuthState : Type :=
| INITIAL | AUTHENTICATING | AUTHENTICATED | FAILED | REFRESHING
| EXPIRED | UNAUTHENTICATED.

Global Instance AuthState_eq_dec : EqDecision AuthState.
Proof. solve_decision. Defined.

(** [interface AuthResult] *)
Record AuthResult : Type := {
  success : bool;
  method : option AuthMethod;
  token : option AuthToken;
  state : AuthState;
  error : option string
}.

(** *** The in-memory token storage of [createTokenStorage]:
    a [Map<string, AuthToken>] behind four operations. *)

Definition saveToken (key : string) (t : AuthToken)
    (store : gmap string AuthToken) : gmap string AuthToken :=
  <[key := t]> store.

Definition getToken (key : string) (store : gmap string AuthToken)
    : option AuthToken :=
  store !! key.

Definition deleteToken (key : string) (store : gmap string AuthToken)
    : gmap string AuthToken :=
  delete key store.

Definition clearTokens (store : gmap string AuthToken)
    : gmap string AuthToken :=
  ∅.

(** [Math.floor(Date.now() / 1000)] for a clock reading of [nowMs]
    milliseconds. *)
Definition nowSeconds (nowMs : Z) : Z := nowMs / 1000.

(** [isTokenExpired(token, thresholdSeconds = 0)] *)
Definition isTokenExpired (t : AuthToken) (thresholdSeconds : Z)
    : M World bool :=
  if expiresAt t =? 0 then ret false
  else
    let* now := dateNow in
    ret (expiresAt t - nowSeconds now <=? thresholdSeconds).

(** [validateToken(token)] *)
Definition validateToken (t : AuthToken) : M World bool :=
  if negb (truthyOpt (accessToken t)) then ret false
  else
    let* expired := isTokenExpired t 0 in
    if expired then ret false else ret true.

(** The masking expression of [getTokenDetails]:
    [`${t.substring(0, 4)}...${t.substring(t.length - 4)}`]. *)
Definition maskAccessToken (t : string) : string :=
  substring2 t 0 4 +:+ "..." +:+ substring1 t (len t - 4).

Section Display.
(** [new Date(ms).toLocaleString()] depends on the host locale. *)
Variable toLocaleString : Z -> string.

(** [formatTokenExpiration(expiresAt)] *)
Definition formatTokenExpiration (expires : Z) : string :=
  if expires =? 0 then "never"
  else toLocaleString (expires * 1000).

(** [getTokenDetails(token)]; the returned [Record<string, string>] is a
    finite map from property names to strings. *)
Definition getTokenDetails (t : AuthToken) : M World (gmap string string) :=
  let details : gmap string string := ∅ in
  let details := <["type" := orElse (Some (tokenType t)) "Bearer"]> details in
  let* details :=
    if negb (expiresAt t =? 0) then
      let details :=
        <["expires" := formatTokenExpiration (expiresAt t)]> details in
      let* now := dateNow in
      let expiresIn := expiresAt t - nowSeconds now in
      if 0 <? expiresIn
      then ret (<["expiresIn" := pretty (expiresIn / 60) +:+ " minutes"]> details)
      else ret (<["expiresIn" := "Expired"]> details)
    else ret (<["expires" := "Never"]> details) in
  let details :=
    if truthy (scope t) then <["scope" := scope t]> details else details in
  let details :=
    match id t with
    | Some i => if truthy i then <["id" := i]> details else details
    | None => details
    end in
  let details :=
    match accessToken t with
    | Some a =>
        if truthy a then <["accessToken" := maskAccessToken a]> details
        else details
    | None => details
    end in
  ret details.
End Display.

(** [extractTokenFromHeader(header)] *)
Definition extractTokenFromHeader (header : string) : option string :=
  if negb (truthy header) then None
  else if startsWith header "Bearer " then Some (trim (substring1 header 7))
  else if negb (includes header " ") then Some (trim header)
  else None.

(** [createAuthorizationHeader(token)] *)
Definition createAuthorizationHeader (t : AuthToken) : string :=
  let tokenType := orElse (Some (tokenType t)) "Bearer" in
  tokenType +:+ " " +:+ interpolate (accessToken t).

End Tokens.

(** ** The OAuth flow engine ([auth/oauth.ts]) *)

Module OAuth.
Import JsString Errors Tokens Eff World.

(** [interface OAuthConfig] *)
Record OAuthConfig : Type := {
  clientId : string;
  clientSecret : option string;
  authorizationEndpoint : string;
  tokenEndpoint : string;
  redirectUri : string;
  scopes : list string;
  responseType : string;
  usePkce : option bool
}.

Definition DEFAULT_OAUTH_CONFIG : OAuthConfig :=
  {| clientId := "claude-code-cli";
     clientSecret := None;
     authorizationEndpoint := "https://auth.anthropic.com/oauth2/auth";
     tokenEndpoint := "https://auth.anthropic.com/oauth2/token";
     redirectUri := "http://localhost:3000/callback";
     scopes := ["anthropic.claude"];
     responseType := "code";
     usePkce := Some true |}.

(** [new URL(s)]: a [TypeError] when [s] is not a URL. *)
Definition newURL (s : string) : M World string :=
  let* w := get in
  if validUrl w s then ret s
  else throw (ThrownError (MkError "TypeError" "Invalid URL" None None None)).

Definition chars : string :=
  "ABCDEFGHIJKLMNOPQRSTUVWXYZabcdefghijklmnopqrstuvwxyz0123456789-._~".

(** [s.charAt(i)] *)
Definition charAt (s : string) (i : nat) : string :=
  match String.get i s with
  | Some c => String c EmptyString
  | None => EmptyString
  end.

Fixpoint generateRandomString_from (result : string) (remaining : nat)
    : M World string :=
  match remaining with
  | O => ret result
  | S n =>
      let* i := randomIndex (String.length chars) in
      generateRandomString_from (result +:+ charAt chars i) n
  end.

(** [generateRandomString(length)] *)
Definition generateRandomString (length : nat) : M World string :=
  generateRandomString_from "" length.

(** [generatePkceParams()]: the challenge is the verifier itself. *)
Definition generatePkceParams : M World (string * string) :=
  let* codeVerifier := generateRandomString 64 in
  let codeChallenge := codeVerifier in
  ret (codeVerifier, codeChallenge).

(** [scopes.join(' ')] *)
Fixpoint joinSpace (l : list string) : string :=
  match l with
  | [] => ""
  | [s] => s
  | s :: rest => s +:+ " " +:+ joinSpace rest
  end.

(** [buildAuthorizationUrl(config, state, codeChallenge)]: the endpoint and
    the query parameters appended to it, in order. *)
Definition buildAuthorizationUrl (config : OAuthConfig) (state : string)
    (codeChallenge : string) : M World (string * list (string * string)) :=
  let* url := newURL (authorizationEndpoint config) in
  let params :=
    [("client_id", clientId config);
     ("redirect_uri", redirectUri config);
     ("response_type", responseType config);
     ("state", state)] in
  let params :=
    match scopes config with
    | [] => params
    | _ => params ++ [("scope", joinSpace (scopes config))]
    end in
  let params :=
    if truthy codeChallenge
    then params ++ [("code_challenge", codeChallenge);
                    ("code_challenge_method", "S256")]
    else params in
  ret (url, params).

(** [startLocalServerForCallback(redirectUri)]: the simulated listener;
    one second later it resolves with a fresh random [code] and a fresh
    random [receivedState]. *)
Definition startLocalServerForCallback (redirect : string)
    : M World (string * string) :=
  let* _ := newURL redirect in
  let* _ := setTimeout 1000 in
  let* code := generateRandomString 32 in
  let* receivedState := generateRandomString 32 in
  ret (code, receivedState).

Definition clientSecretParam (config : OAuthConfig) : list (string * string) :=
  match clientSecret config with
  | Some s => if truthy s then [("client_secret", s)] else []
  | None => []
  end.

(** [data.expires_in || 3600] *)
Definition expiresInOrDefault (o : option Z) : Z :=
  match o with
  | Some n => if n =? 0 then 3600 else n
  | None => 3600
  end.

(** The [POST] that [exchangeCodeForToken] sends to the token endpoint. *)
Definition exchangeRequest (config : OAuthConfig) (code : string)
    (codeVerifier : string) : HttpRequest :=
  let params :=
    [("client_id", clientId config)] ++ clientSecretParam config ++
    [("grant_type", "authorization_code");
     ("code", code);
     ("redirect_uri", redirectUri config)] in
  let params :=
    if truthy codeVerifier then params ++ [("code_verifier", codeVerifier)]
    else params in
  {| req_url := tokenEndpoint config; req_method := "POST";
     req_body := params |}.

(** [exchangeCodeForToken(config, code, codeVerifier)] *)
Definition exchangeCodeForToken (config : OAuthConfig) (code : string)
    (codeVerifier : string) : M World AuthToken :=
  let* response := fetch (exchangeRequest config code codeVerifier) in
  if negb (ok response) then
    throw (ThrownError
      (createUserError ("Failed to exchange code for token: " +:+ text response)
         {| opt_cause := None; opt_category := Some AUTHENTICATION;
            opt_resolution := None |}))
  else
    let* data := (fun w => (json response, w)) in
    let* now := dateNow in
    ret {| accessToken := access_token data;
           refreshToken := refresh_token data;
           expiresAt := nowSeconds now + expiresInOrDefault (expires_in data);
           tokenType := orElse (token_type data) "Bearer";
           scope := orElse (scope_ data) "";
           id := None |}.

(** What [performOAuthFlow] holds once the callback has arrived. *)
Record Callback : Type := {
  cb_codeVerifier : string;
  cb_state : string;
  cb_code : string;
  cb_receivedState : string
}.

(** The [try] block of [performOAuthFlow] up to and including the wait for
    the callback. *)
Definition awaitCallback (config : OAuthConfig) : M World Callback :=
  let* (codeVerifier, codeChallenge) :=
    match usePkce config with
    | Some true => generatePkceParams
    | _ => ret ("", "")
    end in
  let* state := generateRandomString 32 in
  let* (base, query) := buildAuthorizationUrl config state codeChallenge in
  let* _ := openBrowser base query in
  let* (code, receivedState) :=
    startLocalServerForCallback (redirectUri config) in
  ret {| cb_codeVerifier := codeVerifier; cb_state := state;
         cb_code := code; cb_receivedState := receivedState |}.

Definition stateMismatchError : JsError :=
  createUserError
    "OAuth state mismatch. Authentication may have been tampered with"
    {| opt_cause := None; opt_category := Some AUTHENTICATION;
       opt_resolution := Some
         "Try the authentication process again. If the issue persists, contact support." |}.

(** The rest of the [try] block: the state check, then the exchange. *)
Definition completeFlow (config : OAuthConfig) (cb : Callback)
    : M World AuthResult :=
  if negb (String.eqb (cb_state cb) (cb_receivedState cb)) then
    throw (ThrownError stateMismatchError)
  else
    let* token :=
      exchangeCodeForToken config (cb_code cb) (cb_codeVerifier cb) in
    ret {| success := true; method := Some OAUTH; token := Some token;
           state := AUTHENTICATED; error := None |}.

(** [performOAuthFlow(config)] *)
Definition performOAuthFlow (config : OAuthConfig) : M World AuthResult :=
  tryCatch
    (let* cb := awaitCallback config in completeFlow config cb)
    (fun error =>
       let* _ := record (EvLogError "OAuth authentication failed" error) in
       ret {| success := false; method := Some OAUTH; token := None;
              state := FAILED; error := Some (errorMessage error) |}).

(** The error thrown by the [catch] block of [refreshOAuthToken]; a caught
    value that is not an [Error] is kept as [cause] by its rendering. *)
Definition refreshFailure (cause : Thrown) : JsError :=
  createUserError "Failed to refresh authentication token"
    {| opt_cause := Some (toError cause);
       opt_category := Some AUTHENTICATION;
       opt_resolution := Some "Try logging in again with the --login flag." |}.

(** The [POST] that [refreshOAuthToken] sends to the token endpoint. *)
Definition refreshRequest (refreshToken : string) (config : OAuthConfig)
    : HttpRequest :=
  {| req_url := tokenEndpoint config; req_method := "POST";
     req_body :=
       [("client_id", clientId config)] ++
       clientSecretParam config ++
       [("grant_type", "refresh_token");
        ("refresh_token", refreshToken)] |}.

(** [refreshOAuthToken(refreshToken, config)] *)
Definition refreshOAuthToken (refreshToken : string) (config : OAuthConfig)
    : M World AuthToken :=
  tryCatch
    (let* response := fetch (refreshRequest refreshToken config) in
     if negb (ok response) then
       throw (ThrownError
         (createUserError ("Failed to refresh token: " +:+ text response)
            {| opt_cause := None; opt_category := Some AUTHENTICATION;
               opt_resolution := Some
                 "Try logging in again. Your session may have expired." |}))
     else
       let* data := (fun w => (json response, w)) in
       let* now := dateNow in
       ret {| accessToken := access_token data;
              Tokens.refreshToken :=
                Some (orElse (refresh_token data) refreshToken);
              expiresAt := nowSeconds now + expiresInOrDefault (expires_in data);
              tokenType := orElse (token_type data) "Bearer";
              scope := orElse (scope_ data) "";
              id := None |})
    (fun error =>
       let* _ := record (EvLogError "Failed to refresh token" error) in
       throw (ThrownError (refreshFailure error))).

End OAuth.

(** ** The exported authentication manager ([auth/index.ts])

    The manager's own state is the local [interface AuthState] record,
    flattened here into [state_*] fields.  The file imports no value called
    [AuthState] (the enum of [auth/types.ts] is imported by [oauth.ts] and
    [manager.ts] only), and an interface leaves nothing behind at run time:
    where the file evaluates [AuthState.AUTHENTICATED] or [AuthState.FAILED]
    in a result it builds, a [ReferenceError] is raised. *)

Module AuthIndex.
Import JsString Errors Eff World Tokens OAuth.

(** [interface AuthConfig] *)
Record AuthConfig : Type := {
  apiKey : option string;
  oauth : option OAuthConfig;
  preferredMethod : option AuthMethod;
  autoRefresh : option bool;
  tokenRefreshThreshold : option Z;
  maxRetryAttempts : option Z
}.

Definition DEFAULT_AUTH_CONFIG : AuthConfig :=
  {| apiKey := None; oauth := None; preferredMethod := Some API_KEY;
     autoRefresh := Some true; tokenRefreshThreshold := Some 300;
     maxRetryAttempts := Some 3 |}.

Definition AUTH_STORAGE_KEY : string := "anthropic-auth".

(** An [AuthManager] instance together with the world it runs in. *)
Record AuthManager : Type := {
  config : AuthConfig;
  tokenStorage : gmap string AuthToken;
  state_initialized : bool;
  state_authenticated : bool;
  state_token : option AuthToken;
  state_method : option AuthMethod;
  state_lastError : option JsError;
  world : World
}.

Definition set_world (w : World) (m : AuthManager) : AuthManager :=
  {| config := config m; tokenStorage := tokenStorage m;
     state_initialized := state_initialized m;
     state_authenticated := state_authenticated m;
     state_token := state_token m; state_method := state_method m;
     state_lastError := state_lastError m; world := w |}.

Definition set_tokenStorage (s : gmap string AuthToken) (m : AuthManager)
    : AuthManager :=
  {| config := config m; tokenStorage := s;
     state_initialized := state_initialized m;
     state_authenticated := state_authenticated m;
     state_token := state_token m; state_method := state_method m;
     state_lastError := state_lastError m; world := world m |}.

Definition set_initialized (b : bool) (m : AuthManager) : AuthManager :=
  {| config := config m; tokenStorage := tokenStorage m;
     state_initialized := b;
     state_authenticated := state_authenticated m;
     state_token := state_token m; state_method := state_method m;
     state_lastError := state_lastError m; world := world m |}.

Definition set_authenticated (b : bool) (m : AuthManager) : AuthManager :=
  {| config := config m; tokenStorage := tokenStorage m;
     state_initialized := state_initialized m;
     state_authenticated := b;
     state_token := state_token m; state_method := state_method m;
     state_lastError := state_lastError m; world := world m |}.

Definition set_token (t : option AuthToken) (m : AuthManager) : AuthManager :=
  {| config := config m; tokenStorage := tokenStorage m;
     state_initialized := state_initialized m;
     state_authenticated := state_authenticated m;
     state_token := t; state_method := state_method m;
     state_lastError := state_lastError m; world := world m |}.

Definition set_method (a : option AuthMethod) (m : AuthManager) : AuthManager :=
  {| config := config m; tokenStorage := tokenStorage m;
     state_initialized := state_initialized m;
     state_authenticated := state_authenticated m;
     state_token := state_token m; state_method := a;
     state_lastError := state_lastError m; world := world m |}.

Definition set_lastError (e : option JsError) (m : AuthManager) : AuthManager :=
  {| config := config m; tokenStorage := tokenStorage m;
     state_initialized := state_initialized m;
     state_authenticated := state_authenticated m;
     state_token := state_token m; state_method := state_method m;
     state_lastError := e; world := world m |}.

(** [new AuthManager(config)] in a world [w]; [config] is the partial
    configuration already merged over [DEFAULT_AUTH_CONFIG]. *)
Definition newAuthManager (c : AuthConfig) (w : World) : AuthManager :=
  {| config := c; tokenStorage := ∅; state_initialized := false;
     state_authenticated := false; state_token := None;
     state_method := None; state_lastError := None; world := w |}.

(** Calls into the outside world made by the manager. *)
Definition io {A} (m : M World A) : M AuthManager A := zoom world set_world m.

Definition storageSave (key : string) (t : AuthToken) : M AuthManager unit :=
  modify (fun m => set_tokenStorage (saveToken key t (tokenStorage m)) m).

Definition storageDelete (key : string) : M AuthManager unit :=
  modify (fun m => set_tokenStorage (deleteToken key (tokenStorage m)) m).

Definition storageGet (key : string) : M AuthManager (option AuthToken) :=
  let* m := get in ret (getToken key (tokenStorage m)).

(** [this.config.oauth || DEFAULT_OAUTH_CONFIG] *)
Definition oauthConfigOf (c : AuthConfig) : OAuthConfig :=
  match oauth c with
  | Some o => o
  | None => DEFAULT_OAUTH_CONFIG
  end.

Definition optTruthy (o : option bool) : bool :=
  match o with
  | Some b => b
  | None => false
  end.

Definition hasRefreshToken (t : AuthToken) : bool :=
  truthyOpt (refreshToken t).

(** [refreshToken()] *)
Definition refreshToken : M AuthManager bool :=
  let* m := get in
  match state_token m with
  | None => ret false
  | Some current =>
      match Tokens.refreshToken current with
      | None => ret false
      | Some rt =>
          if negb (truthy rt) then ret false
          else
            tryCatch
              (let oauthConfig := oauthConfigOf (config m) in
               let* newToken := io (refreshOAuthToken rt oauthConfig) in
               let* _ := modify (set_token (Some newToken)) in
               let* _ := storageSave AUTH_STORAGE_KEY newToken in
               ret true)
              (fun error =>
                 let* _ := modify (set_lastError (Some (toError error))) in
                 let* _ := modify (set_token None) in
                 let* _ := modify (set_authenticated false) in
                 let* _ := storageDelete AUTH_STORAGE_KEY in
                 ret false)
      end
  end.

(** [initialize()] *)
Definition initialize : M AuthManager bool :=
  tryCatch
    (let* stored := storageGet AUTH_STORAGE_KEY in
     let* _ :=
       match stored with
       | Some token =>
           let* valid := io (validateToken token) in
           if valid then
             let* _ := modify (set_token (Some token)) in
             let* _ := modify (set_authenticated true) in
             modify (set_method
               (Some (if hasRefreshToken token then OAUTH else API_KEY)))
           else
             let* m := get in
             if optTruthy (autoRefresh (config m)) && hasRefreshToken token
             then let* _ := refreshToken in ret tt
             else storageDelete AUTH_STORAGE_KEY
       | None => ret tt
       end in
     let* _ := modify (set_initialized true) in
     let* m := get in
     ret (state_authenticated m))
    (fun error =>
       let* _ := modify (set_lastError (Some (toError error))) in
       ret false).

Definition invalidApiKeyError : JsError :=
  createUserError "Invalid API key format"
    {| opt_cause := None; opt_category := Some AUTHENTICATION;
       opt_resolution := Some "Check your API key and try again." |}.

(** The error raised where [auth/index.ts] evaluates the name
    [AuthState]. *)
Definition authStateNotDefined : JsError :=
  MkError "ReferenceError" "AuthState is not defined" None None None.

(** [AuthState.member], evaluated in [auth/index.ts]. *)
Definition authStateMember {S : Type} (member : AuthState) : M S AuthState :=
  throw (ThrownError authStateNotDefined).

(** [authenticateWithApiKey(apiKey)].  Both [return] statements build an
    object whose last property is [state: AuthState.member]; the properties
    before it are evaluated first and have no effect. *)
Definition authenticateWithApiKey (apiKey : string) : M AuthManager AuthResult :=
  tryCatch
    (if negb (truthy apiKey) || (len (trim apiKey) <? 10) then
       throw (ThrownError invalidApiKeyError)
     else
       let token :=
         {| accessToken := Some apiKey; Tokens.refreshToken := None;
            expiresAt := 0; tokenType := "Bearer";
            scope := "anthropic.api"; id := None |} in
       let* _ := storageSave AUTH_STORAGE_KEY token in
       let* _ := modify (set_token (Some token)) in
       let* _ := modify (set_authenticated true) in
       let* _ := modify (set_method (Some API_KEY)) in
       let* authenticated := authStateMember AUTHENTICATED in
       ret {| success := true; token := Some token; method := Some API_KEY;
              state := authenticated; error := None |})
    (fun error =>
       let* _ := modify (set_lastError (Some (toError error))) in
       let* _ := modify (set_authenticated false) in
       let* _ := modify (set_token None) in
       let* failed := authStateMember FAILED in
       ret {| success := false; error := Some (errorMessage error);
              method := Some API_KEY; state := failed; token := None |}).

(** [authenticateWithOAuth(config?)] *)
Definition authenticateWithOAuth (c : option OAuthConfig)
    : M AuthManager AuthResult :=
  tryCatch
    (let* m := get in
     let oauthConfig :=
       match c with
       | Some o => o
       | None => oauthConfigOf (config m)
       end in
     let* result := io (performOAuthFlow oauthConfig) in
     let* _ :=
       match success result, token result with
       | true, Some t =>
           let* _ := storageSave AUTH_STORAGE_KEY t in
           let* _ := modify (set_token (Some t)) in
           let* _ := modify (set_authenticated true) in
           modify (set_method (Some OAUTH))
       | _, _ =>
           match error result with
           | Some e =>
               if truthy e then modify (set_lastError (Some (newError e)))
               else ret tt
           | None => ret tt
           end
       end in
     ret result)
    (fun error =>
       let* _ := modify (set_lastError (Some (toError error))) in
       let* _ := modify (set_authenticated false) in
       let* _ := modify (set_token None) in
       let* failed := authStateMember FAILED in
       ret {| success := false; error := Some (errorMessage error);
              method := Some OAUTH; state := failed; token := None |}).

(** [logout()] *)
Definition logout : M AuthManager unit :=
  let* _ := modify (set_token None) in
  let* _ := modify (set_authenticated false) in
  let* _ := modify (set_method None) in
  storageDelete AUTH_STORAGE_KEY.

(** [getToken()] *)
Definition getToken (m : AuthManager) : option AuthToken := state_token m.

(** [getAuthorizationHeader()] *)
Definition getAuthorizationHeader (m : AuthManager) : option string :=
  match state_token m with
  | None => None
  | Some t => Some (createAuthorizationHeader t)
  end.

(** [isAuthenticated()] *)
Definition isAuthenticated (m : AuthManager) : bool :=
  state_authenticated m && bool_decide (is_Some (state_token m)).

(** [getTokenDetails()] *)
Definition getTokenDetails (toLocaleString : Z -> string)
    : M AuthManager (option (gmap string string)) :=
  let* m := get in
  match state_token m with
  | None => ret None
  | Some t =>
      let* d := io (Tokens.getTokenDetails toLocaleString t) in
      ret (Some d)
  end.



End AuthIndex.

(** ** The event-emitting authentication manager ([auth/manager.ts]) *)

Module Manager.
Import JsString Errors Eff World Tokens OAuth.

Definition STATE_CHANGED : string := "auth:state_changed".
Definition LOGGED_IN : string := "auth:logged_in".
Definition LOGGED_OUT : string := "auth:logged_out".
Definition TOKEN_REFRESHED : string := "auth:token_refreshed".
Definition ERROR : string := "auth:error".

(** [Number.MAX_SAFE_INTEGER] *)
Definition MAX_SAFE_INTEGER : Z := 2 ^ 53 - 1.

(** The [config] field the constructor extracts. *)
Record Config : Type := {
  apiKey : option string;
  oauth : OAuthConfig;
  preferredMethod : option AuthMethod;
  autoRefresh : bool;
  tokenRefreshThreshold : Z;
  maxRetryAttempts : Z
}.

(** The loosely typed constructor argument. *)
Record RawConfig : Type := {
  raw_api_key : option string;
  raw_oauth : option OAuthConfig;
  raw_preferredMethod : option AuthMethod;
  raw_autoRefresh : option bool;
  raw_tokenRefreshThreshold : option Z;
  raw_maxRetryAttempts : option Z
}.

(** [n || d] on numbers *)
Definition numberOr (o : option Z) (d : Z) : Z :=
  match o with
  | Some n => if n =? 0 then d else n
  | None => d
  end.

Definition extractConfig (c : RawConfig) : Config :=
  {| apiKey := raw_api_key c;
     oauth := match raw_oauth c with Some o => o | None => DEFAULT_OAUTH_CONFIG end;
     preferredMethod := raw_preferredMethod c;
     autoRefresh := match raw_autoRefresh c with Some false => false | _ => true end;
     tokenRefreshThreshold := numberOr (raw_tokenRefreshThreshold c) 300;
     maxRetryAttempts := numberOr (raw_maxRetryAttempts c) 3 |}.

(** An [AuthManager] instance together with the world it runs in.  No
    listener is registered on the emitter: [emit] only leaves its mark in
    the log. *)
Record AuthManager : Type := {
  state : AuthState;
  tokenStorage : gmap string AuthToken;
  currentToken : option AuthToken;
  refreshTimer : option nat;
  config : Config;
  world : World
}.

Definition tokenKey : string := "default".

Definition set_state (s : AuthState) (m : AuthManager) : AuthManager :=
  {| state := s; tokenStorage := tokenStorage m;
     currentToken := currentToken m; refreshTimer := refreshTimer m;
     config := config m; world := world m |}.

Definition set_tokenStorage (s : gmap string AuthToken) (m : AuthManager)
    : AuthManager :=
  {| state := state m; tokenStorage := s;
     currentToken := currentToken m; refreshTimer := refreshTimer m;
     config := config m; world := world m |}.

Definition set_currentToken (t : option AuthToken) (m : AuthManager)
    : AuthManager :=
  {| state := state m; tokenStorage := tokenStorage m;
     currentToken := t; refreshTimer := refreshTimer m;
     config := config m; world := world m |}.

Definition set_refreshTimer (t : option nat) (m : AuthManager) : AuthManager :=
  {| state := state m; tokenStorage := tokenStorage m;
     currentToken := currentToken m; refreshTimer := t;
     config := config m; world := world m |}.

Definition set_world (w : World) (m : AuthManager) : AuthManager :=
  {| state := state m; tokenStorage := tokenStorage m;
     currentToken := currentToken m; refreshTimer := refreshTimer m;
     config := config m; world := w |}.

(** [new AuthManager(config)] in a world [w]. *)
Definition newAuthManager (c : RawConfig) (w : World) : AuthManager :=
  {| state := INITIAL; tokenStorage := ∅; currentToken := None;
     refreshTimer := None; config := extractConfig c; world := w |}.

Definition io {A} (m : M World A) : M AuthManager A := zoom world set_world m.

(** [this.emit(event, ...)] *)
Definition emit (event : string) : M AuthManager unit :=
  io (record (EvEmit event)).

(** [setState(newState)] *)
Definition setState (newState : AuthState) : M AuthManager unit :=
  let* m := get in
  if bool_decide (state m = newState) then ret tt
  else
    let* _ := modify (set_state newState) in
    emit STATE_CHANGED.

Definition hasRefreshToken (t : AuthToken) : bool :=
  truthyOpt (refreshToken t).

(** The timer-clearing prologue shared by [scheduleTokenRefresh] and
    [logout]. *)
Definition clearRefreshTimer : M AuthManager unit :=
  let* m := get in
  match refreshTimer m with
  | Some timer =>
      let* _ := io (clearTimeout timer) in
      modify (set_refreshTimer None)
  | None => ret tt
  end.

(** [scheduleTokenRefresh()] *)
Definition scheduleTokenRefresh : M AuthManager unit :=
  let* _ := clearRefreshTimer in
  let* m := get in
  match currentToken m with
  | None => ret tt
  | Some t =>
      if negb (hasRefreshToken t) then ret tt
      else
        let* nowMs := io dateNow in
        let now := nowSeconds nowMs in
        let expiresIn := expiresAt t - now in
        let refreshIn :=
          Z.max 0 (expiresIn - tokenRefreshThreshold (config m)) in
        let* timer := io (setTimeout (refreshIn * 1000)) in
        modify (set_refreshTimer (Some timer))
  end.

(** [refreshToken()] *)
Definition refreshToken : M AuthManager unit :=
  let* m := get in
  match currentToken m with
  | None => throw (ThrownError (newError "No refresh token available"))
  | Some current =>
      match Tokens.refreshToken current with
      | None => throw (ThrownError (newError "No refresh token available"))
      | Some rt =>
          if negb (truthy rt)
          then throw (ThrownError (newError "No refresh token available"))
          else
            let* _ := setState REFRESHING in
            tryCatch
              (let* newToken := io (refreshOAuthToken rt (oauth (config m))) in
               let* _ := modify (set_currentToken (Some newToken)) in
               let* _ := modify (fun m =>
                 set_tokenStorage (saveToken tokenKey newToken (tokenStorage m)) m) in
               let* _ := setState AUTHENTICATED in
               let* _ := emit TOKEN_REFRESHED in
               when (autoRefresh (config m)) scheduleTokenRefresh)
              (fun error =>
                 let* _ := setState FAILED in
                 let* _ := emit ERROR in
                 throw error)
      end
  end.

(** The callback armed by [scheduleTokenRefresh]:
    [this.refreshToken().catch(error => logger.error(...))]. *)
Definition onRefreshTimer : M AuthManager unit :=
  tryCatch refreshToken
    (fun error => io (record (EvLogError "Scheduled token refresh failed" error))).

(** [initialize()] *)
Definition initialize : M AuthManager unit :=
  tryCatch
    (let* m := get in
     let* _ := modify (set_currentToken (getToken tokenKey (tokenStorage m))) in
     match getToken tokenKey (tokenStorage m) with
     | Some t =>
         let* expired :=
           io (isTokenExpired t (tokenRefreshThreshold (config m))) in
         if expired then
           if hasRefreshToken t then
             tryCatch refreshToken
               (fun error =>
                  let* _ := modify (set_currentToken None) in
                  setState INITIAL)
           else
             let* _ := modify (set_currentToken None) in
             setState INITIAL
         else
           let* _ := setState AUTHENTICATED in
           when (autoRefresh (config m)) scheduleTokenRefresh
     | None => setState INITIAL
     end)
    (fun error =>
       let* _ := setState FAILED in
       emit ERROR).

(** [isAuthenticated()] *)
Definition isAuthenticated (m : AuthManager) : bool :=
  bool_decide (state m = AUTHENTICATED) &&
  match currentToken m with Some _ => true | None => false end.

(** [getAuthorizationHeader()] *)
Definition getAuthorizationHeader (m : AuthManager) : option string :=
  match currentToken m with
  | None => None
  | Some t => Some (tokenType t +:+ " " +:+ interpolate (accessToken t))
  end.

(** [authenticateWithApiKey()] *)
Definition authenticateWithApiKey : M AuthManager AuthResult :=
  let* m := get in
  if negb (truthyOpt (apiKey (config m))) then
    ret {| success := false; error := Some "No API key available";
           Tokens.state := FAILED; method := None; token := None |}
  else
    let token :=
      {| accessToken := apiKey (config m); Tokens.refreshToken := None;
         expiresAt := MAX_SAFE_INTEGER; tokenType := "Bearer";
         scope := "all"; id := None |} in
    ret {| success := true; method := Some API_KEY; token := Some token;
           Tokens.state := AUTHENTICATED; error := None |}.

(** [authenticateWithOAuth()] *)
Definition authenticateWithOAuth : M AuthManager AuthResult :=
  let* m := get in
  io (performOAuthFlow (oauth (config m))).

Definition resolveMethod (requested : option AuthMethod) (c : Config)
    : AuthMethod :=
  match requested, preferredMethod c with
  | Some a, _ => a
  | None, Some a => a
  | None, None => if truthyOpt (apiKey c) then API_KEY else OAUTH
  end.

(** [authenticate(method?)] *)
Definition authenticate (requested : option AuthMethod)
    : M AuthManager AuthResult :=
  let* m := get in
  let authMethod := resolveMethod requested (config m) in
  let* _ := setState AUTHENTICATING in
  tryCatch
    (let* result :=
       match authMethod with
       | API_KEY => authenticateWithApiKey
       | OAUTH => authenticateWithOAuth
       end in
     let* _ :=
       match success result, token result with
       | true, Some t =>
           let* _ := modify (set_currentToken (Some t)) in
           let* _ := modify (fun m =>
             set_tokenStorage (saveToken tokenKey t (tokenStorage m)) m) in
           let* _ := setState AUTHENTICATED in
           let* _ := emit LOGGED_IN in
           when (autoRefresh (config m) && hasRefreshToken t)
             scheduleTokenRefresh
       | _, _ =>
           let* _ := setState FAILED in
           emit ERROR
       end in
     ret result)
    (fun error =>
       let* _ := setState FAILED in
       let* _ := emit ERROR in
       ret {| success := false; error := Some (errorMessage error);
              Tokens.state := FAILED; method := None; token := None |}).

(** [logout()] *)
Definition logout : M AuthManager unit :=
  let* _ := clearRefreshTimer in
  let* _ := modify (fun m =>
    set_tokenStorage (deleteToken tokenKey (tokenStorage m)) m) in
  let* _ := modify (set_currentToken None) in
  let* _ := setState INITIAL in
  emit LOGGED_OUT.

End Manager.

(** ** Retry with backoff ([withRetry] of [utils/async.ts]) *)

Module Retry.
Import Errors Eff.

(** What a wrapped call does, in order. *)
Inductive RetryEvent : Type :=
| EvCall
| EvSleep (ms : Q)
| EvOnRetry (e : JsError) (attempt : Z).

(** The resolved [RetryOptions], with an integer [maxRetries].  Delays are
    in milliseconds; they may be fractional once jittered, so they are
    rationals.  [onRetry] returns what the callback throws, if anything.
    [isRetryable] is a predicate that returns; [RetryPredicate] below has
    one that may throw. *)
Record RetryOptions : Type := {
  maxRetries : Z;
  initialDelayMs : Q;
  maxDelayMs : Q;
  backoff : bool;
  isRetryable : option (JsError -> bool);
  onRetry : option (JsError -> Z -> option Thrown)
}.

(** [Partial<RetryOptions>], the argument of [withRetry]. *)
Record PartialRetryOptions : Type := {
  p_maxRetries : option Z;
  p_initialDelayMs : option Q;
  p_maxDelayMs : option Q;
  p_backoff : option bool;
  p_isRetryable : option (JsError -> bool);
  p_onRetry : option (JsError -> Z -> option Thrown)
}.

(** The defaulting at the top of [withRetry] ([??] per field). *)
Definition resolveOptions (o : PartialRetryOptions) : RetryOptions :=
  {| maxRetries := default 3 (p_maxRetries o);
     initialDelayMs := default (1000 # 1) (p_initialDelayMs o);
     maxDelayMs := default (10000 # 1) (p_maxDelayMs o);
     backoff := default true (p_backoff o);
     isRetryable := p_isRetryable o;
     onRetry := p_onRetry o |}.

Section Wrapped.
(** The result type of the wrapped operation. *)
Variable R : Type.

(** The world of one wrapped call.  The operation [fn(...args)] is known
    by what its successive invocations complete with: [script k] is the
    completion of invocation number [k] (counting from 0).
    [randoms k] is the [k]-th value of [Math.random()], in [0, 1). *)
Record RetryWorld : Type := {
  script : nat -> Outcome R;
  invocations : nat;
  randoms : nat -> Q;
  randomReads : nat;
  log : list RetryEvent
}.

Definition logEvent (e : RetryEvent) : M RetryWorld unit :=
  modify (fun w =>
    {| script := script w; invocations := invocations w;
       randoms := randoms w; randomReads := randomReads w;
       log := log w ++ [e] |}).

(** [await fn(...args)] *)
Definition callFn : M RetryWorld R :=
  fun w =>
    (script w (invocations w),
     {| script := script w; invocations := S (invocations w);
        randoms := randoms w; randomReads := randomReads w;
        log := log w ++ [EvCall] |}).

(** [Math.random()] *)
Definition mathRandom : M RetryWorld Q :=
  fun w =>
    (Returns (randoms w (randomReads w)),
     {| script := script w; invocations := invocations w;
        randoms := randoms w; randomReads := S (randomReads w);
        log := log w |}).

(** [await delay(ms)] *)
Definition delay (ms : Q) : M RetryWorld unit := logEvent (EvSleep ms).

(** [calculateRetryDelay(attempt, options)].  The arithmetic is that of
    the rationals: the rounding of JavaScript's doubles is left out, and
    nothing below depends on the value of a jittered delay.
    [Math.pow(2, attempt - 1)] is [Qpower], a fraction for [attempt <= 0]. *)
Definition calculateRetryDelay (attempt : Z) (options : RetryOptions)
    : M RetryWorld Q :=
  if negb (backoff options) then ret (initialDelayMs options)
  else
    let exponentialDelay :=
      (initialDelayMs options * (2 # 1) ^ (attempt - 1))%Q in
    let jitter := ((1 # 10) * exponentialDelay)%Q in
    let* r := mathRandom in
    let jitteredDelay :=
      (exponentialDelay - jitter + (r * jitter * (2 # 1)))%Q in
    ret (Qmin jitteredDelay (maxDelayMs options)).

(** The [try] block of one iteration of the loop. *)
Definition attemptBody (retryOptions : RetryOptions) (attempt : Z)
    (lastError : JsError) : M RetryWorld R :=
  if attempt =? 0 then callFn
  else
    let* delayMs := calculateRetryDelay attempt retryOptions in
    let* _ := delay delayMs in
    let* _ :=
      match onRetry retryOptions with
      | Some cb =>
          let* _ := logEvent (EvOnRetry lastError attempt) in
          match cb lastError attempt with
          | Some t => throw t
          | None => ret tt
          end
      | None => ret tt
      end in
    callFn.

(** The loop [for (attempt = 0; attempt <= maxRetries; attempt++)], with
    [remaining] iterations still to run from [attempt] on; when the loop
    is left without a [return] or [throw], [lastError] is thrown. *)
Fixpoint retryLoop (retryOptions : RetryOptions) (remaining : nat)
    (attempt : Z) (lastError : JsError) : M RetryWorld R :=
  match remaining with
  | O => throw (ThrownError lastError)
  | S remaining' =>
      fun w =>
        match attemptBody retryOptions attempt lastError w with
        | (Returns r, w') => (Returns r, w')
        | (Throws error, w') =>
            let lastError := toError error in
            if maxRetries retryOptions <=? attempt then
              (Throws (ThrownError lastError), w')
            else
              match isRetryable retryOptions with
              | Some p =>
                  if negb (p lastError) then
                    (Throws (ThrownError lastError), w')
                  else
                    retryLoop retryOptions remaining' (attempt + 1)
                      lastError w'
              | None =>
                  retryLoop retryOptions remaining' (attempt + 1)
                    lastError w'
              end
        end
  end.

(** The function [withRetry(fn, options)] returns, applied to [args]. *)
Definition withRetry (options : PartialRetryOptions) : M RetryWorld R :=
  let retryOptions := resolveOptions options in
  retryLoop retryOptions (Z.to_nat (maxRetries retryOptions + 1)) 0
    (newError "Unknown error").

(** The log with the sleeping times left out. *)
Inductive Step : Type :=
| Call
| Sleep
| OnRetry (e : JsError) (attempt : Z).

Definition stepOf (e : RetryEvent) : Step :=
  match e with
  | EvCall => Call
  | EvSleep _ => Sleep
  | EvOnRetry e a => OnRetry e a
  end.

Definition isOnRetry (s : Step) : bool :=
  match s with
  | OnRetry _ _ => true
  | _ => false
  end.

(** The retry that follows failure number [k] (counting from 0): the
    sleep, the callback with that failure and the attempt number, and the
    call. *)
Definition retrySteps (errs : nat -> JsError) (k : nat) : list Step :=
  [Sleep; OnRetry (errs k) (Z.of_nat k + 1); Call].

(** A wrapped call that is retried [n] times: the first call, then the
    [n] retries. *)
Definition retriedSteps (errs : nat -> JsError) (n : nat) : list Step :=
  Call :: flat_map (retrySteps errs) (seq 0 n).

(** The order the specification words ask for: every [onRetry] comes
    before the sleep of its retry, that is, among sleeps and callbacks
    the log alternates callback, sleep, callback, sleep, ... *)
Fixpoint onRetryBeforeSleep (l : list Step) : bool :=
  match l with
  | [] => true
  | Call :: l' => onRetryBeforeSleep l'
  | OnRetry _ _ :: l' =>
      (fix expectSleep (l : list Step) : bool :=
         match l with
         | [] => false
         | Call :: l' => expectSleep l'
         | Sleep :: l' => onRetryBeforeSleep l'
         | OnRetry _ _ :: _ => false
         end) l'
  | Sleep :: _ => false
  end.

(** An operation that fails exactly [n] times, with [errs 0], ...,
    [errs (n-1)], and then succeeds with [v], seen from world [w]. *)
Definition failsThenSucceeds (w : RetryWorld) (n : nat)
    (errs : nat -> JsError) (v : R) : Prop :=
  (forall k, (k < n)%nat ->
     script w (invocations w + k) = Throws (ThrownError (errs k))) /\
  script w (invocations w + n) = Returns v.

(** For such an operation: the index of its last invocation under
    [options], and what the wrapped call completes with. *)
Definition lastCall (options : RetryOptions) (n : nat) : nat :=
  Nat.min n (Z.to_nat (maxRetries options)).

Definition expected (options : RetryOptions) (errs : nat -> JsError)
    (v : R) (n : nat) : Outcome R :=
  if Z.of_nat n <=? maxRetries options then Returns v
  else Throws (ThrownError (errs (Z.to_nat (maxRetries options)))).

End Wrapped.

Arguments script {R} _ _.
Arguments invocations {R} _.
Arguments randoms {R} _ _.
Arguments randomReads {R} _.
Arguments log {R} _.
Arguments withRetry {R} _ _.
Arguments retryLoop {R} _ _ _ _ _.
Arguments attemptBody {R} _ _ _ _.
Arguments failsThenSucceeds {R} _ _ _ _.
Arguments expected {R} _ _ _ _.
Arguments callFn {R} _.

End Retry.

(** ** Bounded-concurrency mapping ([withConcurrency] of [utils/async.ts])

    JavaScript runs the workers on one thread: a worker runs without
    interruption from one [await] to the next.  The only freedom is the order
    in which the pending [fn(items[index], index)] promises settle; a
    schedule fixes that order. *)

Module Concurrency.
Import Errors.

Section Mapper.
Variables T R : Type.

(** [fn(item, index)], known by what its promise settles with. *)
Variable fn : T -> nat -> Outcome R.

(** A worker is suspended at [await fn(items[index], index)], or its
    [async] function has returned, or it has thrown. *)
Inductive Worker : Type :=
| Waiting (index : nat)
| Finished
| Rejected (t : Thrown).

(** The variables the workers share, the workers themselves, and the
    first rejection [Promise.all] has seen. *)
Record Pool : Type := {
  results : list (option R);
  currentIndex : nat;
  workers : list Worker;
  rejection : option Thrown
}.

(** A worker at the head of its [while] loop: it claims the next index
    and suspends on the call, or leaves the loop. *)
Definition loopHead (items : list T) (p : Pool) : Worker * Pool :=
  if (currentIndex p <? length items)%nat then
    (Waiting (currentIndex p),
     {| results := results p; currentIndex := S (currentIndex p);
        workers := workers p; rejection := rejection p |})
  else (Finished, p).

(** [Array.from({ length }, async (_, workerId) => ...)]: the workers
    start one after the other, each running to its first [await]. *)
Fixpoint spawn (items : list T) (count : nat) (p : Pool) : Pool :=
  match count with
  | O => p
  | S count' =>
      let '(w, p') := loopHead items p in
      spawn items count'
        {| results := results p'; currentIndex := currentIndex p';
           workers := workers p' ++ [w]; rejection := rejection p' |}
  end.

(** The pending call of worker [wid] settles: on success the worker
    stores the value in its slot and is back at the head of the loop; on
    failure it rethrows, and [Promise.all] rejects with the first such
    error. *)
Definition settle (items : list T) (wid : nat) (p : Pool) : Pool :=
  match workers p !! wid with
  | Some (Waiting index) =>
      match items !! index with
      | Some item =>
          match fn item index with
          | Returns r =>
              let '(w, p') :=
                loopHead items
                  {| results := <[index := Some r]> (results p);
                     currentIndex := currentIndex p;
                     workers := workers p; rejection := rejection p |} in
              {| results := results p'; currentIndex := currentIndex p';
                 workers := <[wid := w]> (workers p');
                 rejection := rejection p' |}
          | Throws t =>
              {| results := results p; currentIndex := currentIndex p;
                 workers := <[wid := Rejected t]> (workers p);
                 rejection :=
                   match rejection p with
                   | Some first => Some first
                   | None => Some t
                   end |}
          end
      | None => p
      end
  | _ => p
  end.

(** The workers with a pending call, by worker id. *)
Fixpoint waitingFrom (wid : nat) (ws : list Worker) : list nat :=
  match ws with
  | [] => []
  | Waiting _ :: rest => wid :: waitingFrom (S wid) rest
  | _ :: rest => waitingFrom (S wid) rest
  end.

Definition waitingIds (p : Pool) : list nat := waitingFrom 0 (workers p).

(** A schedule is a list of choices; choice [c] settles the pending call
    of the [(c mod n)]-th of the [n] workers waiting at that moment. *)
Fixpoint run (items : list T) (schedule : list nat) (p : Pool) : Pool :=
  match schedule with
  | [] => p
  | c :: schedule' =>
      match waitingIds p with
      | [] => p
      | first :: others =>
          let ids := first :: others in
          let wid := nth (c mod length ids) ids first in
          run items schedule' (settle items wid p)
      end
  end.

(** The call that worker [wid] is waiting for: its index and what it
    settles with. *)
Definition pendingCall (items : list T) (wid : nat) (p : Pool)
    : option (nat * Outcome R) :=
  match workers p !! wid with
  | Some (Waiting index) =>
      match items !! index with
      | Some item => Some (index, fn item index)
      | None => None
      end
  | _ => None
  end.

(** The calls that settle under a schedule, in the order in which they
    settle (the order in which [run] lets them settle). *)
Fixpoint settlements (items : list T) (schedule : list nat) (p : Pool)
    : list (nat * Outcome R) :=
  match schedule with
  | [] => []
  | c :: schedule' =>
      match waitingIds p with
      | [] => []
      | first :: others =>
          let ids := first :: others in
          let wid := nth (c mod length ids) ids first in
          match pendingCall items wid p with
          | Some call => call :: settlements items schedule' (settle items wid p)
          | None => settlements items schedule' (settle items wid p)
          end
      end
  end.

(** The error of the first call to fail, in a list of settled calls. *)
Fixpoint firstFailure (calls : list (nat * Outcome R)) : option Thrown :=
  match calls with
  | [] => None
  | (_, Throws t) :: _ => Some t
  | (_, Returns _) :: rest => firstFailure rest
  end.

Definition isFinished (w : Worker) : bool :=
  match w with
  | Finished => true
  | _ => false
  end.

(** [await Promise.all(workers); return results]: settled with the first
    rejection, or with [results] once every worker has returned;
    [None] while it is pending. *)
Definition allSettled (p : Pool) : option (Outcome (list (option R))) :=
  match rejection p with
  | Some t => Some (Throws t)
  | None =>
      if forallb isFinished (workers p) then Some (Returns (results p))
      else None
  end.

(** The pool before any worker has started. *)
Definition start (items : list T) : Pool :=
  {| results := replicate (length items) None; currentIndex := 0;
     workers := []; rejection := None |}.

(** [Array.from({ length: n })] makes no element for [n <= 0]. *)
Definition workerCount (items : list T) (concurrency : Z) : nat :=
  Z.to_nat (Z.min concurrency (Z.of_nat (length items))).

(** [withConcurrency(items, fn, concurrency)] under a schedule.  An empty
    slot of the returned array is [None]. *)
Definition withConcurrency (items : list T) (concurrency : Z)
    (schedule : list nat) : option (Outcome (list (option R))) :=
  match items with
  | [] => Some (Returns [])
  | _ =>
      allSettled
        (run items schedule
           (spawn items (workerCount items concurrency) (start items)))
  end.

Definition isWaiting (w : Worker) : bool :=
  match w with
  | Waiting _ => true
  | _ => false
  end.

(** What holds of a pool as long as no call has failed: every claimed
    index is either settled, with its item's value in its slot, or
    pending at some worker. *)
Record Inv (items : list T) (p : Pool) : Prop := {
  inv_results : length (results p) = length items;
  inv_index : (currentIndex p <= length items)%nat;
  inv_waiting : forall wid i,
    workers p !! wid = Some (Waiting i) -> (i < currentIndex p)%nat;
  inv_claimed : forall i, (i < currentIndex p)%nat ->
    (exists x r, items !! i = Some x /\ fn x i = Returns r /\
                 results p !! i = Some (Some r)) \/
    (exists wid, workers p !! wid = Some (Waiting i));
  inv_finished : forall wid,
    workers p !! wid = Some Finished -> currentIndex p = length items;
  inv_rejected : forall wid t, workers p !! wid <> Some (Rejected t)
}.

(** Calls still to settle: unclaimed items and pending calls. *)
Definition todo (items : list T) (p : Pool) : nat :=
  (length items - currentIndex p + length (waitingIds p))%nat.

(** An error that the call for some item fails with. *)
Definition itemError (items : list T) (t : Thrown) : Prop :=
  exists j y, items !! j = Some y /\ fn y j = Throws t.

End Mapper.

Arguments results {R}%_type p.
Arguments currentIndex {R}%_type p.
Arguments workers {R}%_type p.
Arguments rejection {R}%_type p.
Arguments loopHead {T R}%_type items p.
Arguments spawn {T R}%_type items count p.
Arguments settle {T R}%_type fn items wid p.
Arguments waitingIds {R}%_type p.
Arguments run {T R}%_type fn items schedule p.
Arguments pendingCall {T R}%_type fn items wid p.
Arguments settlements {T R}%_type fn items schedule p.
Arguments firstFailure {R}%_type calls.
Arguments allSettled {R}%_type p.
Arguments workerCount {T}%_type items concurrency.
Arguments start {T R}%_type items.
Arguments Inv {T R}%_type fn items p.
Arguments inv_results {T R}%_type {fn items} p _.
Arguments inv_index {T R}%_type {fn items} p _.
Arguments inv_waiting {T R}%_type {fn items} p _ wid i _.
Arguments inv_claimed {T R}%_type {fn items} p _ i _.
Arguments inv_finished {T R}%_type {fn items} p _ wid _.
Arguments inv_rejected {T R}%_type {fn items} p _ wid t _.
Arguments todo {T R}%_type items p.
Arguments itemError {T R}%_type fn items t.
Arguments withConcurrency {T R}%_type fn items concurrency schedule.

End Concurrency.

(** ** Concrete worlds, managers and operations used in the examples *)

Module Samples.
Import JsString Errors Eff World Tokens OAuth.

Definition tokenJson : TokenResponse :=
  {| access_token := Some "at-1"; refresh_token := None;
     expires_in := None; token_type := None; scope_ := None |}.

Definition tokenReply : HttpResponse :=
  {| ok := true; text := ""; json := Returns tokenJson |}.

(** A cooperative world: the browser opens and the token endpoint answers
    200 with an access token and no refresh token. *)
Definition sampleWorld : World :=
  {| randomDraws := fun k => k; drawn := 0;
     clock := fun _ => 1700000000000; clockReads := 0;
     validUrl := fun _ => true;
     browser := fun _ => None;
     respond := fun _ _ => Returns tokenReply;
     nextTimer := 5; trace := [] |}.

(** A token endpoint that answers every request with HTTP 400
    [invalid_grant]. *)
Definition invalidGrantWorld : World :=
  {| randomDraws := fun k => k; drawn := 0;
     clock := fun _ => 1700000000000; clockReads := 0;
     validUrl := fun _ => true;
     browser := fun _ => None;
     respond := fun _ _ =>
       Returns {| ok := false; text := "invalid_grant";
                  json := Throws (ThrownError
                    (MkError "SyntaxError" "Unexpected token" None None None)) |};
     nextTimer := 1; trace := [] |}.

Definition staleToken : AuthToken :=
  {| accessToken := Some "stale-access-token";
     refreshToken := Some "revoked-refresh-token";
     expiresAt := 1700000100; tokenType := "Bearer";
     scope := "anthropic.claude"; id := None |}.

Definition freshToken : AuthToken :=
  {| accessToken := Some "at-1"; refreshToken := Some "rt-1";
     expiresAt := 1700003600; tokenType := "Bearer";
     scope := ""; id := None |}.

Definition shortToken : AuthToken :=
  {| accessToken := Some "abc"; refreshToken := None; expiresAt := 0;
     tokenType := "Bearer"; scope := ""; id := None |}.

Definition apiKeyToken : AuthToken :=
  {| accessToken := Some "sk-ant-api03-0123456789"; refreshToken := None;
     expiresAt := 0; tokenType := "Bearer"; scope := "anthropic.api";
     id := None |}.

Definition noRawConfig : Manager.RawConfig :=
  {| Manager.raw_api_key := None; Manager.raw_oauth := None;
     Manager.raw_preferredMethod := None;
     Manager.raw_autoRefresh := None;
     Manager.raw_tokenRefreshThreshold := None;
     Manager.raw_maxRetryAttempts := None |}.

(** A [manager.ts] manager holding an OAuth credential whose refresh token
    the server no longer accepts; its refresh timer is armed. *)
Definition staleManager : Manager.AuthManager :=
  {| Manager.state := AUTHENTICATED;
     Manager.tokenStorage := {[ Manager.tokenKey := staleToken ]};
     Manager.currentToken := Some staleToken;
     Manager.refreshTimer := Some 0%nat;
     Manager.config := Manager.extractConfig noRawConfig;
     Manager.world := invalidGrantWorld |}.

(** A [manager.ts] manager holding a credential that expires in an hour,
    with timer 4 armed. *)
Definition freshManager : Manager.AuthManager :=
  {| Manager.state := AUTHENTICATED;
     Manager.tokenStorage := {[ Manager.tokenKey := freshToken ]};
     Manager.currentToken := Some freshToken;
     Manager.refreshTimer := Some 4%nat;
     Manager.config := Manager.extractConfig noRawConfig;
     Manager.world := sampleWorld |}.


Definition boom : JsError := newError "boom".

(** Default retry options with an [onRetry] callback that never throws. *)
Definition quietOptions : Retry.PartialRetryOptions :=
  {| Retry.p_maxRetries := None; Retry.p_initialDelayMs := None;
     Retry.p_maxDelayMs := None; Retry.p_backoff := None;
     Retry.p_isRetryable := None;
     Retry.p_onRetry := Some (fun _ _ => None) |}.

(** The same, with an [isRetryable] that accepts no error. *)
Definition rejectingOptions : Retry.PartialRetryOptions :=
  {| Retry.p_maxRetries := None; Retry.p_initialDelayMs := None;
     Retry.p_maxDelayMs := None; Retry.p_backoff := None;
     Retry.p_isRetryable := Some (fun _ => false);
     Retry.p_onRetry := Some (fun _ _ => None) |}.

(** The same as [quietOptions], with [maxRetries = -1]. *)
Definition negativeOptions : Retry.PartialRetryOptions :=
  {| Retry.p_maxRetries := Some (-1); Retry.p_initialDelayMs := None;
     Retry.p_maxDelayMs := None; Retry.p_backoff := None;
     Retry.p_isRetryable := None;
     Retry.p_onRetry := Some (fun _ _ => None) |}.

(** An operation that returns 7 after failing [n] times with [boom]. *)
Definition flaky (n : nat) : Retry.RetryWorld Z :=
  {| Retry.script := fun k =>
       if (k <? n)%nat then Throws (ThrownError boom) else Returns 7;
     Retry.invocations := 0; Retry.randoms := fun _ => (1 # 2)%Q;
     Retry.randomReads := 0; Retry.log := [] |}.

(** A per-item function that multiplies by ten and never fails. *)
Definition timesTen (x : Z) (index : nat) : Outcome Z := Returns (x * 10).

(** A per-item function that fails for every item, with an error that
    tells the index. *)
Definition failsAtIndex (x : Z) (index : nat) : Outcome Z :=
  Throws (ThrownError (newError ("item " +:+ pretty (Z.of_nat index)))).

End Samples.

(** ** Further parts of the same files

    [checkAndRefreshToken] of [auth/index.ts], [runSequentially] of
    [utils/async.ts], and the vocabulary of the properties about the
    functions embedded above. *)

(** *** Strings over an alphabet *)

Module Alphabet.
Import JsString Errors Eff World Tokens OAuth.

(** [c] occurs in [s]. *)
Fixpoint hasChar (c : ascii) (s : string) : bool :=
  match s with
  | EmptyString => false
  | String d s' => Ascii.eqb c d || hasChar c s'
  end.

(** Every character of [s] occurs in [alphabet]. *)
Fixpoint allFrom (alphabet s : string) : bool :=
  match s with
  | EmptyString => true
  | String c s' => hasChar c alphabet && allFrom alphabet s'
  end.
End Alphabet.

(** *** [checkAndRefreshToken] ([auth/index.ts]) *)

Module AuthIndexRefresh.
Import JsString Errors Eff World Tokens OAuth AuthIndex.

(** [this.config.tokenRefreshThreshold || 300] *)
Definition thresholdOr300 (c : AuthConfig) : Z :=
  match tokenRefreshThreshold c with
  | Some n => if n =? 0 then 300 else n
  | None => 300
  end.

Definition isOAuthMethod (a : option AuthMethod) : bool :=
  match a with
  | Some OAUTH => true
  | _ => false
  end.

(** [checkAndRefreshToken()] of [auth/index.ts] *)
Definition checkAndRefreshToken : M AuthManager bool :=
  let* m := get in
  match state_token m with
  | None => ret false
  | Some t =>
      if negb (optTruthy (autoRefresh (config m))) then ret false
      else if negb (isOAuthMethod (state_method m)) || negb (hasRefreshToken t)
      then ret false
      else
        let threshold := thresholdOr300 (config m) in
        let* expired := io (isTokenExpired t threshold) in
        if expired then refreshToken else ret false
  end.
End AuthIndexRefresh.

(** *** Events of the [auth/manager.ts] state machine *)

Module ManagerEvents.
Import JsString Errors Eff World Tokens OAuth Manager Samples.

(** The [STATE_CHANGED] event [setState(newState)] emits from state
    [old], if any. *)
Definition stateChange (old newState : AuthState) : list Event :=
  if bool_decide (old = newState) then [] else [EvEmit STATE_CHANGED].

(** The [clearTimeout] call made for an armed timer. *)
Definition cancelled (timer : option nat) : list Event :=
  match timer with
  | Some old => [EvClearTimeout old]
  | None => []
  end.

(** A fresh [manager.ts] manager configured with an API key. *)
Definition apiKeyManager : AuthManager :=
  newAuthManager
    {| raw_api_key := Some "sk-ant-api03-0123456789"; raw_oauth := None;
       raw_preferredMethod := None; raw_autoRefresh := None;
       raw_tokenRefreshThreshold := None; raw_maxRetryAttempts := None |}
    sampleWorld.
End ManagerEvents.

(** *** [auth/manager.ts] with listeners on its events

    The class extends [EventEmitter]: [emit] runs the listeners registered
    for the event, one after the other, before it returns, and what a
    listener throws leaves [emit] as an exception.  [Manager] above is the
    manager on which no listener is registered.  Here the listeners are a
    parameter: what they do, to the manager and to the outside world, when
    they run for an event, and what they throw.

    Where the source reads a field of [this] once more after an [emit]
    ([this.currentToken.refreshToken] and [this.config] in [refreshToken],
    [this.config.autoRefresh] in [authenticate] and [initialize]), the value
    read before the [emit] is used; the two differ only when a listener has
    called back into the manager in between, and every property below is
    about listeners that do not. *)

Module ManagerListeners.
Import JsString Errors Eff World Tokens OAuth Manager.

(** What [emit] hands to the listeners after the event name. *)
Inductive Payload : Type :=
| NoPayload
| NewState (newState : AuthState)
| LoginMethod (method : AuthMethod)
| Caught (error : Thrown)
| ResultError (error : option string).

Section Listeners.
Variable listeners : string -> Payload -> M AuthManager unit.

(** Listeners that leave the manager and the outside world alone and throw
    nothing; no listener at all is the first case of this. *)
Definition quiet : Prop :=
  forall (event : string) (payload : Payload) (m : AuthManager),
    listeners event payload m = (Returns tt, m).

(** [this.emit(event, payload)] *)
Definition emit (event : string) (payload : Payload) : M AuthManager unit :=
  let* _ := Manager.emit event in
  listeners event payload.

(** [setState(newState)] *)
Definition setState (newState : AuthState) : M AuthManager unit :=
  let* m := get in
  if bool_decide (state m = newState) then ret tt
  else
    let* _ := modify (set_state newState) in
    emit STATE_CHANGED (NewState newState).

(** [refreshToken()] *)
Definition refreshToken : M AuthManager unit :=
  let* m := get in
  match currentToken m with
  | None => throw (ThrownError (newError "No refresh token available"))
  | Some current =>
      match Tokens.refreshToken current with
      | None => throw (ThrownError (newError "No refresh token available"))
      | Some rt =>
          if negb (truthy rt)
          then throw (ThrownError (newError "No refresh token available"))
          else
            let* _ := setState REFRESHING in
            tryCatch
              (let* newToken := io (refreshOAuthToken rt (oauth (config m))) in
               let* _ := modify (set_currentToken (Some newToken)) in
               let* _ := modify (fun m =>
                 set_tokenStorage (saveToken tokenKey newToken (tokenStorage m)) m) in
               let* _ := setState AUTHENTICATED in
               let* _ := emit TOKEN_REFRESHED NoPayload in
               when (autoRefresh (config m)) scheduleTokenRefresh)
              (fun error =>
                 let* _ := setState FAILED in
                 let* _ := emit ERROR (Caught error) in
                 throw error)
      end
  end.

(** [initialize()] *)
Definition initialize : M AuthManager unit :=
  tryCatch
    (let* m := get in
     let* _ := modify (set_currentToken (getToken tokenKey (tokenStorage m))) in
     match getToken tokenKey (tokenStorage m) with
     | Some t =>
         let* expired :=
           io (isTokenExpired t (tokenRefreshThreshold (config m))) in
         if expired then
           if hasRefreshToken t then
             tryCatch refreshToken
               (fun error =>
                  let* _ := modify (set_currentToken None) in
                  setState INITIAL)
           else
             let* _ := modify (set_currentToken None) in
             setState INITIAL
         else
           let* _ := setState AUTHENTICATED in
           when (autoRefresh (config m)) scheduleTokenRefresh
     | None => setState INITIAL
     end)
    (fun error =>
       let* _ := setState FAILED in
       emit ERROR (Caught error)).

(** [authenticate(method?)] *)
Definition authenticate (requested : option AuthMethod)
    : M AuthManager AuthResult :=
  let* m := get in
  let authMethod := resolveMethod requested (config m) in
  let* _ := setState AUTHENTICATING in
  tryCatch
    (let* result :=
       match authMethod with
       | API_KEY => authenticateWithApiKey
       | OAUTH => authenticateWithOAuth
       end in
     let* _ :=
       match success result, token result with
       | true, Some t =>
           let* _ := modify (set_currentToken (Some t)) in
           let* _ := modify (fun m =>
             set_tokenStorage (saveToken tokenKey t (tokenStorage m)) m) in
           let* _ := setState AUTHENTICATED in
           let* _ := emit LOGGED_IN (LoginMethod authMethod) in
           when (autoRefresh (config m) && hasRefreshToken t)
             scheduleTokenRefresh
       | _, _ =>
           let* _ := setState FAILED in
           emit ERROR (ResultError (error result))
       end in
     ret result)
    (fun error =>
       let* _ := setState FAILED in
       let* _ := emit ERROR (Caught error) in
       ret {| success := false; error := Some (errorMessage error);
              Tokens.state := FAILED; method := None; token := None |}).

(** [logout()] *)
Definition logout : M AuthManager unit :=
  let* _ := clearRefreshTimer in
  let* _ := modify (fun m =>
    set_tokenStorage (deleteToken tokenKey (tokenStorage m)) m) in
  let* _ := modify (set_currentToken None) in
  let* _ := setState INITIAL in
  emit LOGGED_OUT NoPayload.

End Listeners.

(** No listener is registered. *)
Definition noListeners (event : string) (payload : Payload)
    : M AuthManager unit :=
  ret tt.

(** A listener on [LOGGED_OUT] that throws; none on the other events. *)
Definition throwingLogoutListener (event : string) (payload : Payload)
    : M AuthManager unit :=
  if String.eqb event LOGGED_OUT
  then throw (ThrownError (newError "listener failed"))
  else ret tt.

End ManagerListeners.

(** *** [withRetry] with an [isRetryable] that may throw

    [Retry] above takes [isRetryable] as a function that returns a boolean.
    A JavaScript predicate may also throw, and [withRetry] calls it in the
    [catch] block of its loop, where nothing catches what it throws.  Here
    [predicate] stands for [retryOptions.isRetryable]: for an error, what
    the call throws, or whether what it returns is truthy; the
    [isRetryable] field of the options is not read. *)

Module RetryPredicate.
Import Errors Eff Retry.

Section Wrapped.
Variable R : Type.
Variable predicate : option (JsError -> Outcome bool).

(** The loop of [withRetry], as [Retry.retryLoop]. *)
Fixpoint retryLoop (retryOptions : RetryOptions) (remaining : nat)
    (attempt : Z) (lastError : JsError) : M (RetryWorld R) R :=
  match remaining with
  | O => throw (ThrownError lastError)
  | S remaining' =>
      fun w =>
        match attemptBody retryOptions attempt lastError w with
        | (Returns r, w') => (Returns r, w')
        | (Throws error, w') =>
            let lastError := toError error in
            if maxRetries retryOptions <=? attempt then
              (Throws (ThrownError lastError), w')
            else
              match predicate with
              | Some p =>
                  match p lastError with
                  | Throws t => (Throws t, w')
                  | Returns false => (Throws (ThrownError lastError), w')
                  | Returns true =>
                      retryLoop retryOptions remaining' (attempt + 1)
                        lastError w'
                  end
              | None =>
                  retryLoop retryOptions remaining' (attempt + 1)
                    lastError w'
              end
        end
  end.

(** The function [withRetry(fn, options)] returns, applied to [args]. *)
Definition withRetry (options : PartialRetryOptions) : M (RetryWorld R) R :=
  let retryOptions := resolveOptions options in
  retryLoop retryOptions (Z.to_nat (maxRetries retryOptions + 1)) 0
    (newError "Unknown error").

End Wrapped.

Arguments retryLoop {R} predicate retryOptions remaining attempt lastError _.
Arguments withRetry {R} predicate options _.

(** A predicate that returns: [isRetryable] as [Retry] has it. *)
Definition returning (p : JsError -> bool) (e : JsError) : Outcome bool :=
  Returns (p e).

(** The kinds of events in the log of a wrapped call. *)
Definition isCallEvent (e : RetryEvent) : bool :=
  match e with
  | EvCall => true
  | _ => false
  end.

Definition isSleepEvent (e : RetryEvent) : bool :=
  match e with
  | EvSleep _ => true
  | _ => false
  end.

Definition isOnRetryEvent (e : RetryEvent) : bool :=
  match e with
  | EvOnRetry _ _ => true
  | _ => false
  end.

(** How many events of a kind a log holds. *)
Definition count (kind : RetryEvent -> bool) (l : list RetryEvent) : nat :=
  length (List.filter kind l).

(** Every sleep of a log lasts [ms]. *)
Definition sleepsLast (ms : Q) (l : list RetryEvent) : Prop :=
  forall d, In (EvSleep d) l -> d = ms.

(** An iteration of the loop whose body completes with [o] ends the
    wrapped call with [o']: the value returned, the error caught, or what
    the predicate threw. *)
Definition stopsWith {R : Type}
    (predicate : option (JsError -> Outcome bool)) (o o' : Outcome R)
    : Prop :=
  (exists r, o = Returns r /\ o' = Returns r) \/
  (exists t, o = Throws t /\
     (o' = Throws (ThrownError (toError t)) \/
      exists p t', predicate = Some p /\ p (toError t) = Throws t' /\
                   o' = Throws t')).

(** A predicate that throws a string. *)
Definition throwingPredicate (e : JsError) : Outcome bool :=
  Throws (ThrownValue "not today").

End RetryPredicate.

(** *** Sequential execution ([runSequentially] of [utils/async.ts]) *)

Module Sequential.
Import Errors Eff.

Section Sequence.
(** The state the functions act on, and their result type. *)
Variables S A : Type.

(** The loop [for (const fn of fns) results.push(await fn())], entered
    with [results]. *)
Fixpoint runSequentially_from (results : list A) (fns : list (M S A))
    : M S (list A) :=
  match fns with
  | [] => ret results
  | fn :: rest =>
      let* r := fn in
      runSequentially_from (results ++ [r]) rest
  end.

(** [runSequentially(fns)] *)
Definition runSequentially (fns : list (M S A)) : M S (list A) :=
  runSequentially_from [] fns.
End Sequence.

Arguments runSequentially_from {S A} results fns.
Arguments runSequentially {S A} fns.

(** A function that returns the number of calls made so far, and one that
    fails; both count their call. *)
Definition tick : M nat nat := fun n => (Returns n, S n).

Definition failing : M nat nat :=
  fun n => (Throws (ThrownError (newError "boom")), S n).
End Sequential.

(** *** More worlds, credentials and managers for the examples *)

Module MoreSamples.
Import JsString Errors Eff World Tokens OAuth Samples.

(** A world like [sampleWorld] whose random source always draws 0, so that
    the simulated callback echoes the generated state. *)
Definition echoWorld : World :=
  {| randomDraws := fun _ => 0%nat; drawn := 0;
     clock := fun _ => 1700000000000; clockReads := 0;
     validUrl := fun _ => true;
     browser := fun _ => None;
     respond := fun _ _ => Returns tokenReply;
     nextTimer := 5; trace := [] |}.

(** An OAuth credential that expired long before the clock of the sample
    worlds. *)
Definition expiredToken : AuthToken :=
  {| accessToken := Some "expired-access-token";
     refreshToken := Some "rt-0";
     expiresAt := 1600000000; tokenType := "Bearer";
     scope := "anthropic.claude"; id := None |}.

(** An [index.ts] manager that has not been initialized, with
    [expiredToken] in its store. *)
Definition expiredStore : AuthIndex.AuthManager :=
  {| AuthIndex.config := AuthIndex.DEFAULT_AUTH_CONFIG;
     AuthIndex.tokenStorage := {[ AuthIndex.AUTH_STORAGE_KEY := expiredToken ]};
     AuthIndex.state_initialized := false;
     AuthIndex.state_authenticated := false;
     AuthIndex.state_token := None;
     AuthIndex.state_method := None;
     AuthIndex.state_lastError := None;
     AuthIndex.world := sampleWorld |}.
End MoreSamples.

(** * Properties *)

(** ** Strings *)

Module StringFacts.
Import JsString.

Lemma substring_all (s : string) :
  String.substring 0 (String.length s) s = s.
Proof. induction s as [|c s IH]; simpl; [done | by rewrite IH]. Qed.

Lemma app_cons (c : ascii) (s1 s2 : string) :
  String c s1 +:+ s2 = String c (s1 +:+ s2).
Proof. reflexivity. Qed.

Lemma app_empty_l (s : string) : "" +:+ s = s.
Proof. reflexivity. Qed.

Lemma string_length_app (s1 s2 : string) :
  String.length (s1 +:+ s2) = (String.length s1 + String.length s2)%nat.
Proof.
  induction s1 as [|c s1 IH]; [done|].
  rewrite app_cons. simpl. by rewrite IH.
Qed.

Lemma len_nonneg (s : string) : 0 <= len s.
Proof. unfold len. lia. Qed.

Lemma trimStart_id (s : string) :
  (forall c, firstChar s = Some c -> isWhiteSpace c = false) ->
  trimStart s = s.
Proof.
  destruct s as [|c s]; simpl; [done|].
  intros H. by rewrite (H c eq_refl).
Qed.

Lemma trimEnd_id (s : string) :
  (forall c, lastChar s = Some c -> isWhiteSpace c = false) ->
  trimEnd s = s.
Proof.
  induction s as [|c s IH]; [done|].
  intros H. cbn [trimEnd].
  destruct s as [|d s].
  - simpl. by rewrite (H c eq_refl).
  - rewrite IH; [done|]. intros e He. apply H. exact He.
Qed.

Lemma trim_id (s : string) : noOuterWhiteSpace s = true -> trim s = s.
Proof.
  unfold noOuterWhiteSpace, trim. intros H.
  destruct s as [|c s]; [done|].
  assert (exists d, lastChar (String c s) = Some d) as [d Hd].
  { clear H. revert c. induction s as [|e s IH]; intros c; simpl; eauto. }
  rewrite Hd in H. simpl in H.
  apply andb_true_iff in H as [Hc Hl].
  apply negb_true_iff in Hc, Hl.
  rewrite trimStart_id.
  - apply trimEnd_id. intros e He. congruence.
  - simpl. intros e He. congruence.
Qed.

End StringFacts.

(** ** Token helpers *)

Module TokensFacts.
Import JsString Errors Eff World Tokens StringFacts Samples.

Lemma substring1_bearer (a : string) :
  substring1 ("Bearer " +:+ a) 7 = a.
Proof.
  unfold substring1, substring2, clamp.
  assert (len ("Bearer " +:+ a) = 7 + len a) as ->.
  { unfold len. rewrite string_length_app. simpl. lia. }
  pose proof (len_nonneg a).
  replace (Z.min (Z.max 0 (Z.min 7 (7 + len a)))
                 (Z.max 0 (Z.min (7 + len a) (7 + len a)))) with 7 by lia.
  replace (Z.max (Z.max 0 (Z.min 7 (7 + len a)))
                 (Z.max 0 (Z.min (7 + len a) (7 + len a))) - 7)
    with (len a) by lia.
  unfold len. rewrite Nat2Z.id.
  change (Z.to_nat 7) with 7%nat.
  rewrite !app_cons, app_empty_l. simpl.
  apply substring_all.
Qed.

(** A token of at most four characters is shown whole, twice. *)
Lemma maskAccessToken_short (a : string) :
  len a <= 4 -> maskAccessToken a = a +:+ "..." +:+ a.
Proof.
  intros H. pose proof (len_nonneg a).
  unfold maskAccessToken, substring1, substring2, clamp.
  replace (Z.min (Z.max 0 (Z.min 0 (len a))) (Z.max 0 (Z.min 4 (len a))))
    with 0 by lia.
  replace (Z.max (Z.max 0 (Z.min 0 (len a))) (Z.max 0 (Z.min 4 (len a))) - 0)
    with (len a) by lia.
  replace (Z.min (Z.max 0 (Z.min (len a - 4) (len a)))
                 (Z.max 0 (Z.min (len a) (len a)))) with 0 by lia.
  replace (Z.max (Z.max 0 (Z.min (len a - 4) (len a)))
                 (Z.max 0 (Z.min (len a) (len a))) - 0) with (len a) by lia.
  unfold len. rewrite Nat2Z.id. change (Z.to_nat 0) with 0%nat.
  by rewrite substring_all.
Qed.

(** A token of eight characters is shown whole as well. *)
Lemma maskAccessToken_eight : maskAccessToken "abcdefgh" = "abcd...efgh".
Proof. reflexivity. Qed.

(** Twelve characters: the four in the middle are hidden. *)
Lemma maskAccessToken_twelve : maskAccessToken "abcdefghijkl" = "abcd...ijkl".
Proof. reflexivity. Qed.

(** C9, at a failing input.  For the three-character access token
    [abc], the [accessToken] entry of [getTokenDetails] is [abc...abc]:
    the display meant to mask the token shows all of it, in any world and
    under any locale. *)
Theorem getTokenDetails_reveals_short_token
    (toLocaleString : Z -> string) (w : World) :
  exists details,
    getTokenDetails toLocaleString Samples.shortToken w
    = (Returns details, w) /\
    details !! "accessToken" = Some "abc...abc".
Proof. eexists. split; [reflexivity|]. vm_compute. reflexivity. Qed.

(** C10.  Round trip of the header helpers: for every token whose
    [tokenType] is [Bearer] and whose access token has neither leading nor
    trailing white space, [extractTokenFromHeader] applied to the result of
    [createAuthorizationHeader] returns exactly that access token; and
    [extractTokenFromHeader] returns [null] for the empty header. *)
Theorem header_round_trip :
  (forall (t : AuthToken) (a : string),
      tokenType t = "Bearer" ->
      accessToken t = Some a ->
      noOuterWhiteSpace a = true ->
      extractTokenFromHeader (createAuthorizationHeader t) = Some a) /\
  extractTokenFromHeader "" = None.
Proof.
  split; [|reflexivity].
  intros t a Hty Hacc Hws.
  unfold createAuthorizationHeader. rewrite Hty, Hacc. simpl interpolate.
  change (orElse (Some "Bearer") "Bearer" +:+ " " +:+ a) with ("Bearer " +:+ a).
  unfold extractTokenFromHeader.
  change (truthy ("Bearer " +:+ a)) with true.
  assert (startsWith ("Bearer " +:+ a) "Bearer " = true) as ->.
  { unfold startsWith. rewrite !app_cons, app_empty_l. simpl. by destruct a. }
  simpl negb. cbv iota.
  rewrite substring1_bearer. by rewrite trim_id.
Qed.

Lemma header_round_trip_witness :
  extractTokenFromHeader
    (createAuthorizationHeader
       {| accessToken := Some "sk-ant-0123456789"; refreshToken := None;
          expiresAt := 0; tokenType := "Bearer"; scope := "anthropic.api";
          id := None |}) = Some "sk-ant-0123456789".
Proof. apply (proj1 header_round_trip); reflexivity. Defined.

End TokensFacts.

(** ** The OAuth flow engine *)

Module OAuthFacts.
Import JsString Errors Eff World Tokens OAuth Samples.

Lemma fetchCount_snoc (l : list Event) (e : Event) :
  fetchCount (l ++ [e]) = (fetchCount l + if isFetch e then 1 else 0)%nat.
Proof.
  unfold fetchCount. rewrite List.filter_app, length_app. simpl.
  by destruct (isFetch e).
Qed.

Lemma NoFetch_ret {A} (a : A) : NoFetch (ret a).
Proof. by intros w. Qed.

Lemma NoFetch_throw {A} (t : Thrown) : NoFetch (@throw World A t).
Proof. by intros w. Qed.

Lemma NoFetch_get : NoFetch (@get World).
Proof. by intros w. Qed.

Lemma NoFetch_bind {A B} (m : M World A) (k : A -> M World B) :
  NoFetch m -> (forall a, NoFetch (k a)) -> NoFetch (bind m k).
Proof.
  intros Hm Hk w. unfold bind. specialize (Hm w).
  destruct (m w) as [[a|t] w1]; simpl in *; [|done].
  by rewrite Hk.
Qed.

Lemma NoFetch_record (e : Event) : isFetch e = false -> NoFetch (record e).
Proof.
  intros He w. unfold record, modify. simpl.
  rewrite fetchCount_snoc, He. lia.
Qed.

Lemma NoFetch_randomIndex (n : nat) : NoFetch (randomIndex n).
Proof. by intros w. Qed.

Lemma NoFetch_dateNow : NoFetch dateNow.
Proof. by intros w. Qed.

Lemma NoFetch_setTimeout (ms : Z) : NoFetch (setTimeout ms).
Proof. intros w. simpl. rewrite fetchCount_snoc. simpl. lia. Qed.

Lemma NoFetch_openBrowser base query : NoFetch (openBrowser base query).
Proof.
  intros w. unfold openBrowser.
  destruct (browser w (trace w)); simpl; rewrite fetchCount_snoc; simpl; lia.
Qed.

Create HintDb nofetch.
#[local] Hint Resolve NoFetch_ret NoFetch_throw NoFetch_get NoFetch_bind
  NoFetch_randomIndex NoFetch_dateNow NoFetch_setTimeout
  NoFetch_openBrowser : nofetch.

Lemma NoFetch_generateRandomString_from (n : nat) :
  forall result, NoFetch (generateRandomString_from result n).
Proof.
  induction n as [|n IH]; intros result; simpl; auto with nofetch.
Qed.

Lemma NoFetch_generateRandomString (n : nat) : NoFetch (generateRandomString n).
Proof. apply NoFetch_generateRandomString_from. Qed.
#[local] Hint Resolve NoFetch_generateRandomString : nofetch.

Lemma NoFetch_newURL (s : string) : NoFetch (newURL s).
Proof.
  unfold newURL. apply NoFetch_bind; [auto with nofetch|].
  intros w. destruct (validUrl w s); auto with nofetch.
Qed.
#[local] Hint Resolve NoFetch_newURL : nofetch.

(** Nothing is sent to the token endpoint before the callback arrives. *)
Lemma NoFetch_awaitCallback (config : OAuthConfig) :
  NoFetch (awaitCallback config).
Proof.
  unfold awaitCallback, generatePkceParams, buildAuthorizationUrl,
    startLocalServerForCallback.
  apply NoFetch_bind.
  { destruct (usePkce config) as [[|]|]; auto 10 with nofetch. }
  intros [codeVerifier codeChallenge].
  apply NoFetch_bind; [auto with nofetch|]. intros state.
  apply NoFetch_bind; [auto 10 with nofetch|]. intros [base query].
  apply NoFetch_bind; [auto with nofetch|]. intros _.
  apply NoFetch_bind; [auto 10 with nofetch|]. intros [code receivedState].
  auto with nofetch.
Qed.

(** C1.  In every invocation of [performOAuthFlow] in which the callback
    arrives with a state different from the nonce generated at the start,
    the flow throws the Authentication-category state-mismatch error,
    returns the unsuccessful result carrying its message, and makes no call
    to the token endpoint: the log holds as many [fetch] calls after the
    invocation as before it. *)
Theorem state_mismatch_never_exchanges
    (config : OAuthConfig) (w w1 : World) (cb : Callback) :
  awaitCallback config w = (Returns cb, w1) ->
  cb_state cb <> cb_receivedState cb ->
  exists w2,
    performOAuthFlow config w =
      (Returns {| success := false; method := Some OAUTH; token := None;
                  state := FAILED;
                  error := Some
                    "OAuth state mismatch. Authentication may have been tampered with" |},
       w2) /\
    trace w2 =
      trace w1 ++
      [EvLogError "OAuth authentication failed" (ThrownError stateMismatchError)] /\
    category stateMismatchError = Some AUTHENTICATION /\
    fetchCount (trace w2) = fetchCount (trace w).
Proof.
  intros Hcb Hne.
  pose proof (NoFetch_awaitCallback config w) as Hnf.
  rewrite Hcb in Hnf. simpl in Hnf.
  unfold performOAuthFlow, tryCatch, bind. rewrite Hcb.
  unfold completeFlow.
  apply String.eqb_neq in Hne. rewrite Hne. simpl.
  eexists. split; [reflexivity|]. simpl.
  split; [reflexivity|]. split; [reflexivity|].
  rewrite fetchCount_snoc. simpl. lia.
Qed.

Lemma state_mismatch_never_exchanges_witness :
  exists w2,
    performOAuthFlow DEFAULT_OAUTH_CONFIG sampleWorld =
      (Returns {| success := false; method := Some OAUTH; token := None;
                  state := FAILED;
                  error := Some
                    "OAuth state mismatch. Authentication may have been tampered with" |},
       w2) /\
    fetchCount (trace w2) = 0%nat.
Proof.
  edestruct (state_mismatch_never_exchanges DEFAULT_OAUTH_CONFIG sampleWorld)
    as (w2 & Hrun & _ & _ & Hcount).
  - vm_compute. reflexivity.
  - vm_compute. discriminate.
  - exists w2. split; [exact Hrun|]. rewrite Hcount. reflexivity.
Defined.

(** C6.  For every refresh exchange whose response is successful: when
    the response has no [refresh_token], the returned credential keeps the
    refresh token that was passed in; when it has a new (non-empty) one,
    the returned credential carries that new value. *)
Theorem refreshOAuthToken_keeps_or_replaces
    (original : string) (config : OAuthConfig) (w : World)
    (response : HttpResponse) (data : TokenResponse) :
  respond w (trace w) (refreshRequest original config) = Returns response ->
  ok response = true ->
  json response = Returns data ->
  exists t w',
    refreshOAuthToken original config w = (Returns t, w') /\
    (refresh_token data = None -> refreshToken t = Some original) /\
    (forall fresh, refresh_token data = Some fresh -> fresh <> "" ->
       refreshToken t = Some fresh).
Proof.
  intros Hresp Hok Hjson.
  unfold refreshOAuthToken, tryCatch, bind, fetch. rewrite Hresp.
  rewrite Hok. simpl. rewrite Hjson. simpl.
  eexists _, _. split; [reflexivity|]. simpl. split.
  - by intros ->.
  - intros fresh -> Hne. simpl.
    apply String.eqb_neq in Hne. unfold truthy. by rewrite Hne.
Qed.

Lemma refreshOAuthToken_keeps_or_replaces_witness :
  exists t w',
    refreshOAuthToken "rt-original" DEFAULT_OAUTH_CONFIG sampleWorld =
      (Returns t, w') /\
    refreshToken t = Some "rt-original".
Proof.
  destruct (refreshOAuthToken_keeps_or_replaces "rt-original"
              DEFAULT_OAUTH_CONFIG sampleWorld
              tokenReply tokenJson)
    as (t & w' & Hrun & Hkeep & _).
  - reflexivity.
  - reflexivity.
  - reflexivity.
  - exists t, w'. split; [exact Hrun|]. apply Hkeep. reflexivity.
Defined.

(** An empty [refresh_token] in the response is falsy, hence treated like
    an absent one. *)
Lemma refreshOAuthToken_empty_refresh_token
    (original : string) (config : OAuthConfig) (w : World)
    (response : HttpResponse) (data : TokenResponse) :
  respond w (trace w) (refreshRequest original config) = Returns response ->
  ok response = true ->
  json response = Returns data ->
  refresh_token data = Some "" ->
  exists t w',
    refreshOAuthToken original config w = (Returns t, w') /\
    refreshToken t = Some original.
Proof.
  intros Hresp Hok Hjson Hempty.
  unfold refreshOAuthToken, tryCatch, bind, fetch. rewrite Hresp.
  rewrite Hok. simpl. rewrite Hjson. simpl.
  eexists _, _. split; [reflexivity|]. simpl. by rewrite Hempty.
Qed.

End OAuthFacts.

(** ** The exported manager ([auth/index.ts]) *)

Module AuthIndexFacts.
Import JsString Errors Eff World Tokens OAuth AuthIndex StringFacts Samples.

Lemma truthy_of_trim_len (s : string) : 0 < len (trim s) -> truthy s = true.
Proof. destruct s; [intros H; vm_compute in H; discriminate | done]. Qed.

(** What [authenticateWithApiKey] does with a key of accepted length: the
    credential is stored and held; building the result then raises the
    [ReferenceError]; the handler records it, clears the credential from
    memory, not from the store, and building its own result raises the
    error once more. *)
Lemma authenticateWithApiKey_accepted_run (apiKey : string) (m : AuthManager) :
  10 <= len (trim apiKey) ->
  authenticateWithApiKey apiKey m =
    (Throws (ThrownError authStateNotDefined),
     {| config := config m;
        tokenStorage :=
          <[AUTH_STORAGE_KEY :=
              {| accessToken := Some apiKey; Tokens.refreshToken := None;
                 expiresAt := 0; tokenType := "Bearer";
                 scope := "anthropic.api"; id := None |}]> (tokenStorage m);
        state_initialized := state_initialized m;
        state_authenticated := false;
        state_token := None;
        state_method := Some API_KEY;
        state_lastError := Some authStateNotDefined;
        world := world m |}).
Proof.
  intros Hlen.
  unfold authenticateWithApiKey, tryCatch.
  rewrite truthy_of_trim_len by lia.
  assert ((len (trim apiKey) <? 10) = false) as -> by lia.
  reflexivity.
Qed.

(** C4, at every input the claim speaks of.  For every API key whose
    trimmed length is at least 10, [authenticateWithApiKey] of
    [auth/index.ts] does not succeed: the credential it builds (the key, no
    refresh token, [expiresAt = 0]) is written to the store, but the call
    then rejects with the [ReferenceError] for [AuthState], and afterwards
    no credential is held in memory, [isAuthenticated()] is false and
    [getAuthorizationHeader()] is null. *)
Theorem authenticateWithApiKey_accepted_key_rejects (apiKey : string)
    (m : AuthManager) :
  10 <= len (trim apiKey) ->
  exists t m',
    authenticateWithApiKey apiKey m =
      (Throws (ThrownError authStateNotDefined), m') /\
    name authStateNotDefined = "ReferenceError" /\
    accessToken t = Some apiKey /\
    Tokens.refreshToken t = None /\
    expiresAt t = 0 /\
    tokenStorage m' !! AUTH_STORAGE_KEY = Some t /\
    state_token m' = None /\
    isAuthenticated m' = false /\
    getAuthorizationHeader m' = None.
Proof.
  intros Hlen. rewrite authenticateWithApiKey_accepted_run by done.
  exists {| accessToken := Some apiKey; Tokens.refreshToken := None;
            expiresAt := 0; tokenType := "Bearer";
            scope := "anthropic.api"; id := None |}.
  eexists. split; [reflexivity|]. simpl.
  repeat split. apply lookup_insert_eq.
Qed.

Lemma authenticateWithApiKey_accepted_key_rejects_witness :
  exists t m',
    AuthIndex.authenticateWithApiKey "sk-ant-api03-0123456789"
      (AuthIndex.newAuthManager AuthIndex.DEFAULT_AUTH_CONFIG sampleWorld) =
      (Throws (ThrownError AuthIndex.authStateNotDefined), m') /\
    AuthIndex.tokenStorage m' !! AuthIndex.AUTH_STORAGE_KEY = Some t /\
    accessToken t = Some "sk-ant-api03-0123456789" /\
    AuthIndex.state_token m' = None /\
    AuthIndex.isAuthenticated m' = false.
Proof.
  destruct (authenticateWithApiKey_accepted_key_rejects
              "sk-ant-api03-0123456789"
              (AuthIndex.newAuthManager AuthIndex.DEFAULT_AUTH_CONFIG sampleWorld))
    as (t & m' & Hrun & _ & Hkey & _ & _ & Hstore & Htok & Hauth & _).
  - vm_compute. discriminate.
  - exists t, m'. split; [exact Hrun|]. split; [exact Hstore|].
    split; [exact Hkey|]. split; [exact Htok|exact Hauth].
Defined.





(** When the refresh exchange fails, [refreshToken] of [auth/index.ts]
    returns false and clears the credential from memory and from the
    store. *)
Lemma index_refreshToken_failure_clears (m : AuthIndex.AuthManager)
    (t : AuthToken) (rt : string) (e : Thrown) (w' : World) :
  AuthIndex.state_token m = Some t ->
  Tokens.refreshToken t = Some rt ->
  rt <> "" ->
  refreshOAuthToken rt (AuthIndex.oauthConfigOf (AuthIndex.config m))
    (AuthIndex.world m) = (Throws e, w') ->
  exists m',
    AuthIndex.refreshToken m = (Returns false, m') /\
    AuthIndex.state_token m' = None /\
    AuthIndex.state_authenticated m' = false /\
    AuthIndex.tokenStorage m' !! AuthIndex.AUTH_STORAGE_KEY = None /\
    AuthIndex.isAuthenticated m' = false.
Proof.
  intros Htok Hrt Hne Hfail.
  unfold AuthIndex.refreshToken, bind, get. rewrite Htok, Hrt.
  apply String.eqb_neq in Hne. unfold truthy. rewrite Hne. simpl.
  unfold tryCatch, bind, AuthIndex.io, zoom. rewrite Hfail. simpl.
  eexists. split; [reflexivity|]. simpl.
  repeat split. unfold deleteToken. apply lookup_delete_eq.
Qed.

End AuthIndexFacts.

(** ** The event-emitting manager ([auth/manager.ts]) *)

Module ManagerFacts.
Import JsString Errors Eff World Tokens OAuth Manager Samples.

(** C8.  Whenever [scheduleTokenRefresh] runs: a previously armed timer
    is cancelled first; for a credential with a refresh token, one timer is
    then armed, with a delay of [max(0, (expiresAt - now) -
    tokenRefreshThreshold)] seconds; for a credential without a refresh
    token nothing is armed, whatever its [expiresAt]. *)
Theorem scheduleTokenRefresh_arms (m : AuthManager) :
  let cancelled :=
    match refreshTimer m with
    | Some old => [EvClearTimeout old]
    | None => []
    end in
  let now := nowSeconds (clock (world m) (clockReads (world m))) in
  exists m',
    scheduleTokenRefresh m = (Returns tt, m') /\
    (forall t, currentToken m = Some t -> hasRefreshToken t = true ->
       refreshTimer m' = Some (nextTimer (world m)) /\
       trace (world m') =
         trace (world m) ++ cancelled ++
         [EvSetTimeout (nextTimer (world m))
            (Z.max 0 ((expiresAt t - now) - tokenRefreshThreshold (config m))
             * 1000)]) /\
    (forall t, currentToken m = Some t -> hasRefreshToken t = false ->
       refreshTimer m' = None /\
       trace (world m') = trace (world m) ++ cancelled).
Proof.
  destruct m as [st store tok timer cfg w].
  unfold scheduleTokenRefresh, clearRefreshTimer, bind, get. simpl.
  destruct timer as [old|], tok as [t|]; simpl;
    try destruct (hasRefreshToken t) eqn:Hrt; simpl;
    eexists; (split; [reflexivity|]); simpl;
    split; intros t' Ht' Hrt'; simplify_eq; try congruence;
    rewrite ?app_nil_r, <- ?app_assoc; done.
Qed.

Lemma scheduleTokenRefresh_arms_witness :
  exists m',
    Manager.scheduleTokenRefresh freshManager = (Returns tt, m') /\
    Manager.refreshTimer m' = Some 5%nat /\
    trace (Manager.world m') = [EvClearTimeout 4; EvSetTimeout 5 3300000].
Proof.
  destruct (scheduleTokenRefresh_arms freshManager)
    as (m' & Hrun & Harm & _).
  destruct (Harm _ eq_refl eq_refl) as [Htimer Htrace].
  exists m'. split; [exact Hrun|]. split; [exact Htimer|exact Htrace].
Defined.

(** C3, at a failing input.  The refresh timer fires on a manager
    whose refresh token the server rejects with [invalid_grant]: the
    manager goes to [FAILED] and [isAuthenticated()] is false, but the
    stale credential is still held in memory and still in the token store,
    and [getAuthorizationHeader()] still hands it out. *)
Theorem timer_refresh_failure_keeps_credential :
  exists m',
    Manager.onRefreshTimer staleManager = (Returns tt, m') /\
    Manager.state m' = FAILED /\
    Manager.isAuthenticated m' = false /\
    Manager.currentToken m' = Some staleToken /\
    Manager.tokenStorage m' !! Manager.tokenKey = Some staleToken /\
    Manager.getAuthorizationHeader m' = Some "Bearer stale-access-token".
Proof.
  eexists. split; [vm_compute; reflexivity|].
  repeat split; vm_compute; reflexivity.
Qed.

(** [authenticateWithApiKey] of [auth/manager.ts] takes the key from the
    configuration, checks no length, and marks the credential as never
    expiring with [Number.MAX_SAFE_INTEGER] rather than with 0. *)
Lemma manager_apiKey_credential (m : AuthManager) (key : string) :
  apiKey (config m) = Some key -> key <> "" ->
  authenticateWithApiKey m =
    (Returns {| success := true; method := Some API_KEY;
                token := Some {| accessToken := Some key;
                                 Tokens.refreshToken := None;
                                 expiresAt := MAX_SAFE_INTEGER;
                                 tokenType := "Bearer"; scope := "all";
                                 id := None |};
                Tokens.state := AUTHENTICATED; error := None |}, m).
Proof.
  intros Hkey Hne. unfold authenticateWithApiKey, bind, get. rewrite Hkey.
  apply String.eqb_neq in Hne. simpl. unfold truthy. by rewrite Hne.
Qed.

End ManagerFacts.

(** ** Retry *)

Module RetryFacts.
Import Errors Eff Retry Samples.

Section Facts.
Context {R : Type}.
Variable opts : RetryOptions.
Variable cb : JsError -> Z -> option Thrown.
Variable errs : nat -> JsError.
Variable v : R.
Variable n : nat.
Variable base : nat.

Hypothesis Hmax : 0 <= maxRetries opts.
Hypothesis Hretryable :
  forall p k, isRetryable opts = Some p -> (k < n)%nat -> p (errs k) = true.
Hypothesis HonRetry : onRetry opts = Some cb.
Hypothesis Hquiet : forall e a, cb e a = None.

Lemma attemptBody_retry (k : nat) (w : RetryWorld R) :
  exists w' ms,
    attemptBody opts (Z.of_nat k + 1) (errs k) w =
      (script w (invocations w), w') /\
    log w' = log w ++ [EvSleep ms; EvOnRetry (errs k) (Z.of_nat k + 1); EvCall] /\
    script w' = script w /\
    invocations w' = S (invocations w).
Proof.
  unfold attemptBody.
  assert ((Z.of_nat k + 1 =? 0) = false) as -> by (apply Z.eqb_neq; lia).
  unfold calculateRetryDelay, bind. rewrite HonRetry.
  destruct (backoff opts); simpl; rewrite Hquiet; simpl;
    eexists _, _; (split; [reflexivity|]); simpl;
    rewrite <- !app_assoc; done.
Qed.

Lemma retryLoop_from (remaining : nat) :
  forall (k : nat) (w : RetryWorld R),
    Z.of_nat remaining + Z.of_nat k = maxRetries opts ->
    (1 <= remaining)%nat ->
    (k < n)%nat ->
    invocations w = (base + S k)%nat ->
    (forall j, (j < n)%nat ->
       script w (base + j)%nat = Throws (ThrownError (errs j))) ->
    script w (base + n)%nat = Returns v ->
    exists w' new,
      retryLoop opts remaining (Z.of_nat k + 1) (errs k) w = (expected opts errs v n, w') /\
      log w' = log w ++ new /\
      map stepOf new = flat_map (retrySteps errs) (seq k (lastCall opts n - k)) /\
      invocations w' = (base + lastCall opts n + 1)%nat.
Proof.
  induction remaining as [|remaining IH]; intros k w Hrem Hpos Hk Hinv Hfail Hok;
    [lia|].
  cbn [retryLoop].
  destruct (attemptBody_retry k w) as (w1 & ms & Hbody & Hlog & Hscript & Hinv1).
  rewrite Hbody, Hinv.
  destruct (decide (S k = n)) as [Heq|Hne].
  - (* the retried call succeeds *)
    rewrite Heq, Hok.
    exists w1, [EvSleep ms; EvOnRetry (errs k) (Z.of_nat k + 1); EvCall].
    unfold expected, lastCall.
    assert ((Z.of_nat n <=? maxRetries opts) = true) as -> by lia.
    replace (Nat.min n (Z.to_nat (maxRetries opts))) with (S k) by lia.
    replace (S k - k)%nat with 1%nat by lia.
    split; [done|]. split; [done|]. split; [done|lia].
  - (* the retried call fails *)
    rewrite (Hfail (S k)) by lia. cbn [toError].
    destruct (decide (Z.of_nat k + 1 = maxRetries opts)) as [Hlast|Hmore].
    + assert ((maxRetries opts <=? Z.of_nat k + 1) = true) as -> by lia.
      exists w1, [EvSleep ms; EvOnRetry (errs k) (Z.of_nat k + 1); EvCall].
      unfold expected, lastCall.
      assert ((Z.of_nat n <=? maxRetries opts) = false) as -> by lia.
      replace (Z.to_nat (maxRetries opts)) with (S k) by lia.
      replace (Nat.min n (S k)) with (S k) by lia.
      replace (S k - k)%nat with 1%nat by lia.
      split; [done|]. split; [done|]. split; [done|lia].
    + assert ((maxRetries opts <=? Z.of_nat k + 1) = false) as -> by lia.
      assert (retryLoop opts remaining (Z.of_nat k + 1 + 1) (errs (S k)) w1
              = retryLoop opts remaining (Z.of_nat (S k) + 1) (errs (S k)) w1)
        as Hshift by (f_equal; lia).
      destruct (IH (S k) w1) as (w' & new & Hrun & Hlog' & Hsteps & Hinv');
        [lia | lia | lia | lia | by rewrite Hscript | by rewrite Hscript |].
      exists w', ([EvSleep ms; EvOnRetry (errs k) (Z.of_nat k + 1); EvCall] ++ new).
      assert (lastCall opts n - k = S (lastCall opts n - S k))%nat as ->
        by (unfold lastCall; lia).
      split.
      { destruct (isRetryable opts) as [p|] eqn:Hp.
        - rewrite (Hretryable p (S k) eq_refl) by lia. simpl.
          by rewrite Hshift.
        - by rewrite Hshift. }
      split; [by rewrite Hlog', Hlog, <- app_assoc|].
      split; [|done].
      rewrite map_app, Hsteps. done.
Qed.
End Facts.

Lemma retriedSteps_flat_map (errs : nat -> JsError) (n : nat) :
  retriedSteps errs n = Call :: flat_map (retrySteps errs) (seq 0 n).
Proof. reflexivity. Qed.

Lemma onRetry_count_flat_map (errs : nat -> JsError) (n : nat) :
  forall k,
    length (List.filter isOnRetry (flat_map (retrySteps errs) (seq k n))) = n.
Proof.
  induction n as [|n IH]; intros k; [done|].
  simpl. by rewrite IH.
Qed.

Lemma retriedSteps_onRetry_count (errs : nat -> JsError) (n : nat) :
  length (List.filter isOnRetry (retriedSteps errs n)) = n.
Proof. rewrite retriedSteps_flat_map. simpl. apply onRetry_count_flat_map. Qed.

Lemma attemptBody_first {R : Type} (opts : RetryOptions) (e : JsError)
    (w : RetryWorld R) :
  attemptBody opts 0 e w = callFn w.
Proof. reflexivity. Qed.

(** C2, as the specification words it, fails: with the default options
    and an operation that fails once, the wrapped call returns the value,
    but [onRetry] runs after the sleep of the retry, not before it. *)
Lemma withRetry_onRetry_after_sleep :
  exists w',
    withRetry quietOptions (flaky 1) = (Returns 7, w') /\
    map stepOf (log w') = [Call; Sleep; OnRetry boom 1; Call] /\
    onRetryBeforeSleep (map stepOf (log w')) = false.
Proof. eexists. split; [vm_compute; reflexivity|]. split; reflexivity. Qed.

(** C2, amended.  Take an operation that fails exactly [n] times with
    [Error]s and then succeeds, and options with [maxRetries >= 0], an
    [isRetryable] that is absent or accepts each of these errors, and an
    [onRetry] callback that does not throw.  If [maxRetries >= n] the
    wrapped call returns the success value after exactly [n] retries, each
    made of the sleep, then [onRetry(lastError, attempt)], then the call;
    [onRetry] thus runs exactly [n] times.  If [maxRetries < n] the
    operation is invoked exactly [maxRetries + 1] times and the last error
    is rethrown as it is. *)
Theorem withRetry_retries {R : Type} (options : PartialRetryOptions)
    (cb : JsError -> Z -> option Thrown) (errs : nat -> JsError) (v : R)
    (n : nat) (w : RetryWorld R) :
  let opts := resolveOptions options in
  0 <= maxRetries opts ->
  (forall p k, isRetryable opts = Some p -> (k < n)%nat -> p (errs k) = true) ->
  onRetry opts = Some cb ->
  (forall e a, cb e a = None) ->
  failsThenSucceeds w n errs v ->
  exists w' new,
    log w' = log w ++ new /\
    (Z.of_nat n <= maxRetries opts ->
       withRetry options w = (Returns v, w') /\
       map stepOf new = retriedSteps errs n /\
       length (List.filter isOnRetry (map stepOf new)) = n) /\
    (maxRetries opts < Z.of_nat n ->
       withRetry options w =
         (Throws (ThrownError (errs (Z.to_nat (maxRetries opts)))), w') /\
       map stepOf new = retriedSteps errs (Z.to_nat (maxRetries opts)) /\
       Z.of_nat (invocations w') =
         Z.of_nat (invocations w) + maxRetries opts + 1).
Proof.
  intros opts Hmax Hretryable HonRetry Hquiet [Hfail Hok].
  unfold withRetry. fold opts.
  replace (Z.to_nat (maxRetries opts + 1))
    with (S (Z.to_nat (maxRetries opts))) by lia.
  cbn [retryLoop]. rewrite attemptBody_first. unfold callFn.
  set (w1 := {| script := script w; invocations := S (invocations w);
                randoms := randoms w; randomReads := randomReads w;
                log := log w ++ [EvCall] |}).
  destruct n as [|n].
  - (* the first call succeeds *)
    rewrite Nat.add_0_r in Hok. rewrite Hok.
    exists w1, [EvCall]. split; [done|]. split; [|lia].
    intros _. done.
  - rewrite <- (Nat.add_0_r (invocations w)), (Hfail 0%nat) by lia.
    cbn [toError].
    destruct (decide (maxRetries opts = 0)) as [Hzero|Hpos].
    + (* no retry allowed *)
      assert ((maxRetries opts <=? 0) = true) as -> by lia.
      exists w1, [EvCall]. split; [done|]. split; [lia|].
      intros _. rewrite Hzero. simpl. split; [done|]. split; [done|lia].
    + assert ((maxRetries opts <=? 0) = false) as -> by lia.
      destruct (retryLoop_from opts cb errs v (S n) (invocations w)
                  Hmax Hretryable HonRetry Hquiet
                  (Z.to_nat (maxRetries opts)) 0%nat w1)
        as (w' & new & Hrun & Hlog & Hsteps & Hinv);
        [lia | lia | lia | unfold w1; simpl; lia | exact Hfail | exact Hok |].
      change (Z.of_nat 0 + 1) with (0 + 1) in Hrun.
      assert (withRetryResult :
        match isRetryable opts with
        | Some p =>
            if negb (p (errs 0%nat)) then (Throws (ThrownError (errs 0%nat)), w1)
            else retryLoop opts (Z.to_nat (maxRetries opts)) (0 + 1) (errs 0%nat) w1
        | None => retryLoop opts (Z.to_nat (maxRetries opts)) (0 + 1) (errs 0%nat) w1
        end = (expected opts errs v (S n), w')).
      { destruct (isRetryable opts) as [p|] eqn:Hp; [|done].
        by rewrite (Hretryable p 0%nat eq_refl) by lia. }
      rewrite withRetryResult.
      exists w', ([EvCall] ++ new).
      split; [by rewrite Hlog; simpl; rewrite <- app_assoc|].
      rewrite Nat.sub_0_r in Hsteps. unfold expected, lastCall in *.
      split.
      * intros Hle.
        assert ((Z.of_nat (S n) <=? maxRetries opts) = true) as -> by (apply Z.leb_le; lia).
        replace (Nat.min (S n) (Z.to_nat (maxRetries opts))) with (S n)
          in Hsteps by lia.
        split; [done|].
        assert (map stepOf ([EvCall] ++ new) = retriedSteps errs (S n)) as ->
          by (rewrite map_app, Hsteps; done).
        split; [done|]. apply retriedSteps_onRetry_count.
      * intros Hlt.
        assert ((Z.of_nat (S n) <=? maxRetries opts) = false) as -> by (apply Z.leb_gt; lia).
        replace (Nat.min (S n) (Z.to_nat (maxRetries opts)))
          with (Z.to_nat (maxRetries opts)) in Hsteps, Hinv by lia.
        split; [done|]. split; [by rewrite map_app, Hsteps|]. lia.
Qed.

Lemma withRetry_retries_witness :
  exists w',
    withRetry quietOptions (flaky 2) = (Returns 7, w') /\
    map stepOf (log w') = retriedSteps (fun _ => boom) 2.
Proof.
  destruct (withRetry_retries quietOptions (fun _ _ => None) (fun _ => boom)
              7 2 (flaky 2))
    as (w' & new & Hlog & Hok & _).
  - vm_compute. discriminate.
  - intros p k Hp. discriminate Hp.
  - reflexivity.
  - reflexivity.
  - split.
    + intros [|[|k]] Hk; [reflexivity|reflexivity|lia].
    + reflexivity.
  - destruct Hok as (Hrun & Hsteps & _); [vm_compute; discriminate|].
    exists w'. split; [exact Hrun|].
    rewrite Hlog. exact Hsteps.
Defined.

(** An [isRetryable] that rejects the error ends the call at the first
    failure, although [maxRetries] would allow a retry. *)
Lemma withRetry_not_retryable_rethrows :
  exists w',
    withRetry rejectingOptions (flaky 1) = (Throws (ThrownError boom), w') /\
    invocations w' = 1%nat /\ log w' = [EvCall].
Proof. eexists. split; [vm_compute; reflexivity|]. split; reflexivity. Qed.

(** With a negative [maxRetries] the loop body never runs: the operation
    is not invoked and the initial [Unknown error] is thrown. *)
Lemma withRetry_negative_maxRetries :
  withRetry negativeOptions (flaky 0) =
    (Throws (ThrownError (newError "Unknown error")), flaky 0).
Proof. reflexivity. Qed.

End RetryFacts.

(** ** Bounded-concurrency mapping *)

Module ConcurrencyFacts.
Import Errors Concurrency Samples.

Lemma waitingFrom_elem (ws : list Worker) :
  forall s wid,
    wid ∈ waitingFrom s ws <->
    (s <= wid)%nat /\ exists i, ws !! (wid - s)%nat = Some (Waiting i).
Proof.
  induction ws as [|w ws IH]; intros s wid; simpl.
  - rewrite elem_of_nil. split; [done|]. by intros [_ [i ?]].
  - assert (wid ∈ waitingFrom (S s) ws <->
            (s < wid)%nat /\ exists i, ws !! (wid - S s)%nat = Some (Waiting i))
      as Htail by (rewrite IH; done).
    assert (forall i, (s < wid)%nat ->
              (w :: ws) !! (wid - s)%nat = Some (Waiting i) <->
              ws !! (wid - S s)%nat = Some (Waiting i)) as Hshift.
    { intros i Hlt. replace (wid - s)%nat with (S (wid - S s)) by lia. done. }
    destruct w as [j| |t]; rewrite ?elem_of_cons, Htail.
    + split.
      * intros [->|[Hlt [i Hi]]].
        -- split; [lia|]. exists j. by rewrite Nat.sub_diag.
        -- split; [lia|]. exists i. by apply Hshift.
      * intros [Hle [i Hi]].
        destruct (decide (wid = s)) as [->|Hne]; [by left|].
        right. split; [lia|]. exists i. apply Hshift; [lia|done].
    + split.
      * intros [Hlt [i Hi]]. split; [lia|]. exists i. by apply Hshift.
      * intros [Hle [i Hi]].
        destruct (decide (wid = s)) as [->|Hne].
        -- by rewrite Nat.sub_diag in Hi.
        -- split; [lia|]. exists i. apply Hshift; [lia|done].
    + split.
      * intros [Hlt [i Hi]]. split; [lia|]. exists i. by apply Hshift.
      * intros [Hle [i Hi]].
        destruct (decide (wid = s)) as [->|Hne].
        -- by rewrite Nat.sub_diag in Hi.
        -- split; [lia|]. exists i. apply Hshift; [lia|done].
Qed.

Lemma waitingFrom_length_insert (ws : list Worker) :
  forall s wid i w,
    ws !! wid = Some (Waiting i) ->
    (length (waitingFrom s (<[wid := w]> ws)) + (if isWaiting w then 0 else 1)
     = length (waitingFrom s ws))%nat.
Proof.
  induction ws as [|w0 ws IH]; intros s wid i w Hwid; [done|].
  destruct wid as [|wid]; simpl in Hwid.
  - simplify_eq. simpl. destruct w; simpl; lia.
  - simpl. specialize (IH (S s) wid i w Hwid).
    destruct w0; simpl; lia.
Qed.

Lemma waitingFrom_map_Waiting (l : list nat) :
  forall s, length (waitingFrom s (map Waiting l)) = length l.
Proof. induction l as [|i l IH]; intros s; simpl; [done|by rewrite IH]. Qed.

Lemma chosen_is_waiting (c first : nat) (others : list nat) :
  nth (c mod length (first :: others)) (first :: others) first
    ∈ first :: others.
Proof.
  apply list_elem_of_In, nth_In.
  apply Nat.mod_upper_bound. simpl. lia.
Qed.

(** Case analysis on a lookup after [<[wid := _]>]. *)
Ltac lookup_insert_cases wid' wid H :=
  destruct (decide (wid' = wid)) as [->|?];
  [ rewrite list_lookup_insert_eq in H by (by eapply lookup_lt_Some)
  | rewrite list_lookup_insert_ne in H by done ].

Section Pool.
Context {T R : Type}.
Variable fn : T -> nat -> Outcome R.
Variable items : list T.

Lemma settle_step (p : Pool R) (wid : nat) :
  Inv fn items p -> rejection p = None -> wid ∈ waitingIds p ->
  (rejection (settle fn items wid p) = None /\
   Inv fn items (settle fn items wid p) /\
   (todo items (settle fn items wid p) + 1 = todo items p)%nat) \/
  (exists t, rejection (settle fn items wid p) = Some t /\ itemError fn items t).
Proof.
  intros HI Hrej Hwid.
  apply waitingFrom_elem in Hwid as [_ [i Hi]].
  rewrite Nat.sub_0_r in Hi.
  pose proof (inv_waiting p HI wid i Hi) as Hlt.
  pose proof (inv_index p HI) as Hidx.
  destruct (lookup_lt_is_Some_2 items i) as [x Hx]; [lia|].
  unfold settle. rewrite Hi, Hx.
  destruct (fn x i) as [r|t] eqn:Hfn.
  - left. unfold loopHead. simpl.
    destruct (currentIndex p <? length items)%nat eqn:Hmore; simpl.
    + apply Nat.ltb_lt in Hmore.
      split; [done|]. split.
      * constructor; simpl.
        -- rewrite length_insert. apply HI.
        -- lia.
        -- intros wid' j Hj.
           lookup_insert_cases wid' wid Hj.
           ++ simplify_eq. lia.
           ++ pose proof (inv_waiting p HI wid' j Hj). lia.
        -- intros j Hj.
           destruct (decide (j = currentIndex p)) as [->|Hnew].
           { right. exists wid.
             by rewrite list_lookup_insert_eq by (by eapply lookup_lt_Some). }
           destruct (decide (j = i)) as [->|Hji].
           { left. exists x, r. split; [done|]. split; [done|].
             rewrite list_lookup_insert_eq; [done|].
             rewrite (inv_results p HI). lia. }
           destruct (inv_claimed p HI j) as [(y & s & Hy & Hs & Hres)|[wid' Hw]];
             [lia| |].
           { left. exists y, s. split; [done|]. split; [done|].
             by rewrite list_lookup_insert_ne. }
           { right. exists wid'.
             rewrite list_lookup_insert_ne; [done|].
             intros ->. congruence. }
        -- intros wid' Hfin.
           lookup_insert_cases wid' wid Hfin.
           ++ done.
           ++ pose proof (inv_finished p HI wid' Hfin). lia.
        -- intros wid' t Hrj.
           lookup_insert_cases wid' wid Hrj.
           ++ done.
           ++ by apply (inv_rejected p HI wid' t).
      * unfold todo, waitingIds. simpl.
        pose proof (waitingFrom_length_insert (workers p) 0 wid i
                      (Waiting (currentIndex p)) Hi) as Hlen.
        simpl in Hlen. lia.
    + apply Nat.ltb_ge in Hmore.
      split; [done|]. split.
      * constructor; simpl.
        -- rewrite length_insert. apply HI.
        -- lia.
        -- intros wid' j Hj.
           lookup_insert_cases wid' wid Hj.
           ++ done.
           ++ by apply (inv_waiting p HI wid' j).
        -- intros j Hj.
           destruct (decide (j = i)) as [->|Hji].
           { left. exists x, r. split; [done|]. split; [done|].
             rewrite list_lookup_insert_eq; [done|].
             rewrite (inv_results p HI). lia. }
           destruct (inv_claimed p HI j) as [(y & s & Hy & Hs & Hres)|[wid' Hw]];
             [lia| |].
           { left. exists y, s. split; [done|]. split; [done|].
             by rewrite list_lookup_insert_ne. }
           { right. exists wid'.
             rewrite list_lookup_insert_ne; [done|].
             intros ->. congruence. }
        -- intros wid' Hfin. lia.
        -- intros wid' t Hrj.
           lookup_insert_cases wid' wid Hrj.
           ++ done.
           ++ by apply (inv_rejected p HI wid' t).
      * unfold todo, waitingIds. simpl.
        pose proof (waitingFrom_length_insert (workers p) 0 wid i
                      Finished Hi) as Hlen.
        simpl in Hlen. lia.
  - right. exists t. simpl. rewrite Hrej. split; [done|].
    by exists i, x.
Qed.

Lemma settle_rejection_sticky (p : Pool R) (wid : nat) (t : Thrown) :
  rejection p = Some t -> rejection (settle fn items wid p) = Some t.
Proof.
  intros Hrej. unfold settle.
  destruct (workers p !! wid) as [[i| |]|]; try done.
  destruct (items !! i) as [x|]; [|done].
  destruct (fn x i); [|by simpl; rewrite Hrej].
  unfold loopHead. simpl.
  by destruct (currentIndex p <? length items)%nat.
Qed.

Lemma run_rejection_sticky (schedule : list nat) :
  forall (p : Pool R) (t : Thrown),
    rejection p = Some t -> rejection (run fn items schedule p) = Some t.
Proof.
  induction schedule as [|c schedule IH]; intros p t Hrej; simpl; [done|].
  destruct (waitingIds p); [done|].
  by apply IH, settle_rejection_sticky.
Qed.

Lemma settle_rejection (p : Pool R) (wid : nat) :
  rejection (settle fn items wid p) =
    match rejection p, pendingCall fn items wid p with
    | Some first, _ => Some first
    | None, Some (_, Throws t) => Some t
    | None, _ => None
    end.
Proof.
  unfold settle, pendingCall.
  destruct (workers p !! wid) as [[i| |]|]; try (by destruct (rejection p)).
  destruct (items !! i) as [x|]; [|by destruct (rejection p)].
  destruct (fn x i) as [r|t]; simpl; [|by destruct (rejection p)].
  unfold loopHead; simpl.
  destruct (currentIndex p <? length items)%nat; simpl;
    by destruct (rejection p).
Qed.

(** [Promise.all] rejects with the error of the first call to fail. *)
Lemma run_rejection (schedule : list nat) :
  forall p : Pool R,
    rejection p = None ->
    rejection (run fn items schedule p) =
      firstFailure (settlements fn items schedule p).
Proof.
  induction schedule as [|c schedule IH]; intros p Hrej;
    cbn [run settlements]; [done|].
  destruct (waitingIds p) as [|first others]; [done|].
  set (wid := nth (c mod length (first :: others)) (first :: others) first).
  pose proof (settle_rejection p wid) as Hsettle. rewrite Hrej in Hsettle.
  destruct (pendingCall fn items wid p) as [[i [r|t]]|].
  - cbn [firstFailure]. by apply IH.
  - cbn [firstFailure]. by apply run_rejection_sticky.
  - by apply IH.
Qed.

Lemma settlements_sound (schedule : list nat) :
  forall (p : Pool R) (j : nat) (o : Outcome R),
    (j, o) ∈ settlements fn items schedule p ->
    exists y, items !! j = Some y /\ o = fn y j.
Proof.
  induction schedule as [|c schedule IH]; intros p j o;
    cbn [settlements]; [by intros ?%elem_of_nil|].
  destruct (waitingIds p) as [|first others]; [by intros ?%elem_of_nil|].
  set (wid := nth (c mod length (first :: others)) (first :: others) first).
  destruct (pendingCall fn items wid p) as [[i o']|] eqn:Hcall; [|apply IH].
  intros [Hhere|Hlater]%elem_of_cons; [|by eapply IH].
  injection Hhere as -> ->.
  unfold pendingCall in Hcall.
  destruct (workers p !! wid) as [[k| |]|]; try done.
  destruct (items !! k) as [y|] eqn:Hy; [|done].
  injection Hcall as <- <-. by exists y.
Qed.

Lemma run_complete (schedule : list nat) :
  forall p : Pool R,
    Inv fn items p -> rejection p = None -> (todo items p <= length schedule)%nat ->
    (rejection (run fn items schedule p) = None /\
     Inv fn items (run fn items schedule p) /\
     waitingIds (run fn items schedule p) = []) \/
    (exists t, rejection (run fn items schedule p) = Some t /\ itemError fn items t).
Proof.
  induction schedule as [|c schedule IH]; intros p HI Hrej Htodo; cbn [run].
  - left. split; [done|]. split; [done|].
    unfold todo in Htodo. simpl in Htodo.
    destruct (waitingIds p); [done|simpl in Htodo; lia].
  - destruct (waitingIds p) as [|first others] eqn:Hids; [by left|].
    set (wid := nth (c mod length (first :: others)) (first :: others) first).
    assert (wid ∈ waitingIds p) as Hwid
      by (rewrite Hids; apply chosen_is_waiting).
    destruct (settle_step p wid HI Hrej Hwid)
      as [(Hrej' & HI' & Htodo')|(t & Ht & Herr)].
    + fold wid. apply IH; [done|done|]. simpl in Htodo. lia.
    + right. exists t. split; [|done]. by apply run_rejection_sticky.
Qed.

Lemma spawn_workers (count : nat) :
  forall p : Pool R,
    (currentIndex p + count <= length items)%nat ->
    spawn items count p =
      {| results := results p;
         currentIndex := (currentIndex p + count)%nat;
         workers := workers p ++ map Waiting (seq (currentIndex p) count);
         rejection := rejection p |}.
Proof.
  induction count as [|count IH]; intros p Hle; simpl.
  - rewrite Nat.add_0_r, app_nil_r. by destruct p.
  - unfold loopHead.
    assert ((currentIndex p <? length items)%nat = true) as ->
      by (apply Nat.ltb_lt; lia).
    rewrite IH by (simpl; lia). simpl.
    rewrite <- app_assoc. f_equal. lia.
Qed.

Lemma spawn_start (count : nat) :
  (1 <= count <= length items)%nat ->
  let p := spawn items count (start items) in
  Inv fn items p /\ rejection p = None /\ todo items p = length items /\ workers p <> [].
Proof.
  intros Hcount. cbv zeta.
  rewrite spawn_workers by (simpl; lia). simpl.
  split; [|split; [done|split]].
  - constructor; simpl.
    + apply length_replicate.
    + lia.
    + intros wid i Hi.
      apply list_lookup_fmap_Some in Hi as (j & Heq & Hj).
      apply lookup_seq in Hj. simplify_eq. lia.
    + intros i Hi. right. exists i.
      rewrite list_lookup_fmap, lookup_seq_lt by done. done.
    + intros wid Hfin.
      by apply list_lookup_fmap_Some in Hfin as (j & Heq & Hj).
    + intros wid t Hrj.
      by apply list_lookup_fmap_Some in Hrj as (j & Heq & Hj).
  - unfold todo, waitingIds. simpl.
    rewrite waitingFrom_map_Waiting, length_seq. lia.
  - destruct count; [lia|done].
Qed.

(** A pool in which nothing failed and nothing is pending has every slot
    filled with its item's value. *)
Lemma quiescent_results (p : Pool R) :
  Inv fn items p -> waitingIds p = [] -> workers p <> [] ->
  forallb isFinished (workers p) = true /\
  forall i x, items !! i = Some x ->
    exists r, fn x i = Returns r /\ results p !! i = Some (Some r).
Proof.
  intros HI Hnone Hsome.
  assert (forall wid i, workers p !! wid <> Some (Waiting i)) as Hnowait.
  { intros wid i Hi.
    assert (wid ∈ waitingIds p) as Hin.
    { apply waitingFrom_elem. split; [lia|]. exists i.
      by rewrite Nat.sub_0_r. }
    rewrite Hnone in Hin. by apply elem_of_nil in Hin. }
  assert (forall wid w, workers p !! wid = Some w -> w = Finished) as Hall.
  { intros wid [i| |t] Hw; [by apply Hnowait in Hw|done|].
    by apply (inv_rejected p HI) in Hw. }
  split.
  - apply forallb_forall. intros w Hw.
    apply list_elem_of_In, list_elem_of_lookup in Hw as [wid Hw].
    by rewrite (Hall wid w Hw).
  - intros i x Hx.
    assert (exists w, workers p !! 0%nat = Some w) as [w Hw0]
      by (destruct (workers p); [done|by eexists]).
    assert (currentIndex p = length items) as Hdone.
    { apply (inv_finished p HI 0%nat). by rewrite Hw0, (Hall 0%nat w Hw0). }
    destruct (inv_claimed p HI i) as [(y & r & Hy & Hr & Hres)|[wid Hw]].
    + rewrite Hdone. by eapply lookup_lt_Some.
    + simplify_eq. by exists r.
    + by apply Hnowait in Hw.
Qed.

Lemma settle_workers_length (p : Pool R) (wid : nat) :
  length (workers (settle fn items wid p)) = length (workers p).
Proof.
  unfold settle.
  destruct (workers p !! wid) as [[i| |]|]; try done.
  destruct (items !! i) as [x|]; [|done].
  destruct (fn x i) as [r|t].
  - unfold loopHead. cbn [currentIndex].
    destruct (currentIndex p <? length items)%nat; simpl;
      by rewrite length_insert.
  - simpl. by rewrite length_insert.
Qed.

Lemma run_workers_length (schedule : list nat) :
  forall p : Pool R,
    length (workers (run fn items schedule p)) = length (workers p).
Proof.
  induction schedule as [|c schedule IH]; intros p; cbn [run]; [done|].
  destruct (waitingIds p); [done|].
  by rewrite IH, settle_workers_length.
Qed.
End Pool.

Lemma workerCount_bounds {T : Type} (items : list T) (concurrency : Z) :
  1 <= concurrency -> items <> [] ->
  (1 <= workerCount items concurrency <= length items)%nat.
Proof.
  intros Hc Hne. unfold workerCount.
  destruct items; [done|]. simpl length. lia.
Qed.

(** The pool when [Promise.all] settles, for a non-empty input. *)
Lemma pool_settles {T R : Type} (fn : T -> nat -> Outcome R)
    (items : list T) (concurrency : Z) (schedule : list nat) :
  1 <= concurrency -> items <> [] ->
  (length items <= length schedule)%nat ->
  let p := run fn items schedule
             (spawn items (workerCount items concurrency) (start items)) in
  (allSettled p = Some (Returns (results p)) /\
   length (results p) = length items /\
   forall i x, items !! i = Some x ->
     exists r, fn x i = Returns r /\ results p !! i = Some (Some r)) \/
  (exists t, allSettled p = Some (Throws t) /\ itemError fn items t).
Proof.
  intros Hc Hne Hlen p.
  destruct (spawn_start fn items (workerCount items concurrency))
    as (HI & Hrej & Htodo & Hws); [by apply workerCount_bounds|].
  destruct (run_complete fn items schedule _ HI Hrej)
    as [(Hrej' & HI' & Hquiet)|(t & Ht & Herr)]; [lia| |].
  - left. fold p in Hrej', HI', Hquiet.
    destruct (quiescent_results fn items p HI' Hquiet) as [Hfin Hres].
    { intros Hnil. apply Hws.
      apply length_zero_iff_nil. apply length_zero_iff_nil in Hnil.
      unfold p in Hnil. by rewrite run_workers_length in Hnil. }
    unfold allSettled. rewrite Hrej', Hfin.
    split; [done|]. split; [apply HI'|done].
  - right. exists t. fold p in Ht. unfold allSettled. by rewrite Ht.
Qed.

Lemma firstFailure_split {R : Type} (calls : list (nat * Outcome R))
    (t : Thrown) :
  firstFailure calls = Some t ->
  exists before j after,
    calls = before ++ (j, Throws t) :: after /\ firstFailure before = None.
Proof.
  induction calls as [|[i [r|t']] calls IH]; cbn [firstFailure]; [done| |].
  - intros (before & j & after & -> & Hnone)%IH.
    by exists ((i, Returns r) :: before), j, after.
  - intros [= ->]. by exists [], i, calls.
Qed.

(** The pool a call of [withConcurrency] starts from: every worker has
    claimed its first item and waits for its call. *)
Lemma spawned_rejection {T R : Type} (items : list T) (count : nat) :
  forall p : Pool R, rejection (spawn items count p) = rejection p.
Proof.
  induction count as [|count IH]; intros p; simpl; [done|].
  unfold loopHead.
  by destruct (currentIndex p <? length items)%nat; rewrite IH.
Qed.

(** C7, as the specification words it, fails twice.  With a limit of 0
    no worker starts, and the call returns an array of empty slots.  And
    when two invocations fail, the batch fails with the error of the one
    that fails first; the error of the other one does not reach the
    caller. *)
Lemma withConcurrency_holes_and_dropped_error :
  (withConcurrency timesTen [1; 2; 3] 0 [0; 0; 0]%nat =
     Some (Returns [None; None; None]) /\
   withConcurrency timesTen [1; 2; 3] 0 [0; 0; 0]%nat <>
     Some (Returns (imap (fun _ x => Some (x * 10)) [1; 2; 3]))) /\
  (failsAtIndex 1 0%nat = Throws (ThrownError (newError "item 0")) /\
   failsAtIndex 2 1%nat = Throws (ThrownError (newError "item 1")) /\
   settlements failsAtIndex [1; 2] [1; 0]%nat
     (spawn [1; 2] (workerCount [1; 2] 2) (start [1; 2])) =
     [(1%nat, Throws (ThrownError (newError "item 1")));
      (0%nat, Throws (ThrownError (newError "item 0")))] /\
   withConcurrency failsAtIndex [1; 2] 2 [1; 0]%nat =
     Some (Throws (ThrownError (newError "item 1"))) /\
   withConcurrency failsAtIndex [1; 2] 2 [1; 0]%nat <>
     Some (Throws (ThrownError (newError "item 0")))).
Proof.
  split; [split; [reflexivity|discriminate]|].
  split; [reflexivity|]. split; [reflexivity|]. split; [reflexivity|].
  split; [reflexivity|]. vm_compute. discriminate.
Qed.

(** C7, amended.  For every input sequence, per-item function and
    concurrency limit of at least 1, and for every order in which the
    pending invocations settle: when every invocation succeeds, the result
    is the input mapped in input order; when the function fails for some
    item, the whole call fails, and the error that reaches the caller is
    the error of the first invocation to fail: among the invocations in
    the order in which they settle, none before it has failed. *)
Theorem withConcurrency_maps_in_order {T R : Type}
    (fn : T -> nat -> Outcome R) (items : list T) (concurrency : Z)
    (schedule : list nat) :
  1 <= concurrency ->
  (length items <= length schedule)%nat ->
  (forall f : T -> nat -> R,
      (forall i x, items !! i = Some x -> fn x i = Returns (f x i)) ->
      withConcurrency fn items concurrency schedule =
        Some (Returns (imap (fun i x => Some (f x i)) items))) /\
  (forall i x t,
      items !! i = Some x -> fn x i = Throws t ->
      exists j y t' before after,
        settlements fn items schedule
          (spawn items (workerCount items concurrency) (start items)) =
          before ++ (j, Throws t') :: after /\
        firstFailure before = None /\
        items !! j = Some y /\ fn y j = Throws t' /\
        withConcurrency fn items concurrency schedule = Some (Throws t')).
Proof.
  intros Hc Hlen.
  destruct (decide (items = [])) as [->|Hne].
  { split; [done|]. by intros i x t Hx. }
  assert (withConcurrency fn items concurrency schedule =
          allSettled (run fn items schedule
            (spawn items (workerCount items concurrency) (start items))))
    as -> by (by destruct items).
  destruct (pool_settles fn items concurrency schedule Hc Hne Hlen)
    as [(Hall & Hsize & Hres)|(t & Hall & _)].
  - rewrite Hall. split.
    + intros f Hf. do 2 f_equal.
      apply list_eq. intros i. rewrite list_lookup_imap.
      destruct (items !! i) as [x|] eqn:Hx; simpl.
      * destruct (Hres i x Hx) as (r & Hr & ->).
        rewrite (Hf i x Hx) in Hr. by simplify_eq.
      * apply lookup_ge_None. rewrite Hsize. by apply lookup_ge_None.
    + intros i x t Hx Ht.
      destruct (Hres i x Hx) as (r & Hr & _). congruence.
  - assert (firstFailure
              (settlements fn items schedule
                 (spawn items (workerCount items concurrency) (start items)))
            = Some t) as Hfirst.
    { rewrite <- (run_rejection fn items schedule)
        by (by rewrite spawned_rejection).
      revert Hall. unfold allSettled.
      destruct (rejection (run fn items schedule _)) as [t'|];
        [by intros [= ->]|].
      by destruct (forallb isFinished _). }
    destruct (firstFailure_split _ t Hfirst)
      as (before & j & after & Hsplit & Hnone).
    destruct (settlements_sound fn items schedule
                (spawn items (workerCount items concurrency) (start items))
                j (Throws t))
      as (y & Hy & Hfail).
    { rewrite Hsplit. apply elem_of_app. right. apply elem_of_cons. by left. }
    rewrite Hall. split.
    + intros f Hf. rewrite (Hf j y Hy) in Hfail. done.
    + intros i x t0 Hx Ht0. by exists j, y, t, before, after.
Qed.

Lemma withConcurrency_maps_in_order_witness :
  withConcurrency timesTen [1; 2; 3] 2 [1; 0; 1]%nat =
    Some (Returns [Some 10; Some 20; Some 30]).
Proof.
  apply (proj1 (withConcurrency_maps_in_order timesTen [1; 2; 3] 2
                  [1; 0; 1]%nat ltac:(lia) ltac:(simpl; lia))
           (fun x _ => x * 10)).
  reflexivity.
Defined.

End ConcurrencyFacts.

(** * Further properties *)

(** ** Token helpers *)

Module TokensMore.
Import JsString Errors Eff World Tokens StringFacts Samples.

(** X1.  The token storage of [createTokenStorage] behaves as a map from
    keys to credentials: a saved credential is read back under its key;
    saving or deleting under one key leaves every other key as it was; a
    deleted key reads as absent; deleting an absent key changes nothing; and
    nothing is read back after [clearTokens]. *)
Theorem storage_round_trip (store : gmap string AuthToken)
    (key other : string) (t : AuthToken) :
  getToken key (saveToken key t store) = Some t /\
  (other <> key ->
   getToken other (saveToken key t store) = getToken other store) /\
  getToken key (deleteToken key store) = None /\
  (other <> key ->
   getToken other (deleteToken key store) = getToken other store) /\
  (getToken key store = None -> deleteToken key store = store) /\
  getToken key (clearTokens store) = None.
Proof.
  unfold getToken, saveToken, deleteToken, clearTokens.
  split; [apply lookup_insert_eq|].
  split; [intros Hne; by apply lookup_insert_ne|].
  split; [apply lookup_delete_eq|].
  split; [intros Hne; by apply lookup_delete_ne|].
  split; [apply delete_id|apply lookup_empty].
Qed.

Lemma storage_round_trip_witness :
  getToken "b" (saveToken "a" apiKeyToken ∅) = None /\
  deleteToken "a" (∅ : gmap string AuthToken) = ∅.
Proof.
  destruct (storage_round_trip ∅ "a" "b" apiKeyToken)
    as (_ & Hother & _ & _ & Hmissing & _).
  split.
  - rewrite Hother; [reflexivity|discriminate].
  - apply Hmissing. reflexivity.
Defined.

(** X2.  [isTokenExpired]: a credential whose [expiresAt] is 0 never
    counts as expired, and the clock is not read for it; any other credential
    counts as expired exactly when at most [thresholdSeconds] seconds remain
    until [expiresAt]; so a credential expired under a threshold is expired
    under every larger one. *)
Theorem isTokenExpired_threshold (t : AuthToken) (a b : Z) (w : World) :
  (expiresAt t = 0 -> isTokenExpired t a w = (Returns false, w)) /\
  (expiresAt t <> 0 ->
   (isTokenExpired t a w).1 =
     Returns (bool_decide
       (expiresAt t - nowSeconds (clock w (clockReads w)) <= a))) /\
  (a <= b ->
   (isTokenExpired t a w).1 = Returns true ->
   (isTokenExpired t b w).1 = Returns true).
Proof.
  unfold isTokenExpired.
  destruct (expiresAt t =? 0) eqn:Hzero.
  - apply Z.eqb_eq in Hzero.
    split; [done|]. split; [done|]. intros _ Hexp. discriminate Hexp.
  - apply Z.eqb_neq in Hzero.
    split; [done|]. unfold bind, dateNow; simpl. split.
    + intros _. f_equal. case_bool_decide; [by apply Z.leb_le|by apply Z.leb_gt; lia].
    + intros Hab Hexp. f_equal. injection Hexp as Hexp.
      apply Z.leb_le in Hexp. apply Z.leb_le. lia.
Qed.

Lemma isTokenExpired_threshold_witness :
  (isTokenExpired freshToken 3600 sampleWorld).1 = Returns true /\
  isTokenExpired apiKeyToken 300 sampleWorld = (Returns false, sampleWorld).
Proof.
  destruct (isTokenExpired_threshold freshToken 3600 3600 sampleWorld)
    as (_ & Hreal & _).
  destruct (isTokenExpired_threshold apiKeyToken 300 300 sampleWorld)
    as (Hnever & _ & _).
  split.
  - rewrite Hreal; [reflexivity|discriminate].
  - apply Hnever. reflexivity.
Defined.

(** X3.  A credential with a non-empty access token that
    [isTokenExpired] does not report under some non-negative threshold is
    accepted by [validateToken] at the same clock reading. *)
Theorem not_near_expiry_is_valid (t : AuthToken) (threshold : Z) (w : World) :
  0 <= threshold ->
  truthyOpt (accessToken t) = true ->
  (isTokenExpired t threshold w).1 = Returns false ->
  (validateToken t w).1 = Returns true.
Proof.
  intros Hthr Hacc Hfresh. unfold validateToken. rewrite Hacc. simpl.
  unfold bind. revert Hfresh. unfold isTokenExpired.
  destruct (expiresAt t =? 0); [done|].
  unfold bind, dateNow; simpl. intros Hfresh. injection Hfresh as Hfresh.
  apply Z.leb_gt in Hfresh.
  assert ((expiresAt t - nowSeconds (clock w (clockReads w)) <=? 0) = false)
    as -> by (apply Z.leb_gt; lia).
  done.
Qed.

Lemma not_near_expiry_is_valid_witness :
  (validateToken freshToken sampleWorld).1 = Returns true.
Proof.
  apply (not_near_expiry_is_valid freshToken 300 sampleWorld).
  - lia.
  - reflexivity.
  - reflexivity.
Defined.

Lemma trimStart_first (s : string) (c : ascii) :
  firstChar (trimStart s) = Some c -> isWhiteSpace c = false.
Proof.
  induction s as [|d s IH]; simpl; [done|].
  destruct (isWhiteSpace d) eqn:Hd; [done|].
  simpl. intros [= <-]. done.
Qed.

Lemma trimEnd_last (s : string) (c : ascii) :
  lastChar (trimEnd s) = Some c -> isWhiteSpace c = false.
Proof.
  induction s as [|d s IH]; cbn [trimEnd]; [done|].
  destruct (trimEnd s) as [|e r] eqn:Ht.
  - simpl. destruct (isWhiteSpace d) eqn:Hd; simpl; [done|].
    intros [= <-]. done.
  - simpl. exact IH.
Qed.

Lemma trimEnd_first (s : string) (c : ascii) :
  firstChar s = Some c -> isWhiteSpace c = false ->
  firstChar (trimEnd s) = Some c.
Proof.
  destruct s as [|d s]; [done|]. simpl. intros [= ->] Hc.
  rewrite Hc, andb_false_r. done.
Qed.

Lemma trim_noOuterWhiteSpace (s : string) : noOuterWhiteSpace (trim s) = true.
Proof.
  unfold noOuterWhiteSpace, trim.
  destruct (firstChar (trimEnd (trimStart s))) as [a|] eqn:Hfirst; [|done].
  destruct (lastChar (trimEnd (trimStart s))) as [b|] eqn:Hlast; [|done].
  apply trimEnd_last in Hlast. rewrite Hlast.
  destruct (firstChar (trimStart s)) as [a'|] eqn:Hstart.
  - pose proof (trimStart_first _ _ Hstart) as Ha'.
    rewrite (trimEnd_first _ _ Hstart Ha') in Hfirst.
    injection Hfirst as <-. by rewrite Ha'.
  - destruct (trimStart s); [done|done].
Qed.

(** X4.  Whatever [extractTokenFromHeader] returns has no white space at
    either end. *)
Theorem extractTokenFromHeader_trimmed (header token : string) :
  extractTokenFromHeader header = Some token ->
  noOuterWhiteSpace token = true.
Proof.
  unfold extractTokenFromHeader.
  destruct (negb (truthy header)); [done|].
  destruct (startsWith header "Bearer ").
  - intros [= <-]. apply trim_noOuterWhiteSpace.
  - destruct (negb (includes header " ")); [|done].
    intros [= <-]. apply trim_noOuterWhiteSpace.
Qed.

Lemma extractTokenFromHeader_trimmed_witness :
  noOuterWhiteSpace "tok" = true.
Proof.
  apply (extractTokenFromHeader_trimmed "Bearer   tok  " "tok"). reflexivity.
Defined.
End TokensMore.

Module TokensMore2.
Import JsString Errors Eff World Tokens StringFacts TokensFacts Samples.

Lemma string_app_assoc (a b c : string) : (a +:+ b) +:+ c = a +:+ b +:+ c.
Proof.
  induction a as [|x a IH]; [done|].
  rewrite !app_cons. by rewrite IH.
Qed.

Lemma string_split_at (n : nat) :
  forall s, (n <= String.length s)%nat ->
    exists p q, s = p +:+ q /\ String.length p = n.
Proof.
  induction n as [|n IH]; intros s Hn.
  - by exists "", s.
  - destruct s as [|c s]; simpl in Hn; [lia|].
    destruct (IH s) as (p & q & -> & Hp); [lia|].
    exists (String c p), q. split; [done|]. simpl. by rewrite Hp.
Qed.

Lemma substring_prefix (p q : string) :
  String.substring 0 (String.length p) (p +:+ q) = p.
Proof.
  induction p as [|c p IH].
  - rewrite app_empty_l. simpl. by destruct q.
  - rewrite app_cons. simpl. by rewrite IH.
Qed.

Lemma substring_suffix (p q : string) (m : nat) :
  String.substring (String.length p) m (p +:+ q) = String.substring 0 m q.
Proof.
  induction p as [|c p IH]; [done|].
  rewrite app_cons. simpl. exact IH.
Qed.

(** X6.  For an access token of more than 8 characters, the masked
    form that [getTokenDetails] shows is the first four characters, three
    dots and the last four characters; the characters in between, at least
    one, are left out. *)
Theorem maskAccessToken_long (a : string) :
  8 < len a ->
  exists first4 middle last4,
    a = first4 +:+ middle +:+ last4 /\
    String.length first4 = 4%nat /\
    String.length last4 = 4%nat /\
    middle <> "" /\
    maskAccessToken a = first4 +:+ "..." +:+ last4.
Proof.
  intros Hlen. unfold len in Hlen.
  destruct (string_split_at 4 a) as (p & r & -> & Hp); [lia|].
  rewrite string_length_app, Hp in Hlen.
  destruct (string_split_at (String.length r - 4) r) as (mid & q & -> & Hmid);
    [lia|].
  rewrite string_length_app in Hlen, Hmid.
  assert (String.length q = 4%nat) as Hq by lia.
  exists p, mid, q. split; [done|]. split; [done|]. split; [done|].
  split; [destruct mid; [simpl in Hmid, Hlen; lia|done]|].
  unfold maskAccessToken, substring1, substring2, clamp, len.
  rewrite !string_length_app, Hp, Hq.
  set (k := String.length mid).
  replace (Z.min (Z.max 0 (Z.min 0 (Z.of_nat (4 + (k + 4)))))
                 (Z.max 0 (Z.min 4 (Z.of_nat (4 + (k + 4)))))) with 0 by lia.
  replace (Z.max (Z.max 0 (Z.min 0 (Z.of_nat (4 + (k + 4)))))
                 (Z.max 0 (Z.min 4 (Z.of_nat (4 + (k + 4))))) - 0)
    with 4 by lia.
  replace (Z.min (Z.max 0 (Z.min (Z.of_nat (4 + (k + 4)) - 4)
                                 (Z.of_nat (4 + (k + 4)))))
                 (Z.max 0 (Z.min (Z.of_nat (4 + (k + 4)))
                                 (Z.of_nat (4 + (k + 4))))))
    with (Z.of_nat (String.length (p +:+ mid)))
    by (rewrite string_length_app, Hp; lia).
  replace (Z.max (Z.max 0 (Z.min (Z.of_nat (4 + (k + 4)) - 4)
                                 (Z.of_nat (4 + (k + 4)))))
                 (Z.max 0 (Z.min (Z.of_nat (4 + (k + 4)))
                                 (Z.of_nat (4 + (k + 4))))) -
           Z.of_nat (String.length (p +:+ mid)))
    with (Z.of_nat (String.length q))
    by (rewrite string_length_app, Hp, Hq; lia).
  rewrite !Nat2Z.id. change (Z.to_nat 0) with 0%nat.
  change (Z.to_nat 4) with (4%nat). rewrite <- Hp at 1.
  rewrite substring_prefix.
  rewrite <- (string_app_assoc p mid q), substring_suffix, substring_all.
  done.
Qed.

Lemma maskAccessToken_long_witness :
  exists first4 middle last4,
    "sk-ant-api03-0123456789" = first4 +:+ middle +:+ last4 /\
    String.length first4 = 4%nat /\
    String.length last4 = 4%nat /\
    middle <> "" /\
    maskAccessToken "sk-ant-api03-0123456789" = first4 +:+ "..." +:+ last4.
Proof. apply maskAccessToken_long. vm_compute. reflexivity. Defined.

Lemma includes_app_space (a b : string) : includes (a +:+ " " +:+ b) " " = true.
Proof.
  induction a as [|c a IH].
  - rewrite app_empty_l, app_cons. simpl. by destruct b.
  - rewrite app_cons. cbn [includes]. rewrite IH. apply orb_true_r.
Qed.

(** X5.  The round trip of C10 holds for Bearer only: when the header
    that [createAuthorizationHeader] builds for a credential with a non-empty
    [tokenType] does not start with ['Bearer '], [extractTokenFromHeader]
    rejects that header. *)
Theorem other_scheme_does_not_round_trip (t : AuthToken) :
  tokenType t <> "" ->
  startsWith (createAuthorizationHeader t) "Bearer " = false ->
  extractTokenFromHeader (createAuthorizationHeader t) = None.
Proof.
  intros Hty Hscheme. unfold extractTokenFromHeader. rewrite Hscheme.
  unfold createAuthorizationHeader in *.
  rewrite includes_app_space.
  destruct (tokenType t) as [|c s] eqn:Htt; [done|].
  simpl orElse. rewrite app_cons. done.
Qed.

Lemma other_scheme_does_not_round_trip_witness :
  extractTokenFromHeader
    (createAuthorizationHeader
       {| accessToken := Some "abc123"; refreshToken := None; expiresAt := 0;
          tokenType := "MAC"; scope := ""; id := None |}) = None.
Proof.
  apply other_scheme_does_not_round_trip; [discriminate|reflexivity].
Defined.

(** X7.  [getTokenDetails] never throws and does nothing to the outside
    world.  The record it returns never has a [refreshToken] entry, has the
    token type under [type], shows the access token in masked form only (and
    not at all when it is empty or absent), and for a never-expiring
    credential has [expires = 'Never'] and no [expiresIn]. *)
Theorem getTokenDetails_entries (toLocaleString : Z -> string)
    (t : AuthToken) (w : World) :
  exists details w',
    getTokenDetails toLocaleString t w = (Returns details, w') /\
    trace w' = trace w /\
    details !! "refreshToken" = None /\
    details !! "type" = Some (orElse (Some (tokenType t)) "Bearer") /\
    details !! "accessToken" =
      match accessToken t with
      | Some a => if truthy a then Some (maskAccessToken a) else None
      | None => None
      end /\
    (expiresAt t = 0 ->
     details !! "expires" = Some "Never" /\ details !! "expiresIn" = None).
Proof.
  unfold getTokenDetails, bind, dateNow, ret.
  destruct (expiresAt t =? 0) eqn:Hexp; simpl;
    [|destruct (0 <? expiresAt t - nowSeconds (clock w (clockReads w)))];
    destruct (truthy (scope t));
    destruct (id t) as [i|]; try destruct (truthy i);
    destruct (accessToken t) as [a|]; try destruct (truthy a);
    eexists _, _; (split; [reflexivity|]); simpl;
    (split; [reflexivity|]);
    repeat split; try (apply Z.eqb_neq in Hexp; congruence);
    by simplify_map_eq.
Qed.

Lemma getTokenDetails_entries_witness :
  exists details w',
    getTokenDetails (fun _ => "someday") apiKeyToken sampleWorld =
      (Returns details, w') /\
    details !! "expires" = Some "Never" /\ details !! "expiresIn" = None.
Proof.
  destruct (getTokenDetails_entries (fun _ => "someday") apiKeyToken sampleWorld)
    as (d & w' & Hrun & _ & _ & _ & _ & Hnever).
  exists d, w'. split; [exact Hrun|]. apply Hnever. reflexivity.
Defined.
End TokensMore2.

(** ** The OAuth flow engine *)

Module EffFacts.
Import Errors Eff.

Lemma bind_Returns {S A B : Type} (m : M S A) (k : A -> M S B)
    (s s' : S) (b : B) :
  bind m k s = (Returns b, s') ->
  exists a s1, m s = (Returns a, s1) /\ k a s1 = (Returns b, s').
Proof.
  unfold bind. destruct (m s) as [[a|t] s1]; [|done].
  intros H. by exists a, s1.
Qed.
End EffFacts.

Module OAuthMore.
Import JsString Errors Eff World Tokens OAuth StringFacts Samples Alphabet EffFacts OAuthFacts.

Lemma get_hasChar (s : string) :
  forall i c, String.get i s = Some c -> hasChar c s = true.
Proof.
  induction s as [|d s IH]; intros i c; [done|].
  destruct i as [|i]; simpl.
  - intros [= ->]. by rewrite Ascii.eqb_refl.
  - intros Hi. rewrite (IH i c Hi). apply orb_true_r.
Qed.

Lemma get_in_range (s : string) :
  forall i, (i < String.length s)%nat -> exists c, String.get i s = Some c.
Proof.
  induction s as [|d s IH]; intros i Hi; simpl in Hi; [lia|].
  destruct i as [|i]; simpl; [by eexists|]. apply IH. lia.
Qed.

Lemma allFrom_app (alphabet a b : string) :
  allFrom alphabet (a +:+ b) = allFrom alphabet a && allFrom alphabet b.
Proof.
  induction a as [|c a IH]; [done|].
  rewrite app_cons. simpl. rewrite IH. by rewrite andb_assoc.
Qed.

Lemma generateRandomString_from_spec (n : nat) :
  forall (result : string) (w : World),
    exists tail w',
      generateRandomString_from result n w = (Returns (result +:+ tail), w') /\
      String.length tail = n /\
      allFrom chars tail = true /\
      drawn w' = (drawn w + n)%nat /\
      trace w' = trace w.
Proof.
  induction n as [|n IH]; intros result w; cbn [generateRandomString_from].
  - exists "", w. split.
    + unfold ret. do 2 f_equal.
      clear. induction result as [|c r IH]; [done|].
      rewrite app_cons. by rewrite <- IH.
    + repeat split; simpl; lia.
  - unfold bind, randomIndex.
    set (i := (randomDraws w (drawn w) mod String.length chars)%nat).
    destruct (get_in_range chars i) as [c Hc].
    { apply Nat.mod_upper_bound. done. }
    set (w1 := {| randomDraws := randomDraws w; drawn := S (drawn w);
                  clock := clock w; clockReads := clockReads w;
                  validUrl := validUrl w; browser := browser w;
                  respond := respond w; nextTimer := nextTimer w;
                  trace := trace w |}).
    destruct (IH (result +:+ charAt chars i) w1)
      as (tail & w' & Hrun & Hlen & Hall & Hdrawn & Htrace).
    exists (String c tail), w'.
    unfold charAt in *. rewrite Hc in *.
    split.
    { rewrite Hrun. do 2 f_equal.
      clear. induction result as [|d r IH]; [done|].
      rewrite !app_cons. by rewrite IH. }
    split; [simpl; by rewrite Hlen|].
    split; [cbn [allFrom]; by rewrite Hall, (get_hasChar chars i c Hc)|].
    split; [rewrite Hdrawn; simpl; lia|by rewrite Htrace].
Qed.

(** X8.  [generateRandomString(n)] returns a string of exactly [n]
    characters, each one taken from the alphabet [chars]; it consumes
    exactly [n] random draws and does nothing else to the outside world. *)
Theorem generateRandomString_spec (n : nat) (w : World) :
  exists s w',
    generateRandomString n w = (Returns s, w') /\
    String.length s = n /\
    allFrom chars s = true /\
    drawn w' = (drawn w + n)%nat /\
    trace w' = trace w.
Proof.
  destruct (generateRandomString_from_spec n "" w)
    as (tail & w' & Hrun & Hrest).
  exists tail, w'. split; [exact Hrun|exact Hrest].
Qed.

Lemma completeFlow_result (config : OAuthConfig) (cb : Callback)
    (w w' : World) (r : AuthResult) :
  completeFlow config cb w = (Returns r, w') ->
  exists t, r = {| success := true; method := Some OAUTH; token := Some t;
                   state := AUTHENTICATED; error := None |}.
Proof.
  unfold completeFlow.
  destruct (negb (String.eqb (cb_state cb) (cb_receivedState cb))); [done|].
  intros H. apply bind_Returns in H as (t & w1 & _ & Hret).
  injection Hret as <- _. by exists t.
Qed.

Lemma performOAuthFlow_returns (config : OAuthConfig) (w : World) :
  exists r w',
    performOAuthFlow config w = (Returns r, w') /\
    method r = Some OAUTH /\
    ((success r = true /\ state r = AUTHENTICATED /\
      is_Some (token r) /\ error r = None) \/
     (success r = false /\ state r = FAILED /\
      token r = None /\ is_Some (error r))).
Proof.
  unfold performOAuthFlow, tryCatch.
  destruct (bind (awaitCallback config) _ w) as [[r|t] w1] eqn:Hbody.
  - apply bind_Returns in Hbody as (cb & w0 & _ & Hdone).
    apply completeFlow_result in Hdone as [t ->].
    eexists _, _. split; [reflexivity|]. split; [done|]. left. eauto.
  - eexists _, _. split; [reflexivity|]. split; [done|]. right.
    repeat split; eauto.
Qed.

(** X9.  [performOAuthFlow] never throws: whatever the browser, the
    callback and the token endpoint do, it returns a result for the OAUTH
    method that is either successful, with state AUTHENTICATED, a token and
    no error, or unsuccessful, with state FAILED, no token and an error
    message. *)
Theorem performOAuthFlow_never_throws (config : OAuthConfig) (w : World) :
  exists r w',
    performOAuthFlow config w = (Returns r, w') /\
    method r = Some OAUTH /\
    ((success r = true /\ state r = AUTHENTICATED /\
      is_Some (token r) /\ error r = None) \/
     (success r = false /\ state r = FAILED /\
      token r = None /\ is_Some (error r))).
Proof. apply performOAuthFlow_returns. Qed.
End OAuthMore.

Module OAuthMore2.
Import JsString Errors Eff World Tokens OAuth StringFacts Samples MoreSamples.
Import Alphabet EffFacts OAuthFacts OAuthMore.

(** X10.  When the callback arrives with the generated state and the
    token endpoint answers the exchange request with an OK response whose
    body parses, [performOAuthFlow] succeeds with the credential built from
    that body ([expiresAt] is now plus [expires_in || 3600], the token type
    defaults to Bearer and the scope to the empty string), and the exchange
    request is the one request it sent. *)
Theorem performOAuthFlow_success (config : OAuthConfig) (w w1 : World)
    (cb : Callback) (response : HttpResponse) (data : TokenResponse) :
  awaitCallback config w = (Returns cb, w1) ->
  cb_state cb = cb_receivedState cb ->
  respond w1 (trace w1)
    (exchangeRequest config (cb_code cb) (cb_codeVerifier cb)) =
    Returns response ->
  ok response = true ->
  json response = Returns data ->
  exists w2,
    performOAuthFlow config w =
      (Returns
         {| success := true; method := Some OAUTH;
            token := Some
              {| accessToken := access_token data;
                 refreshToken := refresh_token data;
                 expiresAt := nowSeconds (clock w1 (clockReads w1)) +
                              expiresInOrDefault (expires_in data);
                 tokenType := orElse (token_type data) "Bearer";
                 scope := orElse (scope_ data) "";
                 id := None |};
            state := AUTHENTICATED; error := None |}, w2) /\
    trace w2 =
      trace w1 ++
      [EvFetch (exchangeRequest config (cb_code cb) (cb_codeVerifier cb))] /\
    fetchCount (trace w2) = S (fetchCount (trace w)).
Proof.
  intros Hcb Hsame Hresp Hok Hjson.
  pose proof (NoFetch_awaitCallback config w) as Hnf.
  rewrite Hcb in Hnf. simpl in Hnf.
  unfold performOAuthFlow, tryCatch, bind. rewrite Hcb.
  unfold completeFlow. rewrite Hsame, String.eqb_refl. simpl.
  unfold exchangeCodeForToken, bind, fetch. rewrite Hresp, Hok.
  simpl. rewrite Hjson. simpl.
  eexists. split; [reflexivity|]. simpl. split; [reflexivity|].
  rewrite fetchCount_snoc. simpl. lia.
Qed.

Lemma performOAuthFlow_success_witness :
  exists r w2,
    performOAuthFlow DEFAULT_OAUTH_CONFIG echoWorld = (Returns r, w2) /\
    success r = true /\
    fetchCount (trace w2) = 1%nat.
Proof.
  edestruct (performOAuthFlow_success DEFAULT_OAUTH_CONFIG echoWorld)
    as (w2 & Hrun & _ & Hcount).
  - vm_compute. reflexivity.
  - vm_compute. reflexivity.
  - reflexivity.
  - reflexivity.
  - reflexivity.
  - eexists _, w2. split; [exact Hrun|]. split; [reflexivity|exact Hcount].
Defined.

(** X11.  [exchangeCodeForToken] on failure, after its one request: a
    response that is not OK makes it throw a UserError of category
    AUTHENTICATION whose message ends with the response text; a failure of
    [fetch] itself is rethrown as it is. *)
Theorem exchangeCodeForToken_failures (config : OAuthConfig)
    (code codeVerifier : string) (w : World) :
  let request := exchangeRequest config code codeVerifier in
  (forall response,
      respond w (trace w) request = Returns response ->
      ok response = false ->
      exists e w',
        exchangeCodeForToken config code codeVerifier w =
          (Throws (ThrownError e), w') /\
        category e = Some AUTHENTICATION /\
        message e = "Failed to exchange code for token: " +:+ text response /\
        trace w' = trace w ++ [EvFetch request]) /\
  (forall t,
      respond w (trace w) request = Throws t ->
      exists w',
        exchangeCodeForToken config code codeVerifier w = (Throws t, w') /\
        trace w' = trace w ++ [EvFetch request]).
Proof.
  intros request. split.
  - intros response Hresp Hok.
    unfold exchangeCodeForToken, bind, fetch. fold request.
    rewrite Hresp, Hok. simpl.
    eexists _, _. split; [reflexivity|]. by repeat split.
  - intros t Hresp.
    unfold exchangeCodeForToken, bind, fetch. fold request.
    rewrite Hresp. eexists. split; [reflexivity|done].
Qed.

Lemma exchangeCodeForToken_failures_witness :
  exists e w',
    exchangeCodeForToken DEFAULT_OAUTH_CONFIG "code" "verifier"
      invalidGrantWorld = (Throws (ThrownError e), w') /\
    message e = "Failed to exchange code for token: invalid_grant".
Proof.
  destruct (exchangeCodeForToken_failures DEFAULT_OAUTH_CONFIG "code"
              "verifier" invalidGrantWorld) as [Hrejected _].
  edestruct Hrejected as (e & w' & Hrun & _ & Hmsg & _).
  - reflexivity.
  - reflexivity.
  - exists e, w'. split; [exact Hrun|exact Hmsg].
Defined.

Lemma refreshOAuthToken_request (original : string)
    (config : OAuthConfig) (w : World) :
  let request := refreshRequest original config in
  exists w',
    ((exists t,
        refreshOAuthToken original config w = (Returns t, w') /\
        trace w' = trace w ++ [EvFetch request]) \/
     (exists cause,
        refreshOAuthToken original config w =
          (Throws (ThrownError (refreshFailure cause)), w') /\
        trace w' =
          trace w ++ [EvFetch request; EvLogError "Failed to refresh token" cause])) /\
    fetchCount (trace w') = S (fetchCount (trace w)).
Proof.
  intros request.
  unfold refreshOAuthToken, tryCatch, bind, fetch. fold request.
  destruct (respond w (trace w) request) as [response|t] eqn:Hresp.
  - destruct (ok response) eqn:Hok; simpl.
    + destruct (json response) as [data|t] eqn:Hjson; simpl.
      * eexists. split.
        -- left. eexists. split; [reflexivity|done].
        -- simpl. rewrite fetchCount_snoc. simpl. lia.
      * eexists. split.
        -- right. eexists. split; [reflexivity|]. simpl.
           by rewrite <- app_assoc.
        -- simpl. rewrite !fetchCount_snoc. simpl. lia.
    + eexists. split.
      * right. eexists. split; [reflexivity|]. simpl.
        by rewrite <- app_assoc.
      * simpl. rewrite !fetchCount_snoc. simpl. lia.
  - eexists. split.
    + right. eexists. split; [reflexivity|]. simpl.
      by rewrite <- app_assoc.
    + simpl. rewrite !fetchCount_snoc. simpl. lia.
Qed.

Lemma refreshOAuthToken_fetchCount (original : string)
    (config : OAuthConfig) (w : World) :
  fetchCount (trace (refreshOAuthToken original config w).2) =
    S (fetchCount (trace w)).
Proof.
  destruct (refreshOAuthToken_request original config w)
    as (w' & [(t & -> & _)|(cause & -> & _)] & Hcount); exact Hcount.
Qed.

(** X12.  [refreshOAuthToken] sends exactly one request, the refresh
    request, whatever the answer.  It then either returns a credential, or
    logs the failure and throws the UserError [refreshFailure] that wraps the
    cause. *)
Theorem refreshOAuthToken_one_request (original : string)
    (config : OAuthConfig) (w : World) :
  let request := refreshRequest original config in
  exists w',
    ((exists t,
        refreshOAuthToken original config w = (Returns t, w') /\
        trace w' = trace w ++ [EvFetch request]) \/
     (exists cause,
        refreshOAuthToken original config w =
          (Throws (ThrownError (refreshFailure cause)), w') /\
        trace w' =
          trace w ++ [EvFetch request; EvLogError "Failed to refresh token" cause])) /\
    fetchCount (trace w') = S (fetchCount (trace w)).
Proof. apply refreshOAuthToken_request. Qed.
End OAuthMore2.

Module OAuthMore3.
Import JsString Errors Eff World Tokens OAuth StringFacts Samples MoreSamples.
Import Alphabet EffFacts OAuthFacts OAuthMore.

Lemma generateRandomString_inv (n : nat) (w w' : World) (s : string) :
  generateRandomString n w = (Returns s, w') ->
  String.length s = n /\ trace w' = trace w.
Proof.
  intros Hrun.
  destruct (generateRandomString_from_spec n "" w)
    as (s0 & w0 & Hspec & Hlen & _ & _ & Htr).
  rewrite app_empty_l in Hspec. fold (generateRandomString n) in Hspec.
  rewrite Hrun in Hspec. injection Hspec as -> ->. done.
Qed.

Lemma newURL_inv (s u : string) (w w' : World) :
  newURL s w = (Returns u, w') -> u = s /\ w' = w.
Proof.
  unfold newURL, bind, get. destruct (validUrl w s); [|done].
  by intros [= -> ->].
Qed.

(** The query parameters [buildAuthorizationUrl] appends. *)
Lemma buildAuthorizationUrl_inv (config : OAuthConfig)
    (state codeChallenge base : string) (query : list (string * string))
    (w w' : World) :
  buildAuthorizationUrl config state codeChallenge w = (Returns (base, query), w') ->
  base = authorizationEndpoint config /\ w' = w /\
  take 4 query =
    [("client_id", clientId config); ("redirect_uri", redirectUri config);
     ("response_type", responseType config); ("state", state)] /\
  (codeChallenge <> "" ->
   ("code_challenge", codeChallenge) ∈ query /\
   ("code_challenge_method", "S256") ∈ query) /\
  (codeChallenge = "" -> forall v, ("code_challenge", v) ∉ query).
Proof.
  unfold buildAuthorizationUrl. intros H.
  apply bind_Returns in H as (u & w0 & Hurl & Hret).
  apply newURL_inv in Hurl as [-> ->].
  injection Hret as <- <- <-.
  split; [done|]. split; [done|].
  destruct (scopes config) as [|sc rest]; destruct codeChallenge as [|c ch];
    simpl; (split; [reflexivity|]); split;
    try (intros Hne; by destruct Hne); try (intros Hnil; discriminate Hnil);
    try (intros _ v; rewrite list_elem_of_In; simpl; intuition congruence);
    intros _; split; apply list_elem_of_In; simpl; auto 10.
Qed.

Lemma openBrowser_inv (base : string) (query : list (string * string))
    (w w' : World) (u : unit) :
  openBrowser base query w = (Returns u, w') ->
  trace w' = trace w ++ [EvOpenBrowser base query].
Proof.
  unfold openBrowser. destruct (browser w (trace w)); [done|].
  by intros [= _ <-].
Qed.

Lemma startLocalServerForCallback_inv (redirect code received : string)
    (w w' : World) :
  startLocalServerForCallback redirect w = (Returns (code, received), w') ->
  exists timer, trace w' = trace w ++ [EvSetTimeout timer 1000].
Proof.
  unfold startLocalServerForCallback. intros H.
  apply bind_Returns in H as (u & w0 & Hurl & H).
  apply newURL_inv in Hurl as [_ ->].
  apply bind_Returns in H as (timer & w1 & Htimer & H).
  apply bind_Returns in H as (c & w2 & Hc & H).
  apply bind_Returns in H as (r & w3 & Hr & H).
  injection H as _ _ <-.
  apply generateRandomString_inv in Hc as [_ Hc], Hr as [_ Hr].
  exists (nextTimer w). rewrite Hr, Hc.
  unfold setTimeout in Htimer. by injection Htimer as _ <-.
Qed.

Lemma generatePkceParams_inv (verifier challenge : string) (w wa : World) :
  generatePkceParams w = (Returns (verifier, challenge), wa) ->
  String.length verifier = 64%nat /\ challenge = verifier /\
  trace wa = trace w.
Proof.
  unfold generatePkceParams. intros H.
  apply bind_Returns in H as (v & wv & Hv & Hret).
  apply generateRandomString_inv in Hv as [Hv Htr].
  unfold ret in Hret. injection Hret as <- <- <-.
  split; [exact Hv|]. split; [reflexivity|exact Htr].
Qed.

Lemma pkce_params_inv (config : OAuthConfig) (verifier challenge : string)
    (w wa : World) :
  match usePkce config with
  | Some true => generatePkceParams
  | _ => ret ("", "")
  end w = (Returns (verifier, challenge), wa) ->
  trace wa = trace w /\
  (usePkce config = Some true ->
   String.length verifier = 64%nat /\ challenge = verifier) /\
  (usePkce config <> Some true -> verifier = "" /\ challenge = "").
Proof.
  destruct (usePkce config) as [[|]|]; cbv beta iota; intros Hpkce.
  - apply generatePkceParams_inv in Hpkce as (Hv & -> & Htr).
    split; [exact Htr|]. split; [intros _; split; [exact Hv|reflexivity]|].
    intros Hne. by destruct Hne.
  - unfold ret in Hpkce. injection Hpkce as <- <- <-.
    split; [reflexivity|]. split; [intros Hne; discriminate Hne|].
    intros _. split; reflexivity.
  - unfold ret in Hpkce. injection Hpkce as <- <- <-.
    split; [reflexivity|]. split; [intros Hne; discriminate Hne|].
    intros _. split; reflexivity.
Qed.

(** X13.  When [performOAuthFlow] gets as far as the callback, all it
    did to the outside world before is to open the browser once, at the
    authorization endpoint, and to arm the one-second timer of the simulated
    listener.  The query starts with [client_id], [redirect_uri],
    [response_type] and [state], in this order; the state has 32 characters.
    With PKCE the verifier has 64 characters and is itself sent as
    [code_challenge], with method [S256]; without PKCE the verifier is empty
    and no [code_challenge] is sent. *)
Theorem authorization_request (config : OAuthConfig) (w w1 : World)
    (cb : Callback) :
  awaitCallback config w = (Returns cb, w1) ->
  exists query timer,
    trace w1 =
      trace w ++ [EvOpenBrowser (authorizationEndpoint config) query;
                  EvSetTimeout timer 1000] /\
    take 4 query =
      [("client_id", clientId config); ("redirect_uri", redirectUri config);
       ("response_type", responseType config); ("state", cb_state cb)] /\
    String.length (cb_state cb) = 32%nat /\
    (usePkce config = Some true ->
     String.length (cb_codeVerifier cb) = 64%nat /\
     ("code_challenge", cb_codeVerifier cb) ∈ query /\
     ("code_challenge_method", "S256") ∈ query) /\
    (usePkce config <> Some true ->
     cb_codeVerifier cb = "" /\ forall v, ("code_challenge", v) ∉ query).
Proof.
  unfold awaitCallback. intros H.
  apply bind_Returns in H as ([verifier challenge] & wa & Hpkce & H).
  apply bind_Returns in H as (state & wb & Hstate & H).
  apply bind_Returns in H as ([base query] & wc & Hbuild & H).
  apply bind_Returns in H as (u & wd & Hopen & H).
  apply bind_Returns in H as ([code received] & we & Hserver & H).
  injection H as <- <-. simpl.
  apply generateRandomString_inv in Hstate as [Hlen Htb].
  apply buildAuthorizationUrl_inv in Hbuild as (-> & -> & Hhead & Hwith & Hwithout).
  apply openBrowser_inv in Hopen.
  apply startLocalServerForCallback_inv in Hserver as [timer Hserver].
  apply pkce_params_inv in Hpkce as (Hta & Hon & Hoff).
  exists query, timer.
  split; [by rewrite Hserver, Hopen, Htb, Hta, <- app_assoc|].
  split; [exact Hhead|]. split; [exact Hlen|]. split.
  - intros Hyes. destruct (Hon Hyes) as [H64 ->]. split; [exact H64|].
    apply Hwith. intros ->. simpl in H64. lia.
  - intros Hno. destruct (Hoff Hno) as [-> ->]. split; [reflexivity|].
    apply Hwithout. reflexivity.
Qed.

Lemma authorization_request_witness :
  exists cb w1 query timer,
    awaitCallback DEFAULT_OAUTH_CONFIG sampleWorld = (Returns cb, w1) /\
    trace w1 =
      [EvOpenBrowser "https://auth.anthropic.com/oauth2/auth" query;
       EvSetTimeout timer 1000] /\
    ("code_challenge_method", "S256") ∈ query.
Proof.
  assert (exists cb w1,
            awaitCallback DEFAULT_OAUTH_CONFIG sampleWorld = (Returns cb, w1))
    as (cb & w1 & Hrun) by (eexists _, _; vm_compute; reflexivity).
  destruct (authorization_request DEFAULT_OAUTH_CONFIG sampleWorld w1 cb Hrun)
    as (query & timer & Htrace & _ & _ & Hpkce & _).
  exists cb, w1, query, timer. split; [exact Hrun|]. split; [exact Htrace|].
  apply Hpkce. reflexivity.
Defined.
End OAuthMore3.

(** ** The exported authentication manager *)

Module AuthIndexMore.
Import JsString Errors Eff World Tokens OAuth AuthIndex StringFacts TokensFacts.
Import Samples MoreSamples Alphabet AuthIndexRefresh EffFacts OAuthFacts OAuthMore AuthIndexFacts.

(** X14.  [logout()] of [auth/index.ts] never throws and leaves the
    manager unauthenticated, with no token, no method and no stored
    credential, without touching the outside world; logging out once more
    changes nothing. *)
Theorem logout_idempotent (m : AuthManager) :
  exists m1,
    logout m = (Returns tt, m1) /\
    isAuthenticated m1 = false /\
    state_token m1 = None /\
    state_method m1 = None /\
    tokenStorage m1 !! AUTH_STORAGE_KEY = None /\
    world m1 = world m /\
    logout m1 = (Returns tt, m1).
Proof.
  destruct m as [cfg store ini auth tok meth err w].
  eexists. split; [reflexivity|]. simpl.
  split; [reflexivity|]. split; [reflexivity|]. split; [reflexivity|].
  split; [apply lookup_delete_eq|]. split; [reflexivity|].
  unfold logout, bind, modify, storageDelete, modify; simpl.
  unfold set_tokenStorage, deleteToken; simpl.
  rewrite delete_delete_eq. reflexivity.
Qed.

Lemma validateToken_returns (t : AuthToken) (w : World) :
  exists b w', validateToken t w = (Returns b, w') /\ trace w' = trace w.
Proof.
  unfold validateToken, isTokenExpired, bind, dateNow.
  destruct (negb (truthyOpt (accessToken t))); [by eexists _, _|].
  destruct (expiresAt t =? 0); simpl; [by eexists _, _|].
  destruct (_ <=? 0); by eexists _, _.
Qed.

(** X15.  [initialize()] of [auth/index.ts], on a manager that holds no
    token in memory, when the stored credential does not validate: no
    request is sent, even for a refreshable credential with auto-refresh on,
    because [refreshToken()] reads [state.token], which [initialize] has not
    set; the manager ends initialized and without a token.  The invalid
    credential stays in the store in that case, and is deleted from it
    otherwise. *)
Theorem initialize_never_refreshes_stored_token (m : AuthManager)
    (t : AuthToken) (w1 : World) :
  state_token m = None ->
  tokenStorage m !! AUTH_STORAGE_KEY = Some t ->
  validateToken t (world m) = (Returns false, w1) ->
  exists m',
    initialize m = (Returns (state_authenticated m), m') /\
    state_token m' = None /\
    state_initialized m' = true /\
    fetchCount (trace (world m')) = fetchCount (trace (world m)) /\
    tokenStorage m' =
      if optTruthy (autoRefresh (config m)) && hasRefreshToken t
      then tokenStorage m
      else delete AUTH_STORAGE_KEY (tokenStorage m).
Proof.
  intros Hheld Hstored Hinvalid.
  destruct (validateToken_returns t (world m)) as (b & w' & Hv & Htr).
  rewrite Hinvalid in Hv. injection Hv as <- <-.
  destruct m as [cfg store ini auth tok meth err w]. simpl in *. subst tok.
  unfold initialize, tryCatch, bind, storageGet, get, bind, ret, Tokens.getToken.
  unfold AUTH_STORAGE_KEY in *.
  simpl. rewrite Hstored. unfold io, zoom. simpl. rewrite Hinvalid. simpl.
  destruct (optTruthy (autoRefresh cfg) && hasRefreshToken t); simpl.
  - eexists. split; [reflexivity|]. simpl. by rewrite Htr.
  - eexists. split; [reflexivity|]. simpl. by rewrite Htr.
Qed.

Lemma initialize_never_refreshes_stored_token_witness :
  exists m',
    initialize expiredStore = (Returns false, m') /\
    tokenStorage m' = tokenStorage expiredStore /\
    fetchCount (trace (world m')) = 0%nat.
Proof.
  edestruct (initialize_never_refreshes_stored_token expiredStore expiredToken)
    as (m' & Hrun & _ & _ & Hfetch & Hstore).
  - reflexivity.
  - reflexivity.
  - vm_compute. reflexivity.
  - exists m'. split; [exact Hrun|]. split; [exact Hstore|exact Hfetch].
Defined.

(** X16.  [initialize()] of [auth/index.ts] with nothing stored only
    sets the [initialized] flag.  With a stored credential that validates,
    it adopts the credential: the manager is authenticated, with method
    OAUTH when the credential has a refresh token and API_KEY otherwise; the
    store and the event log are as before. *)
Theorem initialize_restores_valid_token (m : AuthManager) :
  (tokenStorage m !! AUTH_STORAGE_KEY = None ->
   initialize m = (Returns (state_authenticated m), set_initialized true m)) /\
  (forall t w1,
      tokenStorage m !! AUTH_STORAGE_KEY = Some t ->
      validateToken t (world m) = (Returns true, w1) ->
      exists m',
        initialize m = (Returns true, m') /\
        state_token m' = Some t /\
        isAuthenticated m' = true /\
        state_method m' = Some (if hasRefreshToken t then OAUTH else API_KEY) /\
        state_initialized m' = true /\
        tokenStorage m' = tokenStorage m /\
        trace (world m') = trace (world m)).
Proof.
  destruct m as [cfg store ini auth tok meth err w]. simpl. split.
  - intros Hnone.
    unfold initialize, tryCatch, bind, storageGet, get, bind, ret, Tokens.getToken.
    unfold AUTH_STORAGE_KEY in *.
    simpl. by rewrite Hnone.
  - intros t w1 Hstored Hvalid.
    destruct (validateToken_returns t w) as (b & w' & Hv & Htr).
    rewrite Hvalid in Hv. injection Hv as <- <-.
    unfold initialize, tryCatch, bind, storageGet, get, bind, ret, Tokens.getToken.
    unfold AUTH_STORAGE_KEY in *.
    simpl. rewrite Hstored. unfold io, zoom. simpl. rewrite Hvalid. simpl.
    eexists. split; [reflexivity|]. simpl. by rewrite Htr.
Qed.

Lemma initialize_restores_valid_token_witness :
  exists m',
    initialize
      {| config := DEFAULT_AUTH_CONFIG;
         tokenStorage := {[ AUTH_STORAGE_KEY := freshToken ]};
         state_initialized := false; state_authenticated := false;
         state_token := None; state_method := None; state_lastError := None;
         world := sampleWorld |} = (Returns true, m') /\
    state_method m' = Some OAUTH.
Proof.
  edestruct (initialize_restores_valid_token
               {| config := DEFAULT_AUTH_CONFIG;
                  tokenStorage := {[ AUTH_STORAGE_KEY := freshToken ]};
                  state_initialized := false; state_authenticated := false;
                  state_token := None; state_method := None;
                  state_lastError := None; world := sampleWorld |})
    as [_ Hvalid].
  edestruct (Hvalid freshToken) as (m' & Hrun & _ & _ & Hmeth & _).
  - reflexivity.
  - vm_compute. reflexivity.
  - exists m'. split; [exact Hrun|exact Hmeth].
Defined.

(** X17.  A key that [authenticateWithApiKey] of [auth/index.ts] accepts
    (trimmed length at least 10) survives in the token store, although the
    call rejects and leaves no authorization header: a following
    [initialize()] adopts the stored credential, after which the manager is
    authenticated with method API_KEY and [getAuthorizationHeader()] is
    ['Bearer '] followed by the key as it was given, not trimmed; what
    [extractTokenFromHeader] reads back from that header is the trimmed
    key. *)
Theorem api_key_header_after_initialize (apiKey : string) (m : AuthManager) :
  10 <= len (trim apiKey) ->
  exists t m1 m2,
    authenticateWithApiKey apiKey m = (Throws t, m1) /\
    getAuthorizationHeader m1 = None /\
    initialize m1 = (Returns true, m2) /\
    isAuthenticated m2 = true /\
    state_method m2 = Some API_KEY /\
    getAuthorizationHeader m2 = Some ("Bearer " +:+ apiKey) /\
    extractTokenFromHeader ("Bearer " +:+ apiKey) = Some (trim apiKey).
Proof.
  intros Hlen. rewrite authenticateWithApiKey_accepted_run by done.
  pose proof (truthy_of_trim_len apiKey ltac:(lia)) as Htruthy.
  destruct m as [cfg store ini auth tok meth err w].
  eexists _, _, _. split; [reflexivity|]. split; [reflexivity|].
  split.
  { unfold initialize, tryCatch, bind, storageGet, get, bind, ret,
      Tokens.getToken.
    unfold AUTH_STORAGE_KEY. simpl. rewrite lookup_insert_eq.
    unfold io, zoom, validateToken, isTokenExpired, truthyOpt.
    simpl. rewrite Htruthy. reflexivity. }
  split; [reflexivity|]. split; [reflexivity|]. split; [reflexivity|].
  unfold extractTokenFromHeader.
  change (truthy ("Bearer " +:+ apiKey)) with true.
  assert (startsWith ("Bearer " +:+ apiKey) "Bearer " = true) as ->.
  { unfold startsWith. rewrite !app_cons, app_empty_l. simpl. by destruct apiKey. }
  simpl negb. cbv iota. by rewrite substring1_bearer.
Qed.

Lemma api_key_header_after_initialize_witness :
  exists t m1 m2,
    authenticateWithApiKey "  sk-ant-api03-0123456789 "
      (newAuthManager DEFAULT_AUTH_CONFIG sampleWorld) = (Throws t, m1) /\
    getAuthorizationHeader m1 = None /\
    initialize m1 = (Returns true, m2) /\
    getAuthorizationHeader m2 = Some "Bearer   sk-ant-api03-0123456789 " /\
    extractTokenFromHeader "Bearer   sk-ant-api03-0123456789 " =
      Some "sk-ant-api03-0123456789".
Proof.
  destruct (api_key_header_after_initialize "  sk-ant-api03-0123456789 "
              (newAuthManager DEFAULT_AUTH_CONFIG sampleWorld))
    as (t & m1 & m2 & Hrun & Hnone & Hinit & _ & _ & Hheader & Hback).
  - vm_compute. discriminate.
  - exists t, m1, m2. split; [exact Hrun|]. split; [exact Hnone|].
    split; [exact Hinit|]. split; [exact Hheader|exact Hback].
Defined.

(** X18.  [authenticateWithOAuth] of [auth/index.ts] never throws.  When
    the flow fails, the token in memory, the authenticated flag, the method
    and the store are as before; when it succeeds, the returned credential
    is held in memory and stored under the storage key, and the manager is
    authenticated with method OAUTH. *)
Theorem authenticateWithOAuth_outcomes (c : option OAuthConfig) (m : AuthManager) :
  exists r m',
    authenticateWithOAuth c m = (Returns r, m') /\
    (success r = false ->
     state_token m' = state_token m /\
     state_authenticated m' = state_authenticated m /\
     state_method m' = state_method m /\
     tokenStorage m' = tokenStorage m) /\
    (success r = true ->
     exists t, token r = Some t /\
       state_token m' = Some t /\
       tokenStorage m' !! AUTH_STORAGE_KEY = Some t /\
       state_method m' = Some OAUTH /\
       isAuthenticated m' = true).
Proof.
  destruct m as [cfg store ini auth tok meth err w].
  unfold authenticateWithOAuth, tryCatch, bind, get, io, zoom. simpl.
  set (oc := match c with Some o => o | None => _ end).
  destruct (performOAuthFlow_returns oc w)
    as (r & w' & Hrun & _ & [(Hs & _ & [t Ht] & _)|(Hs & _ & Ht & [e He])]).
  - rewrite Hrun. simpl. rewrite Hs, Ht. simpl.
    eexists _, _. split; [reflexivity|]. simpl. split; [by rewrite Hs|].
    intros _. exists t. split; [done|]. split; [done|].
    split; [apply lookup_insert_eq|done].
  - rewrite Hrun. simpl. rewrite Hs, He. simpl.
    destruct (truthy e); simpl;
      (eexists _, _; split; [reflexivity|]; simpl;
       split; [done|by rewrite Hs]).
Qed.
End AuthIndexMore.

Module AuthIndexMore2.
Import JsString Errors Eff World Tokens OAuth AuthIndex StringFacts TokensFacts.
Import Samples MoreSamples Alphabet AuthIndexRefresh EffFacts OAuthFacts OAuthMore OAuthMore2 AuthIndexFacts.

Lemma index_refreshToken_run (m : AuthManager) (t : AuthToken) :
  state_token m = Some t -> hasRefreshToken t = true ->
  exists b m',
    refreshToken m = (Returns b, m') /\
    fetchCount (trace (world m')) = S (fetchCount (trace (world m))).
Proof.
  intros Htok Hrt. destruct m as [cfg store ini auth tok meth err w].
  simpl in *. subst tok.
  unfold refreshToken, bind, get. simpl.
  unfold hasRefreshToken, truthyOpt in Hrt.
  destruct (Tokens.refreshToken t) as [rt|]; [|done].
  rewrite Hrt. simpl. unfold tryCatch, bind, io, zoom. simpl.
  pose proof (refreshOAuthToken_fetchCount rt (oauthConfigOf cfg) w) as Hcount.
  destruct (refreshOAuthToken rt (oauthConfigOf cfg) w) as [[newToken|e] w'];
    simpl in *; eexists _, _; (split; [reflexivity|exact Hcount]).
Qed.

(** X19.  [checkAndRefreshToken()] never throws, and sends a request
    only when a token is held, auto-refresh is on, the method is OAUTH, the
    token has a refresh token, can expire, and is within
    [tokenRefreshThreshold || 300] seconds of its expiry.  When it sends no
    request it returns [false] and leaves the token, the authenticated flag
    and the store as they were. *)
Theorem checkAndRefreshToken_only_when_due (m : AuthManager) :
  exists b m',
    checkAndRefreshToken m = (Returns b, m') /\
    (fetchCount (trace (world m')) <> fetchCount (trace (world m)) ->
     exists t,
       state_token m = Some t /\
       optTruthy (autoRefresh (config m)) = true /\
       state_method m = Some OAUTH /\
       hasRefreshToken t = true /\
       expiresAt t <> 0 /\
       expiresAt t - nowSeconds (clock (world m) (clockReads (world m)))
         <= thresholdOr300 (config m)) /\
    (fetchCount (trace (world m')) = fetchCount (trace (world m)) ->
     b = false /\
     state_token m' = state_token m /\
     state_authenticated m' = state_authenticated m /\
     tokenStorage m' = tokenStorage m).
Proof.
  unfold checkAndRefreshToken, bind, get.
  destruct (state_token m) as [t|] eqn:Htok;
    [|by eexists _, _; split; [reflexivity|]].
  destruct (optTruthy (autoRefresh (config m))) eqn:Hauto; simpl;
    [|by eexists _, _; split; [reflexivity|]; rewrite Htok].
  destruct (state_method m) as [[|]|] eqn:Hmeth; simpl;
    try (by eexists _, _; split; [reflexivity|]; rewrite Htok).
  destruct (hasRefreshToken t) eqn:Hrt; simpl;
    [|by eexists _, _; split; [reflexivity|]; rewrite Htok].
  unfold io, zoom, isTokenExpired.
  destruct (expiresAt t =? 0) eqn:Hnever; simpl.
  { eexists _, _. split; [reflexivity|]. simpl. by rewrite Htok. }
  unfold bind, dateNow. simpl.
  destruct (_ <=? thresholdOr300 (config m)) eqn:Hdue; simpl.
  - destruct (index_refreshToken_run
                (set_world {| randomDraws := randomDraws (world m);
                              drawn := drawn (world m);
                              clock := clock (world m);
                              clockReads := S (clockReads (world m));
                              validUrl := validUrl (world m);
                              browser := browser (world m);
                              respond := respond (world m);
                              nextTimer := nextTimer (world m);
                              trace := trace (world m) |} m) t Htok Hrt)
      as (b & m' & Hrun & Hcount).
    rewrite Hrun. exists b, m'. split; [reflexivity|]. simpl in Hcount.
    split; [|lia].
    intros _. exists t. split; [done|]. split; [done|]. split; [done|].
    split; [done|]. split; [by apply Z.eqb_neq|by apply Z.leb_le].
  - eexists _, _. split; [reflexivity|]. simpl. by rewrite Htok.
Qed.
End AuthIndexMore2.

(** ** The event-emitting authentication manager *)

Module ManagerMore.
Import JsString Errors Eff World Tokens OAuth Manager StringFacts.
Import Samples MoreSamples Alphabet EffFacts OAuthFacts OAuthMore OAuthMore2 ManagerEvents.

Lemma setState_run (s : AuthState) (m : AuthManager) :
  setState s m =
    (Returns tt,
     set_world (if bool_decide (state m = s) then world m
                else emitEvent (EvEmit STATE_CHANGED) (world m))
       (set_state s m)).
Proof.
  destruct m as [st store tok timer cfg w].
  unfold setState, bind, get. simpl.
  case_bool_decide as Hst; simpl; [by subst st|done].
Qed.

Ltac msimpl :=
  unfold set_world, set_state, set_currentToken, set_tokenStorage,
    set_refreshTimer, deleteToken, saveToken, emitEvent; simpl.

Lemma logout_run (m : AuthManager) :
  logout m =
    (Returns tt,
     {| state := INITIAL;
        tokenStorage := delete tokenKey (tokenStorage m);
        currentToken := None; refreshTimer := None; config := config m;
        world :=
          let w1 :=
            match refreshTimer m with
            | Some old => emitEvent (EvClearTimeout old) (world m)
            | None => world m
            end in
          let w2 :=
            if bool_decide (state m = INITIAL) then w1
            else emitEvent (EvEmit STATE_CHANGED) w1 in
          emitEvent (EvEmit LOGGED_OUT) w2 |}).
Proof.
  destruct m as [st store tok timer cfg w].
  unfold logout, clearRefreshTimer, bind, get. simpl.
  destruct timer as [old|]; simpl; rewrite setState_run; simpl;
    case_bool_decide; reflexivity.
Qed.

Ltac msimpl_in H :=
  unfold set_world, set_state, set_currentToken, set_tokenStorage,
    set_refreshTimer, deleteToken, saveToken, emitEvent in H; simpl in H.

(** [logout()] when no listener is registered. *)
Lemma logout_silent (m : AuthManager) :
  exists m1 m2,
    logout m = (Returns tt, m1) /\
    state m1 = INITIAL /\
    currentToken m1 = None /\
    refreshTimer m1 = None /\
    tokenStorage m1 = delete tokenKey (tokenStorage m) /\
    isAuthenticated m1 = false /\
    getAuthorizationHeader m1 = None /\
    trace (world m1) =
      trace (world m) ++ cancelled (refreshTimer m) ++
      stateChange (state m) INITIAL ++ [EvEmit LOGGED_OUT] /\
    logout m1 = (Returns tt, m2) /\
    trace (world m2) = trace (world m1) ++ [EvEmit LOGGED_OUT] /\
    tokenStorage m2 = tokenStorage m1 /\
    state m2 = INITIAL /\ currentToken m2 = None /\ refreshTimer m2 = None.
Proof.
  eexists _, _. split; [apply logout_run|].
  rewrite logout_run. cbn [state currentToken refreshTimer tokenStorage world].
  repeat (split; [reflexivity|]).
  split.
  { destruct (refreshTimer m) as [old|]; unfold stateChange, cancelled;
      case_bool_decide; simpl; rewrite <- ?app_assoc, ?app_nil_r; reflexivity. }
  split; [reflexivity|]. simpl.
  split; [reflexivity|]. split; [apply delete_delete_eq|].
  repeat split.
Qed.

Lemma fetchCount_app (l1 l2 : list Event) :
  fetchCount (l1 ++ l2) = (fetchCount l1 + fetchCount l2)%nat.
Proof. unfold fetchCount. by rewrite List.filter_app, length_app. Qed.

Lemma scheduleTokenRefresh_frame (m : AuthManager) :
  exists m',
    scheduleTokenRefresh m = (Returns tt, m') /\
    state m' = state m /\
    tokenStorage m' = tokenStorage m /\
    currentToken m' = currentToken m /\
    config m' = config m /\
    fetchCount (trace (world m')) = fetchCount (trace (world m)) /\
    (forall t, currentToken m = Some t -> hasRefreshToken t = true ->
       refreshTimer m' = Some (nextTimer (world m))) /\
    (forall t, currentToken m = Some t -> hasRefreshToken t = false ->
       refreshTimer m' = None).
Proof.
  destruct m as [st store tok timer cfg w].
  unfold scheduleTokenRefresh, clearRefreshTimer, bind, get. simpl.
  destruct timer as [old|], tok as [t|]; simpl;
    try destruct (hasRefreshToken t) eqn:Hrt; simpl;
    eexists; (split; [reflexivity|]); simpl;
    rewrite ?fetchCount_snoc; simpl; rewrite ?Nat.add_0_r;
    do 5 (split; [reflexivity|]);
    split; intros t' Ht' Hrt'; simplify_eq; congruence.
Qed.

Lemma refreshOAuthToken_Returns_inv (rt : string) (cfg : OAuthConfig)
    (w w' : World) (t : AuthToken) :
  refreshOAuthToken rt cfg w = (Returns t, w') ->
  (truthy rt = true -> hasRefreshToken t = true) /\
  nextTimer w' = nextTimer w /\
  trace w' = trace w ++ [EvFetch (refreshRequest rt cfg)].
Proof.
  unfold refreshOAuthToken, tryCatch, bind, fetch.
  destruct (respond w (trace w) (refreshRequest rt cfg)) as [response|e];
    [|discriminate].
  destruct (ok response); simpl; [|discriminate].
  destruct (json response) as [data|e]; simpl; [|discriminate].
  intros Heq. injection Heq as <- <-. simpl.
  split; [|done].
  intros Hrt. unfold hasRefreshToken, truthyOpt, orElse. simpl.
  destruct (refresh_token data) as [s|]; [|done].
  by destruct (truthy s) eqn:Hs.
Qed.

(** What [refreshToken()] does once it has found a refresh token, by the
    completion of [refreshOAuthToken]. *)
Lemma manager_refreshToken_run (m : AuthManager) (current : AuthToken)
    (rt : string) :
  currentToken m = Some current ->
  Tokens.refreshToken current = Some rt ->
  truthy rt = true ->
  let m0 := (setState REFRESHING m).2 in
  exists o w1 m',
    refreshOAuthToken rt (oauth (config m)) (world m0) = (o, w1) /\
    fetchCount (trace (world m')) = S (fetchCount (trace (world m))) /\
    config m' = config m /\
    match o with
    | Returns newToken =>
        refreshToken m = (Returns tt, m') /\
        state m' = AUTHENTICATED /\
        currentToken m' = Some newToken /\
        tokenStorage m' = <[tokenKey := newToken]> (tokenStorage m) /\
        hasRefreshToken newToken = true /\
        refreshTimer m' =
          (if autoRefresh (config m) then Some (nextTimer (world m))
           else refreshTimer m)
    | Throws e =>
        refreshToken m = (Throws e, m') /\
        state m' = FAILED /\
        currentToken m' = currentToken m /\
        tokenStorage m' = tokenStorage m /\
        refreshTimer m' = refreshTimer m
    end.
Proof.
  intros Htok Hrt Htruthy m0.
  pose proof (refreshOAuthToken_fetchCount rt (oauth (config m)) (world m0))
    as Hcount.
  destruct m as [st store tok timer cfg w]. simpl in Htok. subst tok.
  unfold m0 in *. clear m0. rewrite setState_run in *.
  unfold refreshToken, bind, get. cbn [currentToken config].
  rewrite Hrt, Htruthy. cbn [negb]. rewrite setState_run.
  unfold tryCatch, bind, io, zoom.
  cbn [world set_world set_state state config snd] in *.
  set (w0 := if bool_decide (st = REFRESHING) then w
             else emitEvent (EvEmit STATE_CHANGED) w) in *.
  assert (fetchCount (trace w0) = fetchCount (trace w)) as Hsame.
  { unfold w0. case_bool_decide; simpl; [done|].
    rewrite fetchCount_snoc. simpl. lia. }
  assert (nextTimer w0 = nextTimer w) as Htimer0
    by (unfold w0; by case_bool_decide).
  clearbody w0.
  destruct (refreshOAuthToken rt (oauth cfg) w0)
    as [[newToken|e] w1] eqn:Hrefresh; cbn [snd] in Hcount.
  - apply refreshOAuthToken_Returns_inv in Hrefresh as Hinv.
    destruct Hinv as (Hhas & Htimer & Htrace). specialize (Hhas Htruthy).
    unfold modify, emit, io, zoom, record, modify, throw. simpl. msimpl.
    unfold when. destruct (autoRefresh cfg) eqn:Hauto.
    + match goal with
      | |- context [scheduleTokenRefresh ?x] =>
          destruct (scheduleTokenRefresh_frame x)
            as (m' & Hrun & Hst & Hstore & Hcur & Hcfg & Hfc & Harm & _)
      end.
      simpl in *. rewrite Hrun.
      eexists _, _, m'. split; [reflexivity|].
      rewrite Hfc, !fetchCount_snoc. simpl.
      split; [lia|]. split; [done|]. split; [done|].
      split; [done|]. split; [done|]. split; [done|]. split; [done|].
      rewrite (Harm newToken eq_refl Hhas). by rewrite Htimer, Htimer0.
    + unfold ret. cbv beta iota.
      eexists _, _, _. split; [reflexivity|]. split; [|split]; cycle 2.
      * split; [reflexivity|]. done.
      * cbn [world trace]. rewrite !fetchCount_snoc. simpl. lia.
      * done.
  - unfold modify, emit, io, zoom, record, modify, throw. simpl. msimpl.
    eexists _, _, _. split; [reflexivity|]. split; [|split]; cycle 2.
    + split; [reflexivity|]. done.
    + cbn [world trace]. rewrite !fetchCount_snoc. simpl. lia.
    + done.
Qed.


Lemma truthy_ne (s : string) : s <> "" -> truthy s = true.
Proof. intros Hne. unfold truthy. by apply String.eqb_neq in Hne as ->. Qed.

(** [refreshToken()] when no listener is registered. *)
Lemma refreshToken_silent (m : AuthManager)
    (current : AuthToken) (rt : string) :
  currentToken m = Some current ->
  Tokens.refreshToken current = Some rt ->
  rt <> "" ->
  exists o m',
    refreshToken m = (o, m') /\
    fetchCount (trace (world m')) = S (fetchCount (trace (world m))) /\
    match o with
    | Returns _ =>
        isAuthenticated m' = true /\
        (exists newToken,
            currentToken m' = Some newToken /\
            tokenStorage m' = <[tokenKey := newToken]> (tokenStorage m) /\
            hasRefreshToken newToken = true) /\
        refreshTimer m' =
          (if autoRefresh (config m) then Some (nextTimer (world m))
           else refreshTimer m)
    | Throws e =>
        state m' = FAILED /\
        isAuthenticated m' = false /\
        currentToken m' = currentToken m /\
        getAuthorizationHeader m' = getAuthorizationHeader m /\
        tokenStorage m' = tokenStorage m /\
        refreshTimer m' = refreshTimer m
    end.
Proof.
  intros Htok Hrt Hne.
  destruct (manager_refreshToken_run m current rt Htok Hrt (truthy_ne rt Hne))
    as ([newToken|e] & w1 & m' & _ & Hcount & _ & Hrun).
  - destruct Hrun as (Hrun & Hst & Hcur & Hstore & Hhas & Htimer).
    exists (Returns tt), m'. split; [done|]. split; [done|].
    split; [unfold isAuthenticated; by rewrite Hst, Hcur|].
    split; [by exists newToken|done].
  - destruct Hrun as (Hrun & Hst & Hcur & Hstore & Htimer).
    exists (Throws e), m'. split; [done|]. split; [done|].
    split; [done|]. split; [unfold isAuthenticated; by rewrite Hst|].
    split; [done|].
    split; [unfold getAuthorizationHeader; by rewrite Hcur|done].
Qed.

Lemma isTokenExpired_run (t : AuthToken) (threshold : Z) (w : World) :
  exists b w',
    isTokenExpired t threshold w = (Returns b, w') /\
    trace w' = trace w /\ nextTimer w' = nextTimer w.
Proof.
  unfold isTokenExpired, bind, dateNow.
  destruct (expiresAt t =? 0); by eexists _, _.
Qed.

(** [initialize()] when no listener is registered. *)
Lemma initialize_silent (m : AuthManager) :
  exists m',
    initialize m = (Returns tt, m') /\
    ((isAuthenticated m' = true /\
      is_Some (tokenStorage m' !! tokenKey)) \/
     (state m' = INITIAL /\ currentToken m' = None /\
      getAuthorizationHeader m' = None /\
      tokenStorage m' = tokenStorage m)) /\
    (fetchCount (trace (world m')) <= S (fetchCount (trace (world m))))%nat /\
    (tokenStorage m !! tokenKey = None ->
     state m' = INITIAL /\
     fetchCount (trace (world m')) = fetchCount (trace (world m))).
Proof.
  destruct m as [st store tok timer cfg w].
  unfold initialize, tryCatch, bind at 1, get. cbn [tokenStorage config].
  unfold bind at 1, modify, getToken. msimpl.
  destruct (store !! tokenKey) as [t|] eqn:Hstored.
  - unfold bind at 1, io, zoom. simpl.
    destruct (isTokenExpired_run t (tokenRefreshThreshold cfg) w)
      as (b & w' & Hexp & Htrace & Htimer).
    rewrite Hexp. destruct b.
    + destruct (hasRefreshToken t) eqn:Hhas.
      * unfold hasRefreshToken, truthyOpt in Hhas.
        destruct (Tokens.refreshToken t) as [rt|] eqn:Hrt; [|done].
        match goal with
        | |- context [refreshToken ?x] =>
            destruct (manager_refreshToken_run x t rt eq_refl Hrt Hhas)
              as ([newToken|e] & w1 & m' & _ & Hcount & _ & Hrun)
        end.
        -- destruct Hrun as (Hrun & Hst & Hcur & Hstore & _).
           rewrite Hrun.
           exists m'. split; [done|]. simpl in *. split.
           { left. unfold isAuthenticated. rewrite Hst, Hcur, Hstore.
             split; [done|]. rewrite lookup_insert_eq. by eexists. }
           split; [rewrite Hcount, Htrace; lia|]. done.
        -- destruct Hrun as (Hrun & Hst & Hcur & Hstore & _).
           rewrite Hrun.
           unfold bind, modify. rewrite setState_run.
           eexists. split; [reflexivity|]. simpl in *. split.
           { right. by rewrite Hstore. }
           split; [|done].
           rewrite Hst. simpl. msimpl.
           rewrite fetchCount_snoc, Hcount, Htrace. simpl. lia.
      * unfold bind, modify. rewrite setState_run.
        eexists. split; [reflexivity|]. simpl. split; [by right|].
        split; [|done]. case_bool_decide; simpl; rewrite Htrace;
          rewrite ?fetchCount_snoc; simpl; lia.
    + unfold bind. rewrite setState_run. unfold when.
      destruct (autoRefresh cfg).
      * match goal with
        | |- context [scheduleTokenRefresh ?x] =>
            destruct (scheduleTokenRefresh_frame x)
              as (m' & Hrun & Hst & Hstore & Hcur & _ & Hfc & _)
        end.
        rewrite Hrun. exists m'. split; [done|]. simpl in *. split.
        { left. unfold isAuthenticated. rewrite Hst, Hcur, Hstore, Hstored.
          split; [done|by eexists]. }
        split; [|done]. rewrite Hfc.
        case_bool_decide; simpl; rewrite Htrace;
          rewrite ?fetchCount_snoc; simpl; lia.
      * eexists. split; [reflexivity|]. simpl. split.
        { left. unfold isAuthenticated. simpl. rewrite Hstored.
          split; [done|by eexists]. }
        split; [|done].
        case_bool_decide; simpl; rewrite Htrace;
          rewrite ?fetchCount_snoc; simpl; lia.
  - rewrite setState_run. eexists. split; [reflexivity|]. simpl.
    split; [by right|].
    case_bool_decide; simpl; rewrite ?fetchCount_snoc; simpl;
      (split; [lia|]); intros _; (split; [done|lia]).
Qed.

(** [authenticate(method?)] when no listener is registered. *)
Lemma authenticate_silent (requested : option AuthMethod)
    (m : AuthManager) :
  exists r m',
    authenticate requested m = (Returns r, m') /\
    ((success r = true /\
      exists t,
        token r = Some t /\
        currentToken m' = Some t /\
        tokenStorage m' = <[tokenKey := t]> (tokenStorage m) /\
        isAuthenticated m' = true /\
        getAuthorizationHeader m' =
          Some (tokenType t +:+ " " +:+ interpolate (accessToken t))) \/
     (success r = false /\
      state m' = FAILED /\
      isAuthenticated m' = false /\
      currentToken m' = currentToken m /\
      tokenStorage m' = tokenStorage m /\
      refreshTimer m' = refreshTimer m /\
      last (trace (world m')) = Some (EvEmit ERROR))).
Proof.
  destruct m as [st store tok timer cfg w].
  unfold authenticate, bind at 1, get. cbn [config].
  unfold bind at 1. rewrite setState_run. msimpl.
  set (w0 := if bool_decide (st = AUTHENTICATING) then w else _).
  clearbody w0.
  assert (forall (r : AuthResult) (w1 : World),
    (success r = true -> is_Some (token r)) ->
    exists m',
      (let* _ :=
         match success r, token r with
         | true, Some t =>
             let* _ := modify (set_currentToken (Some t)) in
             let* _ := modify (fun m =>
               set_tokenStorage (saveToken tokenKey t (tokenStorage m)) m) in
             let* _ := setState AUTHENTICATED in
             let* _ := emit LOGGED_IN in
             when (autoRefresh cfg && hasRefreshToken t) scheduleTokenRefresh
         | _, _ =>
             let* _ := setState FAILED in
             emit ERROR
         end in
       ret r)
        {| state := AUTHENTICATING; tokenStorage := store;
           currentToken := tok; refreshTimer := timer; config := cfg;
           world := w1 |} = (Returns r, m') /\
      ((success r = true /\
        exists t,
          token r = Some t /\
          currentToken m' = Some t /\
          tokenStorage m' = <[tokenKey := t]> store /\
          isAuthenticated m' = true /\
          getAuthorizationHeader m' =
            Some (tokenType t +:+ " " +:+ interpolate (accessToken t))) \/
       (success r = false /\
        state m' = FAILED /\
        isAuthenticated m' = false /\
        currentToken m' = tok /\
        tokenStorage m' = store /\
        refreshTimer m' = timer /\
        last (trace (world m')) = Some (EvEmit ERROR)))) as Hafter.
  { intros r w1 Htoken. destruct (success r) eqn:Hs.
    - destruct (Htoken eq_refl) as [t Ht]. rewrite Ht.
      unfold bind, modify, emit, io, zoom, record, modify, setState, get.
      simpl. msimpl.
      unfold when. destruct (autoRefresh cfg && hasRefreshToken t).
      + match goal with
        | |- context [scheduleTokenRefresh ?x] =>
            destruct (scheduleTokenRefresh_frame x)
              as (m' & Hrun & Hst & Hstore & Hcur & _)
        end.
        rewrite Hrun. exists m'. split; [reflexivity|]. left.
        split; [done|]. exists t. simpl in *.
        unfold isAuthenticated, getAuthorizationHeader.
        rewrite Hst, Hcur, Hstore. done.
      + eexists. split; [reflexivity|]. left.
        split; [done|]. by exists t.
    - unfold bind, modify, emit, io, zoom, record, modify, setState, get.
      simpl. msimpl.
      eexists. split; [reflexivity|]. right. simpl.
      rewrite last_snoc. done. }
  assert (exists r w1,
    match resolveMethod requested cfg with
    | API_KEY => authenticateWithApiKey
    | OAUTH => authenticateWithOAuth
    end {| state := AUTHENTICATING; tokenStorage := store;
           currentToken := tok; refreshTimer := timer; config := cfg;
           world := w0 |} =
      (Returns r,
       {| state := AUTHENTICATING; tokenStorage := store;
          currentToken := tok; refreshTimer := timer; config := cfg;
          world := w1 |}) /\
    (success r = true -> is_Some (token r))) as (r & w1 & Hstep & Htoken).
  { destruct (resolveMethod requested cfg).
    - unfold authenticateWithApiKey, bind, get. cbn [config].
      destruct (negb (truthyOpt (apiKey cfg)));
        eexists _, _; (split; [reflexivity|]); simpl; [done|].
      intros _. by eexists.
    - unfold authenticateWithOAuth, bind, get, io, zoom. cbn [config world].
      destruct (performOAuthFlow_returns (oauth cfg) w0)
        as (r & w1 & Hflow & _ & Hshape).
      rewrite Hflow. exists r, w1. split; [reflexivity|].
      destruct Hshape as [(_ & _ & Htok & _)|(Hs & _)]; [done|].
      rewrite Hs. done. }
  unfold tryCatch. unfold bind at 1. rewrite Hstep.
  destruct (Hafter r w1 Htoken) as (m' & Hrun & Hcases).
  msimpl_in Hrun. rewrite Hrun. eauto.
Qed.

(** [authenticate] by API key when no listener is registered. *)
Lemma api_key_login_silent (requested : option AuthMethod)
    (m : AuthManager) :
  resolveMethod requested (config m) = API_KEY ->
  exists r m',
    authenticate requested m = (Returns r, m') /\
    refreshTimer m' = refreshTimer m /\
    (forall key, apiKey (config m) = Some key -> key <> "" ->
       success r = true /\
       getAuthorizationHeader m' = Some ("Bearer " +:+ key) /\
       isAuthenticated m' = true /\
       tokenStorage m' !! tokenKey = currentToken m' /\
       trace (world m') =
         trace (world m) ++ stateChange (state m) AUTHENTICATING ++
         [EvEmit STATE_CHANGED; EvEmit LOGGED_IN]) /\
    (truthyOpt (apiKey (config m)) = false ->
       success r = false /\
       error r = Some "No API key available" /\
       state m' = FAILED /\
       currentToken m' = currentToken m /\
       trace (world m') =
         trace (world m) ++ stateChange (state m) AUTHENTICATING ++
         [EvEmit STATE_CHANGED; EvEmit ERROR]).
Proof.
  destruct m as [st store tok timer cfg w]. cbn [config state world].
  intros Hmethod.
  unfold authenticate, bind at 1, get. cbn [config]. rewrite Hmethod.
  unfold bind at 1. rewrite setState_run.
  unfold tryCatch, authenticateWithApiKey, bind, get.
  cbn [config set_world set_state state tokenStorage currentToken
       refreshTimer world].
  destruct (apiKey cfg) as [key|] eqn:Hkey; cbn [truthyOpt].
  - destruct (truthy key) eqn:Htruthy; cbn [negb].
    + unfold ret, modify, emit, io, zoom, record, modify, setState, get, bind.
      simpl. msimpl. rewrite andb_false_r. simpl.
      eexists _, _. split; [reflexivity|]. split; [reflexivity|]. simpl.
      split; [|done]. intros key' Hkey' Hne. simplify_eq.
      split; [done|]. split; [done|]. split; [done|].
      split; [by rewrite lookup_insert_eq|].
      unfold stateChange. case_bool_decide; simpl;
        rewrite <- ?app_assoc; reflexivity.
    + unfold ret, modify, emit, io, zoom, record, modify, setState, get, bind.
      simpl. msimpl.
      eexists _, _. split; [reflexivity|]. split; [reflexivity|]. simpl.
      split.
      * intros key' Hkey' Hne. simplify_eq.
        by rewrite (truthy_ne _ Hne) in Htruthy.
      * intros _. repeat (split; [reflexivity|]).
        unfold stateChange. case_bool_decide; simpl;
          rewrite <- ?app_assoc; reflexivity.
  - unfold ret, modify, emit, io, zoom, record, modify, setState, get, bind.
    simpl. msimpl.
    eexists _, _. split; [reflexivity|]. split; [reflexivity|]. simpl.
    split; [done|].
    intros _. repeat (split; [reflexivity|]).
    unfold stateChange. case_bool_decide; simpl;
      rewrite <- ?app_assoc; reflexivity.
Qed.

(** *** Listeners on the events *)

Lemma bind_ext {S A B : Type} (m1 m2 : M S A) (k1 k2 : A -> M S B) :
  (forall s, m1 s = m2 s) ->
  (forall a s, k1 a s = k2 a s) ->
  forall s, bind m1 k1 s = bind m2 k2 s.
Proof.
  intros Hm Hk s. unfold bind. rewrite Hm.
  destruct (m2 s) as [[a|t] s']; [apply Hk|reflexivity].
Qed.

Lemma tryCatch_ext {S A : Type} (m1 m2 : M S A) (h1 h2 : Thrown -> M S A) :
  (forall s, m1 s = m2 s) ->
  (forall t s, h1 t s = h2 t s) ->
  forall s, tryCatch m1 h1 s = tryCatch m2 h2 s.
Proof.
  intros Hm Hh s. unfold tryCatch. rewrite Hm.
  destruct (m2 s) as [[a|t] s']; [reflexivity|apply Hh].
Qed.

(** With listeners that leave the manager alone and throw nothing, the
    manager runs as the one without listeners. *)
Section Quiet.
Variable listeners : string -> ManagerListeners.Payload -> M AuthManager unit.
Hypothesis Hquiet : ManagerListeners.quiet listeners.

Lemma emit_quiet (event : string) (payload : ManagerListeners.Payload)
    (m : AuthManager) :
  ManagerListeners.emit listeners event payload m = emit event m.
Proof.
  unfold ManagerListeners.emit, bind, emit, io, zoom, record, modify.
  cbv beta iota. apply Hquiet.
Qed.

Lemma setState_quiet (s : AuthState) (m : AuthManager) :
  ManagerListeners.setState listeners s m = setState s m.
Proof.
  unfold ManagerListeners.setState, setState.
  apply bind_ext; [reflexivity|]. intros m0 m1.
  destruct (bool_decide (state m0 = s)); [reflexivity|].
  apply bind_ext; [reflexivity|]. intros _ m2. apply emit_quiet.
Qed.

Ltac quiet_step :=
  first
    [ apply setState_quiet
    | apply emit_quiet
    | apply bind_ext; [intros ?|intros ? ?]
    | apply tryCatch_ext; [intros ?|intros ? ?]
    | reflexivity ].

Lemma refreshToken_quiet (m : AuthManager) :
  ManagerListeners.refreshToken listeners m = refreshToken m.
Proof.
  unfold ManagerListeners.refreshToken, refreshToken.
  apply bind_ext; [reflexivity|]. intros m0 m1.
  destruct (currentToken m0) as [current|]; [|reflexivity].
  destruct (Tokens.refreshToken current) as [rt|]; [|reflexivity].
  destruct (negb (truthy rt)); [reflexivity|].
  repeat quiet_step.
Qed.

Lemma initialize_quiet (m : AuthManager) :
  ManagerListeners.initialize listeners m = initialize m.
Proof.
  unfold ManagerListeners.initialize, initialize.
  apply tryCatch_ext; [|intros t s; repeat quiet_step].
  apply bind_ext; [reflexivity|]. intros m0 m1.
  apply bind_ext; [reflexivity|]. intros _ m2.
  destruct (getToken tokenKey (tokenStorage m0)) as [t|];
    [|apply setState_quiet].
  apply bind_ext; [reflexivity|]. intros expired m3.
  destruct expired; [|repeat quiet_step].
  destruct (hasRefreshToken t); [|repeat quiet_step].
  apply tryCatch_ext; [apply refreshToken_quiet|].
  intros e s. repeat quiet_step.
Qed.

Lemma authenticate_quiet (requested : option AuthMethod) (m : AuthManager) :
  ManagerListeners.authenticate listeners requested m =
  authenticate requested m.
Proof.
  unfold ManagerListeners.authenticate, authenticate.
  apply bind_ext; [reflexivity|]. intros m0 m1.
  apply bind_ext; [apply setState_quiet|]. intros _ m2.
  apply tryCatch_ext; [|intros t s; repeat quiet_step].
  apply bind_ext; [reflexivity|]. intros result m3.
  apply bind_ext; [|reflexivity].
  destruct (success result), (token result) as [t|]; repeat quiet_step.
Qed.

Lemma logout_quiet (m : AuthManager) :
  ManagerListeners.logout listeners m = logout m.
Proof. unfold ManagerListeners.logout, logout. repeat quiet_step. Qed.

End Quiet.

Lemma noListeners_quiet : ManagerListeners.quiet ManagerListeners.noListeners.
Proof. intros event payload m. reflexivity. Qed.

(** A listener that throws makes [logout()] reject, after the credential
    has been dropped. *)
Lemma logout_listener_throws :
  exists m',
    ManagerListeners.logout ManagerListeners.throwingLogoutListener
      freshManager =
      (Throws (ThrownError (newError "listener failed")), m') /\
    state m' = INITIAL /\
    currentToken m' = None /\
    tokenStorage m' !! tokenKey = None.
Proof. eexists. split; [vm_compute; reflexivity|]. by vm_compute. Qed.

(** X20.  [logout()] of [auth/manager.ts], provided the listeners on the
    manager's events throw nothing and leave the manager alone: it does not
    throw and ends in state INITIAL with no credential in memory, none under
    the storage key, no timer armed and no authorization header; it cancels
    the armed timer, if any, emits the state change, if any, and then
    LOGGED_OUT.  Logging out once more only emits LOGGED_OUT again. *)
Theorem manager_logout_resets
    (listeners : string -> ManagerListeners.Payload -> M AuthManager unit)
    (m : AuthManager) :
  ManagerListeners.quiet listeners ->
  exists m1 m2,
    ManagerListeners.logout listeners m = (Returns tt, m1) /\
    state m1 = INITIAL /\
    currentToken m1 = None /\
    refreshTimer m1 = None /\
    tokenStorage m1 = delete tokenKey (tokenStorage m) /\
    isAuthenticated m1 = false /\
    getAuthorizationHeader m1 = None /\
    trace (world m1) =
      trace (world m) ++ cancelled (refreshTimer m) ++
      stateChange (state m) INITIAL ++ [EvEmit LOGGED_OUT] /\
    ManagerListeners.logout listeners m1 = (Returns tt, m2) /\
    trace (world m2) = trace (world m1) ++ [EvEmit LOGGED_OUT] /\
    tokenStorage m2 = tokenStorage m1 /\
    state m2 = INITIAL /\ currentToken m2 = None /\ refreshTimer m2 = None.
Proof.
  intros Hquiet.
  destruct (logout_silent m) as (m1 & m2 & H).
  exists m1, m2. rewrite !(logout_quiet listeners Hquiet). exact H.
Qed.

Lemma manager_logout_resets_witness :
  exists m1,
    ManagerListeners.logout ManagerListeners.noListeners freshManager =
      (Returns tt, m1) /\
    state m1 = INITIAL /\
    trace (world m1) =
      [EvClearTimeout 4; EvEmit STATE_CHANGED; EvEmit LOGGED_OUT].
Proof.
  destruct (manager_logout_resets ManagerListeners.noListeners freshManager)
    as (m1 & m2 & Hrun & Hstate & _ & _ & _ & _ & _ & Htrace & _).
  - intros event payload m. reflexivity.
  - exists m1. split; [exact Hrun|]. split; [exact Hstate|exact Htrace].
Defined.

(** X21.  [refreshToken()] of [auth/manager.ts], for a held credential
    with a non-empty refresh token, provided the listeners on the manager's
    events throw nothing and leave the manager alone, sends exactly one
    request.  On success the manager is authenticated, the new credential is
    held and stored, it has a refresh token again (C6), and with
    auto-refresh on the refresh timer is re-armed with a fresh handle.  On
    failure the state is FAILED and the error is rethrown, but the
    credential in memory, the authorization header, the store and the timer
    are as before (C3, for every input). *)
Theorem manager_refreshToken_outcomes
    (listeners : string -> ManagerListeners.Payload -> M AuthManager unit)
    (m : AuthManager) (current : AuthToken) (rt : string) :
  ManagerListeners.quiet listeners ->
  currentToken m = Some current ->
  Tokens.refreshToken current = Some rt ->
  rt <> "" ->
  exists o m',
    ManagerListeners.refreshToken listeners m = (o, m') /\
    fetchCount (trace (world m')) = S (fetchCount (trace (world m))) /\
    match o with
    | Returns _ =>
        isAuthenticated m' = true /\
        (exists newToken,
            currentToken m' = Some newToken /\
            tokenStorage m' = <[tokenKey := newToken]> (tokenStorage m) /\
            hasRefreshToken newToken = true) /\
        refreshTimer m' =
          (if autoRefresh (config m) then Some (nextTimer (world m))
           else refreshTimer m)
    | Throws e =>
        state m' = FAILED /\
        isAuthenticated m' = false /\
        currentToken m' = currentToken m /\
        getAuthorizationHeader m' = getAuthorizationHeader m /\
        tokenStorage m' = tokenStorage m /\
        refreshTimer m' = refreshTimer m
    end.
Proof.
  intros Hquiet Htok Hrt Hne.
  rewrite (refreshToken_quiet listeners Hquiet).
  exact (refreshToken_silent m current rt Htok Hrt Hne).
Qed.

Lemma manager_refreshToken_outcomes_witness :
  exists m',
    ManagerListeners.refreshToken ManagerListeners.noListeners freshManager =
      (Returns tt, m') /\
    isAuthenticated m' = true /\
    refreshTimer m' = Some 5%nat.
Proof.
  destruct (manager_refreshToken_outcomes ManagerListeners.noListeners
              freshManager freshToken "rt-1")
    as (o & m' & Hrun & _ & Hcases).
  - intros event payload m. reflexivity.
  - reflexivity.
  - reflexivity.
  - discriminate.
  - assert (o = Returns tt) as -> by (vm_compute in Hrun; congruence).
    destruct Hcases as (Hauth & _ & Htimer).
    exists m'. split; [exact Hrun|]. split; [exact Hauth|exact Htimer].
Defined.

(** X22.  [initialize()] of [auth/manager.ts], provided the listeners on
    the manager's events throw nothing and leave the manager alone, does not
    throw and sends at most one request.  It ends either authenticated, with
    a credential under the storage key, or in state INITIAL with no
    credential in memory and no authorization header; in the second case the
    store is as before, so a stale credential stays stored.  With nothing
    stored it ends in INITIAL without any request. *)
Theorem manager_initialize_outcome
    (listeners : string -> ManagerListeners.Payload -> M AuthManager unit)
    (m : AuthManager) :
  ManagerListeners.quiet listeners ->
  exists m',
    ManagerListeners.initialize listeners m = (Returns tt, m') /\
    ((isAuthenticated m' = true /\
      is_Some (tokenStorage m' !! tokenKey)) \/
     (state m' = INITIAL /\ currentToken m' = None /\
      getAuthorizationHeader m' = None /\
      tokenStorage m' = tokenStorage m)) /\
    (fetchCount (trace (world m')) <= S (fetchCount (trace (world m))))%nat /\
    (tokenStorage m !! tokenKey = None ->
     state m' = INITIAL /\
     fetchCount (trace (world m')) = fetchCount (trace (world m))).
Proof.
  intros Hquiet.
  rewrite (initialize_quiet listeners Hquiet).
  exact (initialize_silent m).
Qed.

Lemma manager_initialize_outcome_witness :
  exists m',
    ManagerListeners.initialize ManagerListeners.noListeners freshManager =
      (Returns tt, m') /\
    (fetchCount (trace (world m')) <= 1)%nat.
Proof.
  destruct (manager_initialize_outcome ManagerListeners.noListeners
              freshManager) as (m' & Hrun & _ & Hcount & _).
  - intros event payload m. reflexivity.
  - exists m'. split; [exact Hrun|exact Hcount].
Defined.

(** X23.  [authenticate(method?)] of [auth/manager.ts], provided the
    listeners on the manager's events throw nothing and leave the manager
    alone, does not throw.  A successful result carries a credential, which
    is then held, stored under the storage key, and handed out by
    [getAuthorizationHeader()], the manager being authenticated.  After an
    unsuccessful result the state is FAILED and the last event is ERROR,
    while the credential held before, the store and the timer are as
    before. *)
Theorem manager_authenticate_outcome
    (listeners : string -> ManagerListeners.Payload -> M AuthManager unit)
    (requested : option AuthMethod) (m : AuthManager) :
  ManagerListeners.quiet listeners ->
  exists r m',
    ManagerListeners.authenticate listeners requested m = (Returns r, m') /\
    ((success r = true /\
      exists t,
        token r = Some t /\
        currentToken m' = Some t /\
        tokenStorage m' = <[tokenKey := t]> (tokenStorage m) /\
        isAuthenticated m' = true /\
        getAuthorizationHeader m' =
          Some (tokenType t +:+ " " +:+ interpolate (accessToken t))) \/
     (success r = false /\
      state m' = FAILED /\
      isAuthenticated m' = false /\
      currentToken m' = currentToken m /\
      tokenStorage m' = tokenStorage m /\
      refreshTimer m' = refreshTimer m /\
      last (trace (world m')) = Some (EvEmit ERROR))).
Proof.
  intros Hquiet.
  destruct (authenticate_silent requested m) as (r & m' & H).
  exists r, m'. rewrite (authenticate_quiet listeners Hquiet). exact H.
Qed.

Lemma manager_authenticate_outcome_witness :
  exists r m',
    ManagerListeners.authenticate ManagerListeners.noListeners (Some OAUTH)
      freshManager = (Returns r, m').
Proof.
  destruct (manager_authenticate_outcome ManagerListeners.noListeners
              (Some OAUTH) freshManager) as (r & m' & Hrun & _).
  - intros event payload m. reflexivity.
  - exists r, m'. exact Hrun.
Defined.

(** X24.  [authenticate] of [auth/manager.ts] when the method resolves
    to API_KEY, provided the listeners on the manager's events throw nothing
    and leave the manager alone: the refresh timer is neither armed nor
    cancelled.  With a non-empty configured key it succeeds without any
    request, only emitting state changes and LOGGED_IN; the header is
    ['Bearer '] followed by the key, and the credential held is the one
    stored.  Without a key it fails with ['No API key available'], state
    FAILED, keeping the credential held before. *)
Theorem manager_api_key_login
    (listeners : string -> ManagerListeners.Payload -> M AuthManager unit)
    (requested : option AuthMethod) (m : AuthManager) :
  ManagerListeners.quiet listeners ->
  resolveMethod requested (config m) = API_KEY ->
  exists r m',
    ManagerListeners.authenticate listeners requested m = (Returns r, m') /\
    refreshTimer m' = refreshTimer m /\
    (forall key, apiKey (config m) = Some key -> key <> "" ->
       success r = true /\
       getAuthorizationHeader m' = Some ("Bearer " +:+ key) /\
       isAuthenticated m' = true /\
       tokenStorage m' !! tokenKey = currentToken m' /\
       trace (world m') =
         trace (world m) ++ stateChange (state m) AUTHENTICATING ++
         [EvEmit STATE_CHANGED; EvEmit LOGGED_IN]) /\
    (truthyOpt (apiKey (config m)) = false ->
       success r = false /\
       error r = Some "No API key available" /\
       state m' = FAILED /\
       currentToken m' = currentToken m /\
       trace (world m') =
         trace (world m) ++ stateChange (state m) AUTHENTICATING ++
         [EvEmit STATE_CHANGED; EvEmit ERROR]).
Proof.
  intros Hquiet Hmethod.
  destruct (api_key_login_silent requested m Hmethod) as (r & m' & H).
  exists r, m'. rewrite (authenticate_quiet listeners Hquiet). exact H.
Qed.

Lemma manager_api_key_login_witness :
  exists r m',
    ManagerListeners.authenticate ManagerListeners.noListeners None
      apiKeyManager = (Returns r, m') /\
    getAuthorizationHeader m' = Some "Bearer sk-ant-api03-0123456789" /\
    refreshTimer m' = None /\
    trace (world m') =
      [EvEmit STATE_CHANGED; EvEmit STATE_CHANGED; EvEmit LOGGED_IN].
Proof.
  destruct (manager_api_key_login ManagerListeners.noListeners None
              apiKeyManager)
    as (r & m' & Hrun & Htimer & Hkey & _).
  - intros event payload m. reflexivity.
  - reflexivity.
  - destruct (Hkey "sk-ant-api03-0123456789") as (_ & Hheader & _ & _ & Htrace).
    + reflexivity.
    + discriminate.
    + exists r, m'. split; [exact Hrun|]. split; [exact Hheader|].
      split; [exact Htimer|exact Htrace].
Defined.
End ManagerMore.

(** ** Bounded-concurrency mapping *)

Module ConcurrencyMore.
Import Errors Concurrency Samples ConcurrencyFacts.

Lemma waitingFrom_length_le (ws : list Worker) :
  forall s, (length (waitingFrom s ws) <= length ws)%nat.
Proof.
  induction ws as [|w ws IH]; intros s; simpl; [done|].
  destruct w; simpl; specialize (IH (S s)); lia.
Qed.

Lemma finished_not_waiting (ws : list Worker) :
  forall s, forallb isFinished ws = true -> waitingFrom s ws = [].
Proof.
  induction ws as [|w ws IH]; intros s Hfin; simpl in *; [done|].
  destruct w; simpl in *; try done. by apply IH.
Qed.

Section Pool.
Context {T R : Type}.
Variable fn : T -> nat -> Outcome R.
Variable items : list T.

Lemma spawn_workers_length (count : nat) :
  forall p : Pool R,
    length (workers (spawn items count p)) = (length (workers p) + count)%nat.
Proof.
  induction count as [|count IH]; intros p; simpl; [lia|].
  unfold loopHead.
  destruct (currentIndex p <? length items)%nat; rewrite IH; simpl;
    rewrite length_app; simpl; lia.
Qed.

(** As long as no call has failed, the invariant holds after any number
    of settlements. *)
Lemma run_sound (schedule : list nat) :
  forall p : Pool R,
    Inv fn items p -> rejection p = None ->
    (rejection (run fn items schedule p) = None /\
     Inv fn items (run fn items schedule p)) \/
    (exists t, rejection (run fn items schedule p) = Some t /\
               itemError fn items t).
Proof.
  induction schedule as [|c schedule IH]; intros p HI Hrej; cbn [run];
    [by left|].
  destruct (waitingIds p) as [|first others] eqn:Hids; [by left|].
  set (wid := nth (c mod length (first :: others)) (first :: others) first).
  assert (wid ∈ waitingIds p) as Hwid
    by (rewrite Hids; apply chosen_is_waiting).
  destruct (settle_step fn items p wid HI Hrej Hwid)
    as [(Hrej' & HI' & _)|(t & Ht & Herr)].
  - fold wid. by apply IH.
  - right. exists t. split; [|done]. by apply run_rejection_sticky.
Qed.
End Pool.

(** X25.  At every moment of [withConcurrency], that is, after any
    number of settlements in any order, the number of pending calls of [fn]
    is at most the number of workers, which is at most the number of items
    and at most the concurrency limit (no worker at all for a limit below
    1). *)
Theorem withConcurrency_in_flight_bound {T R : Type}
    (fn : T -> nat -> Outcome R) (items : list T) (concurrency : Z)
    (schedule : list nat) :
  let p := run fn items schedule
             (spawn items (workerCount items concurrency) (start items)) in
  (length (waitingIds p) <= workerCount items concurrency)%nat /\
  (workerCount items concurrency <= length items)%nat /\
  Z.of_nat (workerCount items concurrency) <= Z.max 0 concurrency.
Proof.
  intros p. split; [|unfold workerCount; lia].
  unfold waitingIds.
  etransitivity; [apply waitingFrom_length_le|].
  unfold p. rewrite run_workers_length, spawn_workers_length. simpl. lia.
Qed.

(** X26.  For a limit of at least 1 and any order and number of
    settlements: if [withConcurrency] has resolved, its result has one slot
    per item and the slot of every item holds the value [fn] returned for it
    (so it never resolves while a call is pending); if it has rejected, the
    error is one that [fn] failed with for some item. *)
Theorem withConcurrency_sound {T R : Type}
    (fn : T -> nat -> Outcome R) (items : list T) (concurrency : Z)
    (schedule : list nat) :
  1 <= concurrency ->
  (forall rs,
      withConcurrency fn items concurrency schedule = Some (Returns rs) ->
      length rs = length items /\
      forall i x, items !! i = Some x ->
        exists r, fn x i = Returns r /\ rs !! i = Some (Some r)) /\
  (forall t,
      withConcurrency fn items concurrency schedule = Some (Throws t) ->
      itemError fn items t).
Proof.
  intros Hc.
  destruct (decide (items = [])) as [->|Hne].
  { split; [|done]. intros rs Hrs. simpl in Hrs. simplify_eq.
    split; [done|]. by intros i x Hx. }
  assert (withConcurrency fn items concurrency schedule =
          allSettled (run fn items schedule
            (spawn items (workerCount items concurrency) (start items))))
    as -> by (by destruct items).
  set (p := run fn items schedule _).
  destruct (spawn_start fn items (workerCount items concurrency))
    as (HI & Hrej & _ & Hws); [by apply workerCount_bounds|].
  assert (workers p <> []) as Hws'.
  { intros Hnil. apply Hws.
    apply length_zero_iff_nil. apply length_zero_iff_nil in Hnil.
    unfold p in Hnil. by rewrite run_workers_length in Hnil. }
  pose proof (run_sound fn items schedule _ HI Hrej) as Hsound.
  fold p in Hsound.
  destruct Hsound as [(Hrej' & HI')|(t & Ht & Herr)].
  - unfold allSettled. rewrite Hrej'. split; [|intros t Ht].
    + intros rs Hrs.
      destruct (forallb isFinished (workers p)) eqn:Hfin; [|done].
      simplify_eq.
      destruct (quiescent_results fn items p HI') as [_ Hres];
        [by apply finished_not_waiting|done|].
      split; [apply HI'|done].
    + by destruct (forallb isFinished (workers p)).
  - unfold allSettled. rewrite Ht. split; [done|].
    intros t' Ht'. by simplify_eq.
Qed.

Lemma withConcurrency_sound_witness :
  exists r, timesTen 2 1 = Returns r /\
    [Some 10; Some 20; Some 30] !! 1%nat = Some (Some r).
Proof.
  destruct (withConcurrency_sound timesTen [1; 2; 3] 2 [1; 0; 1]%nat)
    as [Hok _].
  - lia.
  - destruct (Hok [Some 10; Some 20; Some 30]) as [_ Hslots].
    + reflexivity.
    + apply (Hslots 1%nat 2). reflexivity.
Defined.
End ConcurrencyMore.

(** ** Sequential execution *)

Module SequentialFacts.
Import Errors Eff Sequential.

Lemma runSequentially_from_app {S A : Type} (pre post : list (M S A)) :
  forall (results : list A) (s : S),
    runSequentially_from results (pre ++ post) s =
      match runSequentially_from results pre s with
      | (Returns rs, s1) => runSequentially_from rs post s1
      | (Throws t, s1) => (Throws t, s1)
      end.
Proof.
  induction pre as [|f pre IH]; intros results s; simpl; [done|].
  unfold bind. destruct (f s) as [[r|t] s1]; [apply IH|done].
Qed.

Lemma runSequentially_from_results {S A : Type} (fns : list (M S A)) :
  forall (results rs : list A) (s s1 : S),
    runSequentially_from results fns s = (Returns rs, s1) ->
    exists new, rs = results ++ new /\ length new = length fns.
Proof.
  induction fns as [|f fns IH]; intros results rs s s1; simpl.
  - intros [= <- <-]. exists []. by rewrite app_nil_r.
  - unfold bind. destruct (f s) as [[r|t] s0]; [|done].
    intros Hrest. apply IH in Hrest as (new & -> & Hlen).
    exists (r :: new). rewrite <- app_assoc. simpl. by rewrite Hlen.
Qed.

(** X27.  [runSequentially] runs the functions one after the other, in
    order: when the functions of a prefix have returned, there is one result
    per function; if the next function returns, its value is appended; if
    it throws, the call rejects with that error in the state right after the
    failing call, whatever the remaining functions are: they are not
    run. *)
Theorem runSequentially_fail_fast {S A : Type} (pre post : list (M S A))
    (f : M S A) (s s1 s2 : S) (rs : list A) :
  runSequentially pre s = (Returns rs, s1) ->
  length rs = length pre /\
  (forall t, f s1 = (Throws t, s2) ->
     runSequentially (pre ++ f :: post) s = (Throws t, s2)) /\
  (forall r, f s1 = (Returns r, s2) ->
     runSequentially (pre ++ [f]) s = (Returns (rs ++ [r]), s2)).
Proof.
  unfold runSequentially. intros Hpre. split.
  - apply runSequentially_from_results in Hpre as (new & -> & Hlen). done.
  - split.
    + intros t Hf. rewrite runSequentially_from_app, Hpre. simpl.
      unfold bind. by rewrite Hf.
    + intros r Hf. rewrite runSequentially_from_app, Hpre. simpl.
      unfold bind. by rewrite Hf.
Qed.

Lemma runSequentially_fail_fast_witness :
  runSequentially ([tick; tick] ++ failing :: [tick; tick]) 0%nat =
    (Throws (ThrownError (newError "boom")), 3%nat).
Proof.
  destruct (runSequentially_fail_fast [tick; tick] [tick; tick] failing
              0%nat 2%nat 3%nat [0; 1]%nat) as (_ & Hfail & _).
  - reflexivity.
  - apply Hfail. reflexivity.
Defined.
End SequentialFacts.

(** ** Retry *)


Module RetryMore.
Import Errors Eff Retry Samples.

Lemma calculateRetryDelay_run {R : Type} (attempt : Z) (options : RetryOptions)
    (w : RetryWorld R) :
  exists d w',
    calculateRetryDelay R attempt options w = (Returns d, w') /\
    script w' = script w /\ invocations w' = invocations w /\
    log w' = log w /\
    (backoff options = false ->
       d = initialDelayMs options /\ randomReads w' = randomReads w) /\
    (backoff options = true -> randomReads w' = S (randomReads w)).
Proof.
  unfold calculateRetryDelay, bind, mathRandom.
  destruct (backoff options); simpl; eexists _, _;
    (split; [reflexivity|]); simpl; repeat split; done.
Qed.

(** One iteration either reaches the call, or is cut short by a throwing
    [onRetry]. *)
Lemma attemptBody_cases {R : Type} (opts : RetryOptions) (attempt : Z)
    (lastError : JsError) (w : RetryWorld R) :
  exists o w',
    attemptBody opts attempt lastError w = (o, w') /\
    script w' = script w /\
    ((invocations w' = S (invocations w) /\ o = script w (invocations w)) \/
     (invocations w' = invocations w /\ exists t, o = Throws t)).
Proof.
  unfold attemptBody. destruct (attempt =? 0).
  { eexists _, _. split; [reflexivity|]. split; [done|]. by left. }
  unfold bind at 1.
  destruct (calculateRetryDelay_run attempt opts w)
    as (d & w1 & -> & Hscript & Hinv & _).
  unfold bind, delay, logEvent, modify, callFn. simpl.
  destruct (onRetry opts) as [cb|]; simpl.
  - destruct (cb lastError attempt) as [t|]; simpl.
    + eexists _, _. split; [reflexivity|]. simpl. split; [done|].
      right. split; [done|]. by eexists.
    + eexists _, _. split; [reflexivity|]. simpl. split; [done|].
      left. by rewrite Hinv, Hscript.
  - eexists _, _. split; [reflexivity|]. simpl. split; [done|].
    left. by rewrite Hinv, Hscript.
Qed.

(** What one iteration adds to the log: the first one the call, a later one
    a sleep and then the callback, the call, or both. *)
Lemma attemptBody_opening {R : Type} (opts : RetryOptions)
    (lastError : JsError) (w : RetryWorld R) :
  exists o w',
    attemptBody opts 0 lastError w = (o, w') /\
    log w' = log w ++ [EvCall] /\
    randomReads w' = randomReads w.
Proof. unfold attemptBody, callFn. simpl. by eexists _, _. Qed.

Lemma attemptBody_later {R : Type} (opts : RetryOptions) (attempt : Z)
    (lastError : JsError) (w : RetryWorld R) :
  attempt <> 0 ->
  exists o w' d rest,
    attemptBody opts attempt lastError w = (o, w') /\
    log w' = log w ++ EvSleep d :: rest /\
    (rest = [EvCall] \/
     rest = [EvOnRetry lastError attempt; EvCall] \/
     rest = [EvOnRetry lastError attempt]) /\
    (backoff opts = false ->
       d = initialDelayMs opts /\ randomReads w' = randomReads w) /\
    (backoff opts = true -> randomReads w' = S (randomReads w)).
Proof.
  intros Hattempt. unfold attemptBody.
  apply Z.eqb_neq in Hattempt as ->.
  unfold bind at 1.
  destruct (calculateRetryDelay_run attempt opts w)
    as (d & w1 & -> & _ & _ & Hlog & Hoff & Hon).
  unfold bind, delay, logEvent, modify, callFn. simpl.
  destruct (onRetry opts) as [cb|]; simpl.
  - destruct (cb lastError attempt) as [t|]; simpl;
      eexists _, _, d, _; (split; [reflexivity|]); simpl;
      rewrite Hlog, <- ?app_assoc; simpl; (split; [reflexivity|]);
      (split; [|done]); [right; right|right; left]; reflexivity.
  - eexists _, _, d, _. split; [reflexivity|]. simpl.
    rewrite Hlog, <- ?app_assoc. simpl. split; [reflexivity|].
    split; [|done]. by left.
Qed.

Lemma retryLoop_iteration {R : Type}
    (predicate : option (JsError -> Outcome bool)) (opts : RetryOptions)
    (remaining : nat) (attempt : Z) (lastError : JsError)
    (w : RetryWorld R) (o : Outcome R) (w1 : RetryWorld R) :
  attemptBody opts attempt lastError w = (o, w1) ->
  (exists o',
     RetryPredicate.retryLoop predicate opts (S remaining) attempt lastError w
       = (o', w1) /\
     RetryPredicate.stopsWith predicate o o') \/
  (exists t,
     o = Throws t /\
     RetryPredicate.retryLoop predicate opts (S remaining) attempt lastError w
       = RetryPredicate.retryLoop predicate opts remaining (attempt + 1)
           (toError t) w1).
Proof.
  intros Hbody. cbn [RetryPredicate.retryLoop]. rewrite Hbody.
  destruct o as [r|t].
  { left. exists (Returns r). split; [reflexivity|]. left. by exists r. }
  destruct (maxRetries opts <=? attempt).
  { left. eexists. split; [reflexivity|]. right. exists t. split; [done|].
    by left. }
  destruct predicate as [p|]; [|right; by exists t].
  destruct (p (toError t)) as [[|]|t'] eqn:Hp.
  - right. by exists t.
  - left. eexists. split; [reflexivity|]. right. exists t. split; [done|].
    by left.
  - left. eexists. split; [reflexivity|]. right. exists t. split; [done|].
    right. by exists p, t'.
Qed.

(** A predicate that returns makes the loop that of [Retry]. *)
Lemma retryLoop_returning {R : Type} (opts : RetryOptions) (remaining : nat) :
  forall (attempt : Z) (lastError : JsError) (w : RetryWorld R),
    RetryPredicate.retryLoop
      (option_map RetryPredicate.returning (isRetryable opts))
      opts remaining attempt lastError w =
    retryLoop opts remaining attempt lastError w.
Proof.
  induction remaining as [|remaining IH]; intros attempt lastError w;
    [reflexivity|].
  cbn [RetryPredicate.retryLoop retryLoop].
  destruct (attemptBody opts attempt lastError w) as [[r|t] w1];
    [reflexivity|].
  destruct (maxRetries opts <=? attempt); [reflexivity|].
  generalize (IH (attempt + 1) (toError t) w1).
  destruct (isRetryable opts) as [p|]; cbn [option_map]; intros Hnext.
  - unfold RetryPredicate.returning at 1.
    destruct (p (toError t)); cbn [negb]; [exact Hnext|reflexivity].
  - exact Hnext.
Qed.

Lemma retryLoop_bounds {R : Type}
    (predicate : option (JsError -> Outcome bool)) (opts : RetryOptions)
    (remaining : nat) :
  forall (attempt : Z) (lastError : JsError) (w : RetryWorld R),
  exists o w',
    RetryPredicate.retryLoop predicate opts remaining attempt lastError w
      = (o, w') /\
    script w' = script w /\
    (invocations w <= invocations w' <= invocations w + remaining)%nat /\
    (forall r, o = Returns r ->
       (invocations w < invocations w')%nat /\
       script w (invocations w' - 1)%nat = Returns r) /\
    (forall t, o = Throws t ->
       (exists e, t = ThrownError e) \/
       (exists p e, predicate = Some p /\ p e = Throws t)).
Proof.
  induction remaining as [|remaining IH]; intros attempt lastError w.
  - eexists _, _. split; [reflexivity|]. split; [done|]. split; [lia|].
    split; [done|]. intros t Ht. injection Ht as <-. left. by eexists.
  - destruct (attemptBody_cases opts attempt lastError w)
      as (o & w1 & Hbody & Hscript & Hcases).
    assert (invocations w <= invocations w1 <= S (invocations w))%nat
      as Hstep by (destruct Hcases as [[-> _]|[-> _]]; lia).
    destruct (retryLoop_iteration predicate opts remaining attempt lastError
                w o w1 Hbody) as [(o' & -> & Hstop)|(t & -> & ->)].
    + exists o', w1. split; [reflexivity|]. split; [done|]. split; [lia|].
      destruct Hstop as [(r & -> & ->)|(t & -> & Hthrown)].
      * split; [|done]. intros r' Hr'. injection Hr' as <-.
        destruct Hcases as [[Hinv Ho]|[_ [t Ht]]]; [|done].
        split; [lia|]. rewrite Hinv. simpl. by rewrite Nat.sub_0_r.
      * split; [by destruct Hthrown as [->|(p & t' & _ & _ & ->)]|].
        intros t0 Ht0.
        destruct Hthrown as [->|(p & t' & Hpred & Hp & ->)];
          injection Ht0 as <-; [left; by eexists|].
        right. by exists p, (toError t).
    + destruct (IH (attempt + 1) (toError t) w1)
        as (o' & w' & -> & Hscript' & Hbound & Hret & Hthrow).
      exists o', w'. split; [reflexivity|].
      split; [by rewrite Hscript', Hscript|].
      split; [lia|]. split; [|done].
      intros r Hr. destruct (Hret r Hr) as [Hlt Hlast].
      split; [lia|]. by rewrite <- Hscript.
Qed.

Lemma count_app (kind : RetryEvent -> bool) (l1 l2 : list RetryEvent) :
  RetryPredicate.count kind (l1 ++ l2) =
  (RetryPredicate.count kind l1 + RetryPredicate.count kind l2)%nat.
Proof.
  unfold RetryPredicate.count. by rewrite List.filter_app, length_app.
Qed.

Lemma sleepsLast_app (ms : Q) (l1 l2 : list RetryEvent) :
  RetryPredicate.sleepsLast ms l1 ->
  RetryPredicate.sleepsLast ms l2 ->
  RetryPredicate.sleepsLast ms (l1 ++ l2).
Proof.
  intros H1 H2 d Hin. apply in_app_iff in Hin as [Hin|Hin]; eauto.
Qed.

(** The loop from a retry on: every call and every callback has its sleep
    before it. *)
Lemma retryLoop_sleeps {R : Type}
    (predicate : option (JsError -> Outcome bool)) (opts : RetryOptions)
    (remaining : nat) :
  forall (attempt : Z) (lastError : JsError) (w : RetryWorld R),
  1 <= attempt ->
  exists o w' new,
    RetryPredicate.retryLoop predicate opts remaining attempt lastError w
      = (o, w') /\
    log w' = log w ++ new /\
    (RetryPredicate.count RetryPredicate.isCallEvent new
       <= RetryPredicate.count RetryPredicate.isSleepEvent new)%nat /\
    (RetryPredicate.count RetryPredicate.isOnRetryEvent new
       <= RetryPredicate.count RetryPredicate.isSleepEvent new)%nat /\
    (RetryPredicate.count RetryPredicate.isSleepEvent new <= remaining)%nat /\
    (backoff opts = false ->
       RetryPredicate.sleepsLast (initialDelayMs opts) new /\
       randomReads w' = randomReads w) /\
    (backoff opts = true ->
       randomReads w' =
         (randomReads w +
          RetryPredicate.count RetryPredicate.isSleepEvent new)%nat).
Proof.
  induction remaining as [|remaining IH]; intros attempt lastError w Hattempt.
  - eexists _, _, []. split; [reflexivity|]. rewrite app_nil_r.
    split; [done|]. split; [done|]. split; [done|]. split; [done|].
    split; [|intros _; unfold RetryPredicate.count; simpl; lia].
    intros _. split; [by intros d Hin|done].
  - destruct (attemptBody_later opts attempt lastError w)
      as (o & w1 & d & rest & Hbody & Hlog & Hrest & Hoff & Hon); [lia|].
    assert ((RetryPredicate.count RetryPredicate.isSleepEvent
               (EvSleep d :: rest) = 1 /\
             RetryPredicate.count RetryPredicate.isCallEvent
               (EvSleep d :: rest) <= 1 /\
             RetryPredicate.count RetryPredicate.isOnRetryEvent
               (EvSleep d :: rest) <= 1)%nat) as (Hsleeps & Hcalls & Hcbs).
    { destruct Hrest as [-> | [-> | ->]]; vm_compute; lia. }
    assert (backoff opts = false ->
            RetryPredicate.sleepsLast (initialDelayMs opts)
              (EvSleep d :: rest)) as Hlast.
    { intros Hb d' Hin. destruct (Hoff Hb) as [-> _].
      destruct Hin as [Heq|Hin]; [congruence|].
      destruct Hrest as [-> | [-> | ->]]; simpl in Hin;
        destruct Hin as [|Hin]; try done; destruct Hin; done. }
    destruct (retryLoop_iteration predicate opts remaining attempt lastError
                w o w1 Hbody) as [(o' & -> & _)|(t & -> & ->)].
    + exists o', w1, (EvSleep d :: rest). split; [reflexivity|].
      split; [done|]. split; [lia|]. split; [lia|]. split; [lia|].
      split.
      * intros Hb. split; [by apply Hlast|by apply Hoff].
      * intros Hb. rewrite (Hon Hb). lia.
    + destruct (IH (attempt + 1) (toError t) w1)
        as (o' & w' & new & -> & Hlog' & Hc & Hcb & Hs & Hoff' & Hon');
        [lia|].
      exists o', w', ((EvSleep d :: rest) ++ new). split; [reflexivity|].
      split; [by rewrite Hlog', Hlog, <- app_assoc|].
      rewrite !count_app.
      split; [lia|]. split; [lia|]. split; [lia|].
      split.
      * intros Hb. destruct (Hoff' Hb) as [Hl' Hr'].
        split; [apply sleepsLast_app; auto|].
        rewrite Hr'. by apply Hoff.
      * intros Hb. rewrite (Hon' Hb), (Hon Hb). lia.
Qed.

(** X28.  For every operation, every set of options with an integer
    [maxRetries] and every [isRetryable] predicate, which may itself throw,
    the call wrapped by [withRetry] completes after at most
    [max(0, maxRetries + 1)] invocations of the operation.  When it returns, at least one invocation was made and
    the value is what the last invocation returned; when it throws, it
    throws an [Error] instance, even if the operation threw another kind of
    value, or else what [isRetryable] threw. *)
Theorem withRetry_bounded {R : Type}
    (predicate : option (JsError -> Outcome bool))
    (options : PartialRetryOptions) (w : RetryWorld R) :
  let opts := resolveOptions options in
  exists o w',
    RetryPredicate.withRetry predicate options w = (o, w') /\
    (invocations w <= invocations w'
       <= invocations w + Z.to_nat (maxRetries opts + 1))%nat /\
    (forall r, o = Returns r ->
       (invocations w < invocations w')%nat /\
       script w (invocations w' - 1)%nat = Returns r) /\
    (forall t, o = Throws t ->
       (exists e, t = ThrownError e) \/
       (exists p e, predicate = Some p /\ p e = Throws t)).
Proof.
  intros opts. unfold RetryPredicate.withRetry. fold opts.
  destruct (retryLoop_bounds predicate opts (Z.to_nat (maxRetries opts + 1)) 0
              (newError "Unknown error") w)
    as (o & w' & Hrun & _ & Hbound & Hret & Hthrow).
  by exists o, w'.
Qed.

(** A predicate that throws a string makes the wrapped call throw that
    string, which is no [Error] instance. *)
Lemma withRetry_predicate_throws :
  exists w',
    RetryPredicate.withRetry (Some RetryPredicate.throwingPredicate)
      rejectingOptions (flaky 3) = (Throws (ThrownValue "not today"), w') /\
    invocations w' = 1%nat.
Proof. eexists. split; [vm_compute; reflexivity|reflexivity]. Qed.

(** X29.  When the first invocation fails and either [maxRetries] is 0
    or [isRetryable] rejects the error, the call wrapped by [withRetry]
    rethrows the error (wrapped in an [Error] if it is not one) after that
    one invocation, without sleeping and without calling [onRetry]. *)
Theorem withRetry_stops_at_rejected_error {R : Type}
    (options : PartialRetryOptions) (w : RetryWorld R) (t : Thrown) :
  let opts := resolveOptions options in
  script w (invocations w) = Throws t ->
  0 <= maxRetries opts ->
  (maxRetries opts = 0 \/
   exists p, isRetryable opts = Some p /\ p (toError t) = false) ->
  exists w',
    withRetry options w = (Throws (ThrownError (toError t)), w') /\
    log w' = log w ++ [EvCall] /\
    invocations w' = S (invocations w).
Proof.
  intros opts Hfail Hmax Hstop. unfold withRetry. fold opts. clearbody opts.
  replace (Z.to_nat (maxRetries opts + 1))
    with (S (Z.to_nat (maxRetries opts))) by lia.
  cbn [retryLoop]. unfold attemptBody, callFn. simpl. rewrite Hfail.
  destruct Hstop as [->|(p & -> & Hp)].
  - simpl. by eexists.
  - destruct (maxRetries opts <=? 0); [by eexists|].
    rewrite Hp. simpl. by eexists.
Qed.

Lemma withRetry_stops_at_rejected_error_witness :
  exists w',
    withRetry rejectingOptions (flaky 3) = (Throws (ThrownError boom), w') /\
    log w' = [EvCall] /\ invocations w' = 1%nat.
Proof.
  apply (withRetry_stops_at_rejected_error rejectingOptions (flaky 3)
           (ThrownError boom)).
  - reflexivity.
  - vm_compute. discriminate.
  - right. exists (fun _ => false). split; reflexivity.
Defined.

(** X30.  For every operation, every set of options with an integer
    [maxRetries] and every [isRetryable] predicate: among the invocations,
    sleeps and [onRetry] calls that the call wrapped by [withRetry] makes,
    there are at most one more invocation than sleeps, at most as many
    [onRetry] calls as sleeps, and at most [max(0, maxRetries)] sleeps.
    Without backoff every sleep lasts exactly [initialDelayMs], whatever
    [maxDelayMs] is, and [Math.random] is never read; with backoff
    [Math.random] is read once per sleep. *)
Theorem withRetry_sleeps_before_retries {R : Type}
    (predicate : option (JsError -> Outcome bool))
    (options : PartialRetryOptions) (w : RetryWorld R) :
  let opts := resolveOptions options in
  exists o w' new,
    RetryPredicate.withRetry predicate options w = (o, w') /\
    log w' = log w ++ new /\
    (RetryPredicate.count RetryPredicate.isCallEvent new
       <= RetryPredicate.count RetryPredicate.isSleepEvent new + 1)%nat /\
    (RetryPredicate.count RetryPredicate.isOnRetryEvent new
       <= RetryPredicate.count RetryPredicate.isSleepEvent new)%nat /\
    (RetryPredicate.count RetryPredicate.isSleepEvent new
       <= Z.to_nat (maxRetries opts))%nat /\
    (backoff opts = false ->
       RetryPredicate.sleepsLast (initialDelayMs opts) new /\
       randomReads w' = randomReads w) /\
    (backoff opts = true ->
       randomReads w' =
         (randomReads w +
          RetryPredicate.count RetryPredicate.isSleepEvent new)%nat).
Proof.
  intros opts. unfold RetryPredicate.withRetry. fold opts. clearbody opts.
  destruct (Z.to_nat (maxRetries opts + 1)) as [|remaining] eqn:Hremaining.
  { eexists _, _, []. split; [reflexivity|]. rewrite app_nil_r.
    split; [done|]. split; [unfold RetryPredicate.count; simpl; lia|].
    split; [done|]. split; [unfold RetryPredicate.count; simpl; lia|].
    split; [|intros _; unfold RetryPredicate.count; simpl; lia].
    intros _. split; [by intros d Hin|done]. }
  assert (remaining = Z.to_nat (maxRetries opts)) as Hmax by lia.
  destruct (attemptBody_opening opts (newError "Unknown error") w)
    as (o & w1 & Hbody & Hlog & Hreads).
  destruct (retryLoop_iteration predicate opts remaining 0
              (newError "Unknown error") w o w1 Hbody)
    as [(o' & -> & _)|(t & -> & ->)].
  - exists o', w1, [EvCall]. split; [reflexivity|]. split; [done|].
    split; [vm_compute; lia|]. split; [vm_compute; lia|].
    split; [vm_compute; lia|].
    split; [|intros _; rewrite Hreads; unfold RetryPredicate.count; simpl; lia].
    intros _. split; [|done].
    intros d [Hin|[]]. discriminate.
  - destruct (retryLoop_sleeps predicate opts remaining (0 + 1) (toError t)
                w1)
      as (o' & w' & new & -> & Hlog' & Hc & Hcb & Hs & Hoff & Hon); [lia|].
    exists o', w', ([EvCall] ++ new). split; [reflexivity|].
    split; [by rewrite Hlog', Hlog, <- app_assoc|].
    rewrite !count_app.
    change (RetryPredicate.count RetryPredicate.isCallEvent [EvCall])
      with 1%nat.
    change (RetryPredicate.count RetryPredicate.isSleepEvent [EvCall])
      with 0%nat.
    change (RetryPredicate.count RetryPredicate.isOnRetryEvent [EvCall])
      with 0%nat.
    split; [lia|]. split; [lia|]. split; [lia|].
    split.
    + intros Hb. destruct (Hoff Hb) as [Hl Hr].
      split; [|by rewrite Hr].
      apply sleepsLast_app; [|done]. intros d [Hin|[]]. discriminate.
    + intros Hb. rewrite (Hon Hb), Hreads. lia.
Qed.
End RetryMore.
